(** * S1-SEE: subscriber store, rule engine, write-ahead log and S1AP codec

    A shallow embedding of the parts of S1-SEE that its specification makes
    claims about, with the claims stated and settled as theorems.

    - [Correlator]  src/s1ap_ue_correlator.cpp (class S1apUeCorrelator)
    - [Rules]       src/rules/rule_engine.cc   (class RuleEngine)
    - [Wal]         wal_log.cc                 (class WALLog)
    - [Codec]       src/s1ap_parser.cpp, s1ap_decoder_wrapper.cc

    Unsigned machine integers are natural numbers ([N]) with the wrap-around
    written where the code can reach it; [std::unordered_map] is [gmap];
    [std::optional] is [option]; a pointer to a record of a map is the key of
    that record. *)

From Stdlib Require Import ZArith NArith List String Ascii Lia Bool.
From stdpp Require Import base tactics option list gmap strings fin_maps pretty.

Local Open Scope N_scope.

(** ** Subscriber store (S1apUeCorrelator) *)

Module Correlator.

(** [struct SubscriberRecord].  The drone and GPS fields are never touched by
    the store operations and are left out; the timestamps are [double] in the
    source, only compared with zero and copied, and an integer stands for
    them here. *)
Record SubscriberRecord := mkSubscriberRecord {
  imsi : option string;
  tmsi : option string;
  enb_ue_s1ap_id : option N;
  mme_ue_s1ap_id : option N;
  teids : gset N;
  imeisv : option string;
  first_seen_timestamp : option Z;
  last_seen_timestamp : option Z
}.

(** [SubscriberRecord()] *)
Definition new_record : SubscriberRecord :=
  mkSubscriberRecord None None None None ∅ None None None.

Definition set_imsi (v : option string) (r : SubscriberRecord) :=
  mkSubscriberRecord v (tmsi r) (enb_ue_s1ap_id r) (mme_ue_s1ap_id r)
    (teids r) (imeisv r) (first_seen_timestamp r) (last_seen_timestamp r).
Definition set_tmsi (v : option string) (r : SubscriberRecord) :=
  mkSubscriberRecord (imsi r) v (enb_ue_s1ap_id r) (mme_ue_s1ap_id r)
    (teids r) (imeisv r) (first_seen_timestamp r) (last_seen_timestamp r).
Definition set_enb (v : option N) (r : SubscriberRecord) :=
  mkSubscriberRecord (imsi r) (tmsi r) v (mme_ue_s1ap_id r)
    (teids r) (imeisv r) (first_seen_timestamp r) (last_seen_timestamp r).
Definition set_mme (v : option N) (r : SubscriberRecord) :=
  mkSubscriberRecord (imsi r) (tmsi r) (enb_ue_s1ap_id r) v
    (teids r) (imeisv r) (first_seen_timestamp r) (last_seen_timestamp r).
Definition set_teids (v : gset N) (r : SubscriberRecord) :=
  mkSubscriberRecord (imsi r) (tmsi r) (enb_ue_s1ap_id r) (mme_ue_s1ap_id r)
    v (imeisv r) (first_seen_timestamp r) (last_seen_timestamp r).
Definition set_imeisv (v : option string) (r : SubscriberRecord) :=
  mkSubscriberRecord (imsi r) (tmsi r) (enb_ue_s1ap_id r) (mme_ue_s1ap_id r)
    (teids r) v (first_seen_timestamp r) (last_seen_timestamp r).
Definition set_first_seen (v : option Z) (r : SubscriberRecord) :=
  mkSubscriberRecord (imsi r) (tmsi r) (enb_ue_s1ap_id r) (mme_ue_s1ap_id r)
    (teids r) (imeisv r) v (last_seen_timestamp r).
Definition set_last_seen (v : option Z) (r : SubscriberRecord) :=
  mkSubscriberRecord (imsi r) (tmsi r) (enb_ue_s1ap_id r) (mme_ue_s1ap_id r)
    (teids r) (imeisv r) (first_seen_timestamp r) v.

(** The private members of [class S1apUeCorrelator] that the store
    operations read.  The identifier-to-TEID maps filled at the start of
    [processS1apFrame] are written but never read by the operations below
    and are left out. *)
Record S1apUeCorrelator := mkCorrelator {
  subscriber_records_ : gmap N SubscriberRecord;
  next_subscriber_id_ : N;
  imsi_to_subscriber_id_ : gmap string N;
  tmsi_to_subscriber_id_ : gmap string N;
  enb_ue_s1ap_id_to_subscriber_id_ : gmap N N;
  mme_ue_s1ap_id_to_subscriber_id_ : gmap N N;
  teid_to_subscriber_id_ : gmap N N;
  imeisv_to_subscriber_id_ : gmap string N
}.

(** The constructor: [next_subscriber_id_(1)], every map empty. *)
Definition init : S1apUeCorrelator :=
  mkCorrelator ∅ 1 ∅ ∅ ∅ ∅ ∅ ∅.

Definition with_records (m : gmap N SubscriberRecord) (st : S1apUeCorrelator) :=
  mkCorrelator m (next_subscriber_id_ st) (imsi_to_subscriber_id_ st)
    (tmsi_to_subscriber_id_ st) (enb_ue_s1ap_id_to_subscriber_id_ st)
    (mme_ue_s1ap_id_to_subscriber_id_ st) (teid_to_subscriber_id_ st)
    (imeisv_to_subscriber_id_ st).
Definition with_next (n : N) (st : S1apUeCorrelator) :=
  mkCorrelator (subscriber_records_ st) n (imsi_to_subscriber_id_ st)
    (tmsi_to_subscriber_id_ st) (enb_ue_s1ap_id_to_subscriber_id_ st)
    (mme_ue_s1ap_id_to_subscriber_id_ st) (teid_to_subscriber_id_ st)
    (imeisv_to_subscriber_id_ st).
Definition with_imsi_index (m : gmap string N) (st : S1apUeCorrelator) :=
  mkCorrelator (subscriber_records_ st) (next_subscriber_id_ st) m
    (tmsi_to_subscriber_id_ st) (enb_ue_s1ap_id_to_subscriber_id_ st)
    (mme_ue_s1ap_id_to_subscriber_id_ st) (teid_to_subscriber_id_ st)
    (imeisv_to_subscriber_id_ st).
Definition with_tmsi_index (m : gmap string N) (st : S1apUeCorrelator) :=
  mkCorrelator (subscriber_records_ st) (next_subscriber_id_ st)
    (imsi_to_subscriber_id_ st) m (enb_ue_s1ap_id_to_subscriber_id_ st)
    (mme_ue_s1ap_id_to_subscriber_id_ st) (teid_to_subscriber_id_ st)
    (imeisv_to_subscriber_id_ st).
Definition with_enb_index (m : gmap N N) (st : S1apUeCorrelator) :=
  mkCorrelator (subscriber_records_ st) (next_subscriber_id_ st)
    (imsi_to_subscriber_id_ st) (tmsi_to_subscriber_id_ st) m
    (mme_ue_s1ap_id_to_subscriber_id_ st) (teid_to_subscriber_id_ st)
    (imeisv_to_subscriber_id_ st).
Definition with_mme_index (m : gmap N N) (st : S1apUeCorrelator) :=
  mkCorrelator (subscriber_records_ st) (next_subscriber_id_ st)
    (imsi_to_subscriber_id_ st) (tmsi_to_subscriber_id_ st)
    (enb_ue_s1ap_id_to_subscriber_id_ st) m (teid_to_subscriber_id_ st)
    (imeisv_to_subscriber_id_ st).
Definition with_teid_index (m : gmap N N) (st : S1apUeCorrelator) :=
  mkCorrelator (subscriber_records_ st) (next_subscriber_id_ st)
    (imsi_to_subscriber_id_ st) (tmsi_to_subscriber_id_ st)
    (enb_ue_s1ap_id_to_subscriber_id_ st)
    (mme_ue_s1ap_id_to_subscriber_id_ st) m (imeisv_to_subscriber_id_ st).
Definition with_imeisv_index (m : gmap string N) (st : S1apUeCorrelator) :=
  mkCorrelator (subscriber_records_ st) (next_subscriber_id_ st)
    (imsi_to_subscriber_id_ st) (tmsi_to_subscriber_id_ st)
    (enb_ue_s1ap_id_to_subscriber_id_ st)
    (mme_ue_s1ap_id_to_subscriber_id_ st) (teid_to_subscriber_id_ st) m.

(** A [SubscriberRecord*] into [subscriber_records_] is the key of the
    record; [nullptr] is [None].  Reading through the pointer reads the map
    at that key, writing alters the map there. *)
Definition deref (st : S1apUeCorrelator) (p : N) : SubscriberRecord :=
  default new_record (subscriber_records_ st !! p).

Definition update_record (p : N) (f : SubscriberRecord -> SubscriberRecord)
    (st : S1apUeCorrelator) : S1apUeCorrelator :=
  with_records (alter f p (subscriber_records_ st)) st.

(** [uint64_t] increment. *)
Definition u64_succ (n : N) : N := (n + 1) mod 2 ^ 64.

(** *** Normalisation *)

Definition isdigit (c : ascii) : bool :=
  let n := N_of_ascii c in (48 <=? n) && (n <=? 57).
Definition isxdigit (c : ascii) : bool :=
  let n := N_of_ascii c in
  isdigit c || ((65 <=? n) && (n <=? 70)) || ((97 <=? n) && (n <=? 102)).
Definition tolower (c : ascii) : ascii :=
  let n := N_of_ascii c in
  if (65 <=? n) && (n <=? 90) then ascii_of_N (n + 32) else c.

Fixpoint normalizeImsi (s : string) : string :=
  match s with
  | EmptyString => EmptyString
  | String c s' =>
      if isdigit c then String c (normalizeImsi s') else normalizeImsi s'
  end.

Fixpoint keep_xdigits_lower (s : string) : string :=
  match s with
  | EmptyString => EmptyString
  | String c s' =>
      if isxdigit c then String (tolower c) (keep_xdigits_lower s')
      else keep_xdigits_lower s'
  end.

Definition normalizeTmsi (s : string) : string :=
  let normalized := keep_xdigits_lower s in
  if (2 <? N.of_nat (String.length normalized))
     && String.eqb (String.substring 0 2 normalized) "0x"
  then String.substring 2 (String.length normalized - 2) normalized
  else normalized.

Definition normalizeImeisv (s : string) : string := normalizeImsi s.

(** *** Association operations

    Each takes the pointer [subscriber] and the id [subscriber_id] the
    caller says it has, as the source does. *)

Definition associateImsi (subscriber : option N) (subscriber_id : N)
    (v : string) (st : S1apUeCorrelator) : S1apUeCorrelator :=
  match subscriber with
  | None => st
  | Some p =>
      if subscriber_id =? 0 then st else
      let st1 := match imsi (deref st p) with
                 | Some old =>
                     with_imsi_index (delete old (imsi_to_subscriber_id_ st)) st
                 | None => st
                 end in
      let st2 := update_record p (set_imsi (Some v)) st1 in
      with_imsi_index (<[v := subscriber_id]> (imsi_to_subscriber_id_ st2)) st2
  end.

Definition associateTmsi (subscriber : option N) (subscriber_id : N)
    (v : string) (st : S1apUeCorrelator) : S1apUeCorrelator :=
  match subscriber with
  | None => st
  | Some p =>
      let st1 := match tmsi (deref st p) with
                 | Some old =>
                     with_tmsi_index (delete old (tmsi_to_subscriber_id_ st)) st
                 | None => st
                 end in
      let st2 := update_record p (set_tmsi (Some v)) st1 in
      with_tmsi_index (<[v := subscriber_id]> (tmsi_to_subscriber_id_ st2)) st2
  end.

Definition associateImeisv (subscriber : option N) (subscriber_id : N)
    (v : string) (st : S1apUeCorrelator) : S1apUeCorrelator :=
  match subscriber with
  | None => st
  | Some p =>
      let st1 := match imeisv (deref st p) with
                 | Some old =>
                     with_imeisv_index
                       (delete old (imeisv_to_subscriber_id_ st)) st
                 | None => st
                 end in
      let st2 := update_record p (set_imeisv (Some v)) st1 in
      with_imeisv_index
        (<[v := subscriber_id]> (imeisv_to_subscriber_id_ st2)) st2
  end.

Definition associateEnbUeS1apId (subscriber : option N) (subscriber_id : N)
    (v : N) (st : S1apUeCorrelator) : S1apUeCorrelator :=
  match subscriber with
  | None => st
  | Some p =>
      (* already associated with a different subscriber: that one loses it *)
      let st1 := match enb_ue_s1ap_id_to_subscriber_id_ st !! v with
                 | Some other =>
                     if negb (other =? subscriber_id)
                     then update_record other (set_enb None) st
                     else st
                 | None => st
                 end in
      (* the subscriber had a different value: drop its index entry *)
      let st2 := match enb_ue_s1ap_id (deref st1 p) with
                 | Some old =>
                     if negb (old =? v)
                     then with_enb_index
                            (delete old (enb_ue_s1ap_id_to_subscriber_id_ st1))
                            st1
                     else st1
                 | None => st1
                 end in
      let st3 := update_record p (set_enb (Some v)) st2 in
      with_enb_index
        (<[v := subscriber_id]> (enb_ue_s1ap_id_to_subscriber_id_ st3)) st3
  end.

Definition associateMmeUeS1apId (subscriber : option N) (subscriber_id : N)
    (v : N) (st : S1apUeCorrelator) : S1apUeCorrelator :=
  match subscriber with
  | None => st
  | Some p =>
      let st1 := match mme_ue_s1ap_id_to_subscriber_id_ st !! v with
                 | Some other =>
                     if negb (other =? subscriber_id)
                     then update_record other (set_mme None) st
                     else st
                 | None => st
                 end in
      let st2 := match mme_ue_s1ap_id (deref st1 p) with
                 | Some old =>
                     if negb (old =? v)
                     then with_mme_index
                            (delete old (mme_ue_s1ap_id_to_subscriber_id_ st1))
                            st1
                     else st1
                 | None => st1
                 end in
      let st3 := update_record p (set_mme (Some v)) st2 in
      with_mme_index
        (<[v := subscriber_id]> (mme_ue_s1ap_id_to_subscriber_id_ st3)) st3
  end.

Definition associateTeid (subscriber : option N) (subscriber_id : N)
    (v : N) (st : S1apUeCorrelator) : S1apUeCorrelator :=
  match subscriber with
  | None => st
  | Some p =>
      if subscriber_id =? 0 then st else
      let st1 := match teid_to_subscriber_id_ st !! v with
                 | Some old =>
                     if negb (old =? 0) && negb (old =? subscriber_id)
                     then update_record old
                            (fun r => set_teids (teids r ∖ {[v]}) r) st
                     else st
                 | None => st
                 end in
      let st2 := update_record p (fun r => set_teids (teids r ∪ {[v]}) r) st1 in
      with_teid_index (<[v := subscriber_id]> (teid_to_subscriber_id_ st2)) st2
  end.

(** *** Removal operations *)

Definition removeImsiAssociation (v : string) (st : S1apUeCorrelator) :=
  match imsi_to_subscriber_id_ st !! v with
  | Some id =>
      if negb (id =? 0) then
        let st1 := update_record id (set_imsi None) st in
        with_imsi_index (delete v (imsi_to_subscriber_id_ st1)) st1
      else st
  | None => st
  end.

Definition removeTmsiAssociation (v : string) (st : S1apUeCorrelator) :=
  match tmsi_to_subscriber_id_ st !! v with
  | Some id =>
      if negb (id =? 0) then
        let st1 := update_record id (set_tmsi None) st in
        with_tmsi_index (delete v (tmsi_to_subscriber_id_ st1)) st1
      else st
  | None => st
  end.

Definition removeEnbUeS1apIdAssociation (v : N) (st : S1apUeCorrelator) :=
  match enb_ue_s1ap_id_to_subscriber_id_ st !! v with
  | Some id =>
      if negb (id =? 0) then
        let st1 := update_record id (set_enb None) st in
        with_enb_index (delete v (enb_ue_s1ap_id_to_subscriber_id_ st1)) st1
      else st
  | None => st
  end.

Definition removeMmeUeS1apIdAssociation (v : N) (st : S1apUeCorrelator) :=
  match mme_ue_s1ap_id_to_subscriber_id_ st !! v with
  | Some id =>
      if negb (id =? 0) then
        let st1 := update_record id (set_mme None) st in
        with_mme_index (delete v (mme_ue_s1ap_id_to_subscriber_id_ st1)) st1
      else st
  | None => st
  end.

Definition removeTeidAssociation (v : N) (st : S1apUeCorrelator) :=
  match teid_to_subscriber_id_ st !! v with
  | Some id =>
      if negb (id =? 0) then
        let st1 := update_record id
                     (fun r => set_teids (teids r ∖ {[v]}) r) st in
        with_teid_index (delete v (teid_to_subscriber_id_ st1)) st1
      else st
  | None => st
  end.

Definition removeImeisvAssociation (v : string) (st : S1apUeCorrelator) :=
  match imeisv_to_subscriber_id_ st !! v with
  | Some id =>
      if negb (id =? 0) then
        let st1 := update_record id (set_imeisv None) st in
        with_imeisv_index (delete v (imeisv_to_subscriber_id_ st1)) st1
      else st
  | None => st
  end.

(** *** getOrCreateSubscriber *)

(** One lookup of the matching cascade: when no subscriber is found yet and
    the identifier is given, take the id the index has for it. *)
Definition find_by {K} `{Countable K} (idx : gmap K N) (k : option K)
    (subscriber_id : N) : N :=
  if subscriber_id =? 0 then
    match k with
    | Some v => match idx !! v with
                | Some id => id
                | None => subscriber_id
                end
    | None => subscriber_id
    end
  else subscriber_id.

(** Both S1AP ids given and indexed to the same record. *)
Definition find_by_both (st : S1apUeCorrelator) (mme enb : option N)
    (subscriber_id : N) : N :=
  if subscriber_id =? 0 then
    match mme, enb with
    | Some m, Some e =>
        match mme_ue_s1ap_id_to_subscriber_id_ st !! m,
              enb_ue_s1ap_id_to_subscriber_id_ st !! e with
        | Some a, Some b => if a =? b then a else subscriber_id
        | _, _ => subscriber_id
        end
    | _, _ => subscriber_id
    end
  else subscriber_id.

Definition has_value {A} (o : option A) : bool :=
  match o with
  | Some _ => true
  | None => false
  end.

Definition opt_matches (want have : option N) : bool :=
  match want with
  | None => true
  | Some w => match have with
              | Some h => h =? w
              | None => false
              end
  end.

(** First fallback loop: the record whose stored S1AP ids equal the
    requested ones; a second match resets the candidate and leaves the
    loop. *)
Fixpoint scan_s1ap_ids (mme enb : option N)
    (l : list (N * SubscriberRecord)) (candidate : N) : N :=
  match l with
  | [] => candidate
  | (id, record) :: l' =>
      if opt_matches mme (mme_ue_s1ap_id record)
         && opt_matches enb (enb_ue_s1ap_id record)
         && (has_value (mme_ue_s1ap_id record)
             || has_value (enb_ue_s1ap_id record))
      then if candidate =? 0 then scan_s1ap_ids mme enb l' id else 0
      else scan_s1ap_ids mme enb l' candidate
  end.

Definition has_stable (record : SubscriberRecord) : bool :=
  has_value (imsi record) || has_value (tmsi record).

(** Second fallback loop: count the records holding an IMSI or a TMSI and
    remember the first. *)
Fixpoint scan_stable (l : list (N * SubscriberRecord))
    (candidate_id candidate_count : N) : N * N :=
  match l with
  | [] => (candidate_id, candidate_count)
  | (id, record) :: l' =>
      if has_stable record
      then scan_stable l' (if candidate_id =? 0 then id else candidate_id)
             (candidate_count + 1)
      else scan_stable l' candidate_id candidate_count
  end.

(** Third fallback loop: the highest id among those records. *)
Fixpoint scan_most_recent (l : list (N * SubscriberRecord))
    (most_recent_id : N) : N :=
  match l with
  | [] => most_recent_id
  | (id, record) :: l' =>
      if has_stable record && (most_recent_id <? id)
      then scan_most_recent l' id
      else scan_most_recent l' most_recent_id
  end.

Definition fallback (st : S1apUeCorrelator) (imsi_ tmsi_ imeisv_ : option string)
    (mme enb : option N) (subscriber_id : N) : N :=
  if (subscriber_id =? 0) && negb (has_value imsi_) && negb (has_value tmsi_)
     && negb (has_value imeisv_) && (has_value mme || has_value enb)
  then
    let records := map_to_list (subscriber_records_ st) in
    let candidate_by_s1ap_id := scan_s1ap_ids mme enb records 0 in
    if negb (candidate_by_s1ap_id =? 0) then candidate_by_s1ap_id
    else
      let '(candidate_id, candidate_count) := scan_stable records 0 0 in
      if (candidate_count =? 1) && negb (candidate_id =? 0)
      then candidate_id
      else if (1 <? candidate_count) && negb (candidate_id =? 0)
      then scan_most_recent records candidate_id
      else subscriber_id
  else subscriber_id.

(** The matching cascade of [getOrCreateSubscriber], up to the creation. *)
Definition lookup_subscriber (st : S1apUeCorrelator)
    (imsi_ tmsi_ : option string) (enb mme teid : option N)
    (imeisv_ : option string) : N :=
  let id := find_by (imsi_to_subscriber_id_ st) imsi_ 0 in
  let id := find_by (tmsi_to_subscriber_id_ st) tmsi_ id in
  let id := find_by (imeisv_to_subscriber_id_ st) imeisv_ id in
  let id := find_by_both st mme enb id in
  let id := find_by (mme_ue_s1ap_id_to_subscriber_id_ st) mme id in
  let id := find_by (enb_ue_s1ap_id_to_subscriber_id_ st) enb id in
  let id := find_by (teid_to_subscriber_id_ st) teid id in
  fallback st imsi_ tmsi_ imeisv_ mme enb id.

(** Run [f] on the value of an optional that has one. *)
Definition when_some {A} (o : option A)
    (f : A -> S1apUeCorrelator -> S1apUeCorrelator)
    (st : S1apUeCorrelator) : S1apUeCorrelator :=
  match o with
  | Some v => f v st
  | None => st
  end.

(** Taking the address of [subscriber_records_] at [id]: the subscript
    operator default-constructs a missing record. *)
Definition record_ref (id : N) (st : S1apUeCorrelator) : S1apUeCorrelator :=
  match subscriber_records_ st !! id with
  | Some _ => st
  | None => with_records (<[id := new_record]> (subscriber_records_ st)) st
  end.

Definition getOrCreateSubscriber (imsi_ tmsi_ : option string)
    (enb mme teid : option N) (imeisv_ : option string)
    (st : S1apUeCorrelator) : option N * S1apUeCorrelator :=
  let found := lookup_subscriber st imsi_ tmsi_ enb mme teid imeisv_ in
  let '(subscriber_id, st) :=
    if found =? 0 then
      let id := next_subscriber_id_ st in
      (id, with_records (<[id := new_record]> (subscriber_records_ st))
             (with_next (u64_succ id) st))
    else (found, st) in
  let st := record_ref subscriber_id st in
  let subscriber := Some subscriber_id in
  let st := when_some imsi_ (associateImsi subscriber subscriber_id) st in
  let st := when_some tmsi_ (associateTmsi subscriber subscriber_id) st in
  let st := when_some enb (associateEnbUeS1apId subscriber subscriber_id) st in
  let st := when_some mme (associateMmeUeS1apId subscriber subscriber_id) st in
  let st := when_some teid (associateTeid subscriber subscriber_id) st in
  let st := when_some imeisv_ (associateImeisv subscriber subscriber_id) st in
  (subscriber, st).

(** *** processS1apFrame *)

Inductive S1apPduType :=
  INITIATING_MESSAGE | SUCCESSFUL_OUTCOME | UNSUCCESSFUL_OUTCOME.

(** What [processS1apFrame] reads of its argument: the procedure code and
    PDU type of the parse result, and what the extractors of s1ap_parser
    return for it (the store takes the identifiers as the extractors give
    them).  [frame_s1ap_ids] is (MME-UE-S1AP-ID, eNB-UE-S1AP-ID). *)
Record Frame := mkFrame {
  procedure_code : N;
  pdu_type : S1apPduType;
  frame_teids : list N;
  frame_imsis : list string;
  frame_tmsis : list string;
  frame_tmsi_teids : list N;
  frame_imeisvs : list string;
  frame_s1ap_ids : option N * option N
}.

(** The lookups of [processS1apFrame] after the call: as [find_by], but an
    index entry holding id 0 is passed over ([it->second != 0]). *)
Definition id_from {K} `{Countable K} (idx : gmap K N) (k : option K)
    (subscriber_id : N) : N :=
  if subscriber_id =? 0 then
    match k with
    | Some v => match idx !! v with
                | Some id => if negb (id =? 0) then id else subscriber_id
                | None => subscriber_id
                end
    | None => subscriber_id
    end
  else subscriber_id.

Definition update_timestamps (subscriber : N) (timestamp : Z)
    (st : S1apUeCorrelator) : S1apUeCorrelator :=
  if (0 <? timestamp)%Z then
    let st := match first_seen_timestamp (deref st subscriber) with
              | Some _ => st
              | None => update_record subscriber
                          (set_first_seen (Some timestamp)) st
              end in
    update_record subscriber (set_last_seen (Some timestamp)) st
  else st.

Definition is_release_complete (f : Frame) : bool :=
  (procedure_code f =? 23)
  && match pdu_type f with SUCCESSFUL_OUTCOME => true | _ => false end.

Definition processS1apFrame (f : Frame) (timestamp : Z)
    (st : S1apUeCorrelator) : option N * S1apUeCorrelator :=
  let teids := frame_teids f ++ frame_tmsi_teids f in
  let s1ap_ids := frame_s1ap_ids f in
  let imsi_norm := normalizeImsi <$> head (frame_imsis f) in
  let tmsi_norm := normalizeTmsi <$> head (frame_tmsis f) in
  let imeisv_norm := normalizeImeisv <$> head (frame_imeisvs f) in
  if has_value imsi_norm || has_value tmsi_norm || has_value imeisv_norm
     || has_value s1ap_ids.1 || has_value s1ap_ids.2
  then
      let '(subscriber, st) :=
        getOrCreateSubscriber imsi_norm tmsi_norm s1ap_ids.2 s1ap_ids.1
          None imeisv_norm st in
      match subscriber with
      | None => (None, st)
      | Some p =>
          let id := id_from (imsi_to_subscriber_id_ st) imsi_norm 0 in
          let id := id_from (tmsi_to_subscriber_id_ st) tmsi_norm id in
          let id := id_from (imeisv_to_subscriber_id_ st) imeisv_norm id in
          let id := id_from (mme_ue_s1ap_id_to_subscriber_id_ st) s1ap_ids.1 id in
          let id := id_from (enb_ue_s1ap_id_to_subscriber_id_ st) s1ap_ids.2 id in
          let st :=
            if negb (id =? 0) then
              let st := when_some s1ap_ids.1 (associateMmeUeS1apId subscriber id) st in
              let st := when_some s1ap_ids.2 (associateEnbUeS1apId subscriber id) st in
              foldl (fun st teid => associateTeid subscriber id teid st) st teids
            else st in
          let st := update_timestamps p timestamp st in
          let st :=
            if is_release_complete f then
              let st := when_some s1ap_ids.1 removeMmeUeS1apIdAssociation st in
              when_some s1ap_ids.2 removeEnbUeS1apIdAssociation st
            else st in
          (subscriber, st)
      end
  else (None, st).

End Correlator.

(** ** Reasoning about the store *)

Module CorrelatorFacts.
Import Correlator.

(** What an operation leaves alone is said by erasing what it may touch:
    [drop_enb r] forgets the eNB id of [r], so two records equal after
    [drop_enb] agree on every other field. *)
Definition drop_imsi := set_imsi None.
Definition drop_tmsi := set_tmsi None.
Definition drop_imeisv := set_imeisv None.
Definition drop_enb := set_enb None.
Definition drop_mme := set_mme None.
Definition drop_teids := set_teids ∅.
Definition drop_ts (r : SubscriberRecord) :=
  set_first_seen None (set_last_seen None r).

Lemma alter_frame (drop f : SubscriberRecord -> SubscriberRecord) p
    (m : gmap N SubscriberRecord) k :
  (forall r, drop (f r) = drop r) ->
  drop <$> alter f p m !! k = drop <$> m !! k.
Proof.
  intros Hf. rewrite lookup_alter. case_decide; subst; [|done].
  destruct (m !! k); simpl; [by rewrite Hf|done].
Qed.

Ltac unfold_ops :=
  unfold associateImsi, associateTmsi, associateImeisv,
    associateEnbUeS1apId, associateMmeUeS1apId, associateTeid,
    removeImsiAssociation, removeTmsiAssociation, removeImeisvAssociation,
    removeEnbUeS1apIdAssociation, removeMmeUeS1apIdAssociation,
    removeTeidAssociation, update_timestamps, when_some.

Ltac frame_records :=
  intros; unfold_ops; repeat case_match; simpl;
  rewrite ?alter_frame by (by intros []); done.

Ltac frame_state :=
  intros; unfold_ops; repeat case_match; done.

Ltac index_effect :=
  intros *; unfold_ops; repeat case_match; simpl; intros;
  repeat match goal with
         | H : <[_:=_]> _ !! _ = Some _ |- _ =>
             rewrite lookup_insert in H; case_decide; simplify_eq
         | H : delete _ _ !! _ = Some _ |- _ =>
             rewrite lookup_delete in H; case_decide; simplify_eq
         end; auto.

(** *** Frame and effect of each operation

    For every operation: the records change at most in the field of its
    kind, the store changes at most in the records and the index of its
    kind, and an index entry the operation leaves behind is an old one or
    maps to the id it was called with. *)

Lemma associateImsi_records s id v st k :
  drop_imsi <$> subscriber_records_ (associateImsi s id v st) !! k
  = drop_imsi <$> subscriber_records_ st !! k.
Proof. frame_records. Qed.

Lemma associateImsi_state s id v st :
  with_imsi_index ∅ (with_records ∅ (associateImsi s id v st))
  = with_imsi_index ∅ (with_records ∅ st).
Proof. frame_state. Qed.

Lemma associateImsi_index s id v st w i :
  imsi_to_subscriber_id_ (associateImsi s id v st) !! w = Some i ->
  i = id \/ imsi_to_subscriber_id_ st !! w = Some i.
Proof. index_effect. Qed.

Lemma removeImsi_records v st k :
  drop_imsi <$> subscriber_records_ (removeImsiAssociation v st) !! k
  = drop_imsi <$> subscriber_records_ st !! k.
Proof. frame_records. Qed.

Lemma removeImsi_state v st :
  with_imsi_index ∅ (with_records ∅ (removeImsiAssociation v st))
  = with_imsi_index ∅ (with_records ∅ st).
Proof. frame_state. Qed.

Lemma removeImsi_index v st w i :
  imsi_to_subscriber_id_ (removeImsiAssociation v st) !! w = Some i -> imsi_to_subscriber_id_ st !! w = Some i.
Proof. index_effect. Qed.

Lemma associateTmsi_records s id v st k :
  drop_tmsi <$> subscriber_records_ (associateTmsi s id v st) !! k
  = drop_tmsi <$> subscriber_records_ st !! k.
Proof. frame_records. Qed.

Lemma associateTmsi_state s id v st :
  with_tmsi_index ∅ (with_records ∅ (associateTmsi s id v st))
  = with_tmsi_index ∅ (with_records ∅ st).
Proof. frame_state. Qed.

Lemma associateTmsi_index s id v st w i :
  tmsi_to_subscriber_id_ (associateTmsi s id v st) !! w = Some i ->
  i = id \/ tmsi_to_subscriber_id_ st !! w = Some i.
Proof. index_effect. Qed.

Lemma removeTmsi_records v st k :
  drop_tmsi <$> subscriber_records_ (removeTmsiAssociation v st) !! k
  = drop_tmsi <$> subscriber_records_ st !! k.
Proof. frame_records. Qed.

Lemma removeTmsi_state v st :
  with_tmsi_index ∅ (with_records ∅ (removeTmsiAssociation v st))
  = with_tmsi_index ∅ (with_records ∅ st).
Proof. frame_state. Qed.

Lemma removeTmsi_index v st w i :
  tmsi_to_subscriber_id_ (removeTmsiAssociation v st) !! w = Some i -> tmsi_to_subscriber_id_ st !! w = Some i.
Proof. index_effect. Qed.

Lemma associateImeisv_records s id v st k :
  drop_imeisv <$> subscriber_records_ (associateImeisv s id v st) !! k
  = drop_imeisv <$> subscriber_records_ st !! k.
Proof. frame_records. Qed.

Lemma associateImeisv_state s id v st :
  with_imeisv_index ∅ (with_records ∅ (associateImeisv s id v st))
  = with_imeisv_index ∅ (with_records ∅ st).
Proof. frame_state. Qed.

Lemma associateImeisv_index s id v st w i :
  imeisv_to_subscriber_id_ (associateImeisv s id v st) !! w = Some i ->
  i = id \/ imeisv_to_subscriber_id_ st !! w = Some i.
Proof. index_effect. Qed.

Lemma removeImeisv_records v st k :
  drop_imeisv <$> subscriber_records_ (removeImeisvAssociation v st) !! k
  = drop_imeisv <$> subscriber_records_ st !! k.
Proof. frame_records. Qed.

Lemma removeImeisv_state v st :
  with_imeisv_index ∅ (with_records ∅ (removeImeisvAssociation v st))
  = with_imeisv_index ∅ (with_records ∅ st).
Proof. frame_state. Qed.

Lemma removeImeisv_index v st w i :
  imeisv_to_subscriber_id_ (removeImeisvAssociation v st) !! w = Some i -> imeisv_to_subscriber_id_ st !! w = Some i.
Proof. index_effect. Qed.

Lemma associateEnb_records s id v st k :
  drop_enb <$> subscriber_records_ (associateEnbUeS1apId s id v st) !! k
  = drop_enb <$> subscriber_records_ st !! k.
Proof. frame_records. Qed.

Lemma associateEnb_state s id v st :
  with_enb_index ∅ (with_records ∅ (associateEnbUeS1apId s id v st))
  = with_enb_index ∅ (with_records ∅ st).
Proof. frame_state. Qed.

Lemma associateEnb_index s id v st w i :
  enb_ue_s1ap_id_to_subscriber_id_ (associateEnbUeS1apId s id v st) !! w = Some i ->
  i = id \/ enb_ue_s1ap_id_to_subscriber_id_ st !! w = Some i.
Proof. index_effect. Qed.

Lemma removeEnb_records v st k :
  drop_enb <$> subscriber_records_ (removeEnbUeS1apIdAssociation v st) !! k
  = drop_enb <$> subscriber_records_ st !! k.
Proof. frame_records. Qed.

Lemma removeEnb_state v st :
  with_enb_index ∅ (with_records ∅ (removeEnbUeS1apIdAssociation v st))
  = with_enb_index ∅ (with_records ∅ st).
Proof. frame_state. Qed.

Lemma removeEnb_index v st w i :
  enb_ue_s1ap_id_to_subscriber_id_ (removeEnbUeS1apIdAssociation v st) !! w = Some i -> enb_ue_s1ap_id_to_subscriber_id_ st !! w = Some i.
Proof. index_effect. Qed.

Lemma associateMme_records s id v st k :
  drop_mme <$> subscriber_records_ (associateMmeUeS1apId s id v st) !! k
  = drop_mme <$> subscriber_records_ st !! k.
Proof. frame_records. Qed.

Lemma associateMme_state s id v st :
  with_mme_index ∅ (with_records ∅ (associateMmeUeS1apId s id v st))
  = with_mme_index ∅ (with_records ∅ st).
Proof. frame_state. Qed.

Lemma associateMme_index s id v st w i :
  mme_ue_s1ap_id_to_subscriber_id_ (associateMmeUeS1apId s id v st) !! w = Some i ->
  i = id \/ mme_ue_s1ap_id_to_subscriber_id_ st !! w = Some i.
Proof. index_effect. Qed.

Lemma removeMme_records v st k :
  drop_mme <$> subscriber_records_ (removeMmeUeS1apIdAssociation v st) !! k
  = drop_mme <$> subscriber_records_ st !! k.
Proof. frame_records. Qed.

Lemma removeMme_state v st :
  with_mme_index ∅ (with_records ∅ (removeMmeUeS1apIdAssociation v st))
  = with_mme_index ∅ (with_records ∅ st).
Proof. frame_state. Qed.

Lemma removeMme_index v st w i :
  mme_ue_s1ap_id_to_subscriber_id_ (removeMmeUeS1apIdAssociation v st) !! w = Some i -> mme_ue_s1ap_id_to_subscriber_id_ st !! w = Some i.
Proof. index_effect. Qed.

Lemma associateTeid_records s id v st k :
  drop_teids <$> subscriber_records_ (associateTeid s id v st) !! k
  = drop_teids <$> subscriber_records_ st !! k.
Proof. frame_records. Qed.

Lemma associateTeid_state s id v st :
  with_teid_index ∅ (with_records ∅ (associateTeid s id v st))
  = with_teid_index ∅ (with_records ∅ st).
Proof. frame_state. Qed.

Lemma associateTeid_index s id v st w i :
  teid_to_subscriber_id_ (associateTeid s id v st) !! w = Some i ->
  i = id \/ teid_to_subscriber_id_ st !! w = Some i.
Proof. index_effect. Qed.

Lemma removeTeid_records v st k :
  drop_teids <$> subscriber_records_ (removeTeidAssociation v st) !! k
  = drop_teids <$> subscriber_records_ st !! k.
Proof. frame_records. Qed.

Lemma removeTeid_state v st :
  with_teid_index ∅ (with_records ∅ (removeTeidAssociation v st))
  = with_teid_index ∅ (with_records ∅ st).
Proof. frame_state. Qed.

Lemma removeTeid_index v st w i :
  teid_to_subscriber_id_ (removeTeidAssociation v st) !! w = Some i -> teid_to_subscriber_id_ st !! w = Some i.
Proof. index_effect. Qed.

Lemma update_timestamps_records p t st k :
  drop_ts <$> subscriber_records_ (update_timestamps p t st) !! k
  = drop_ts <$> subscriber_records_ st !! k.
Proof. frame_records. Qed.

Lemma update_timestamps_state p t st :
  with_records ∅ (update_timestamps p t st) = with_records ∅ st.
Proof. frame_state. Qed.

(** Only [getOrCreateSubscriber] moves the id counter. *)

Lemma associateImsi_next s id v st :
  next_subscriber_id_ (associateImsi s id v st) = next_subscriber_id_ st.
Proof. exact (f_equal next_subscriber_id_ (associateImsi_state s id v st)). Qed.

Lemma removeImsi_next v st :
  next_subscriber_id_ (removeImsiAssociation v st) = next_subscriber_id_ st.
Proof. exact (f_equal next_subscriber_id_ (removeImsi_state v st)). Qed.

Lemma associateTmsi_next s id v st :
  next_subscriber_id_ (associateTmsi s id v st) = next_subscriber_id_ st.
Proof. exact (f_equal next_subscriber_id_ (associateTmsi_state s id v st)). Qed.

Lemma removeTmsi_next v st :
  next_subscriber_id_ (removeTmsiAssociation v st) = next_subscriber_id_ st.
Proof. exact (f_equal next_subscriber_id_ (removeTmsi_state v st)). Qed.

Lemma associateImeisv_next s id v st :
  next_subscriber_id_ (associateImeisv s id v st) = next_subscriber_id_ st.
Proof. exact (f_equal next_subscriber_id_ (associateImeisv_state s id v st)). Qed.

Lemma removeImeisv_next v st :
  next_subscriber_id_ (removeImeisvAssociation v st) = next_subscriber_id_ st.
Proof. exact (f_equal next_subscriber_id_ (removeImeisv_state v st)). Qed.

Lemma associateEnb_next s id v st :
  next_subscriber_id_ (associateEnbUeS1apId s id v st) = next_subscriber_id_ st.
Proof. exact (f_equal next_subscriber_id_ (associateEnb_state s id v st)). Qed.

Lemma removeEnb_next v st :
  next_subscriber_id_ (removeEnbUeS1apIdAssociation v st) = next_subscriber_id_ st.
Proof. exact (f_equal next_subscriber_id_ (removeEnb_state v st)). Qed.

Lemma associateMme_next s id v st :
  next_subscriber_id_ (associateMmeUeS1apId s id v st) = next_subscriber_id_ st.
Proof. exact (f_equal next_subscriber_id_ (associateMme_state s id v st)). Qed.

Lemma removeMme_next v st :
  next_subscriber_id_ (removeMmeUeS1apIdAssociation v st) = next_subscriber_id_ st.
Proof. exact (f_equal next_subscriber_id_ (removeMme_state v st)). Qed.

Lemma associateTeid_next s id v st :
  next_subscriber_id_ (associateTeid s id v st) = next_subscriber_id_ st.
Proof. exact (f_equal next_subscriber_id_ (associateTeid_state s id v st)). Qed.

Lemma removeTeid_next v st :
  next_subscriber_id_ (removeTeidAssociation v st) = next_subscriber_id_ st.
Proof. exact (f_equal next_subscriber_id_ (removeTeid_state v st)). Qed.

Lemma update_timestamps_next p t st :
  next_subscriber_id_ (update_timestamps p t st) = next_subscriber_id_ st.
Proof. exact (f_equal next_subscriber_id_ (update_timestamps_state p t st)). Qed.

(** *** Well-formed record ids

    The ids of the records are exactly 1 .. next_subscriber_id_ - 1, and
    every index entry points to one of them. *)

Definition index_ok {K} `{Countable K} (idx : gmap K N) (next : N) : Prop :=
  forall v id, idx !! v = Some id -> 1 <= id < next.

Record ids_wf (st : S1apUeCorrelator) : Prop := mk_ids_wf {
  wf_next : 1 <= next_subscriber_id_ st;
  wf_dom : forall k, is_Some (subscriber_records_ st !! k)
                     <-> 1 <= k < next_subscriber_id_ st;
  wf_imsi : index_ok (imsi_to_subscriber_id_ st) (next_subscriber_id_ st);
  wf_tmsi : index_ok (tmsi_to_subscriber_id_ st) (next_subscriber_id_ st);
  wf_enb : index_ok (enb_ue_s1ap_id_to_subscriber_id_ st) (next_subscriber_id_ st);
  wf_mme : index_ok (mme_ue_s1ap_id_to_subscriber_id_ st) (next_subscriber_id_ st);
  wf_teid : index_ok (teid_to_subscriber_id_ st) (next_subscriber_id_ st);
  wf_imeisv : index_ok (imeisv_to_subscriber_id_ st) (next_subscriber_id_ st)
}.

Lemma ids_wf_init : ids_wf init.
Proof.
  constructor; simpl; try (intros v id H; by rewrite lookup_empty in H); [lia|].
  intros k. rewrite lookup_empty. split; [by intros [? ?]|lia].
Qed.

Lemma frame_is_Some (drop : SubscriberRecord -> SubscriberRecord)
    (o o' : option SubscriberRecord) :
  drop <$> o' = drop <$> o -> is_Some o' <-> is_Some o.
Proof. destruct o, o'; simpl; intros; simplify_eq; by rewrite ?is_Some_alt. Qed.

Lemma frame_field {A} (fld : SubscriberRecord -> A)
    (drop : SubscriberRecord -> SubscriberRecord)
    (o o' : option SubscriberRecord) :
  (forall r, fld (drop r) = fld r) ->
  drop <$> o' = drop <$> o -> fld <$> o' = fld <$> o.
Proof.
  intros Hf. destruct o as [r|], o' as [r'|]; simpl; intros; simplify_eq; [|done].
  f_equal. rewrite <- (Hf r), <- (Hf r'). congruence.
Qed.

(** The parts of the store a state frame speaks about. *)
Ltac state_part f H :=
  let E := fresh "E" in
  pose proof (f_equal f H) as E;
  cbn [next_subscriber_id_ subscriber_records_ imsi_to_subscriber_id_
       tmsi_to_subscriber_id_ imeisv_to_subscriber_id_
       enb_ue_s1ap_id_to_subscriber_id_ mme_ue_s1ap_id_to_subscriber_id_
       teid_to_subscriber_id_ with_records with_next with_imsi_index
       with_tmsi_index with_imeisv_index with_enb_index with_mme_index
       with_teid_index] in E.

Ltac state_parts H :=
  state_part next_subscriber_id_ H;
  state_part imsi_to_subscriber_id_ H;
  state_part tmsi_to_subscriber_id_ H;
  state_part imeisv_to_subscriber_id_ H;
  state_part enb_ue_s1ap_id_to_subscriber_id_ H;
  state_part mme_ue_s1ap_id_to_subscriber_id_ H;
  state_part teid_to_subscriber_id_ H.

Lemma index_ok_old_or_new {K} `{Countable K} (idx idx' : gmap K N) next id :
  (forall w i, idx' !! w = Some i -> i = id \/ idx !! w = Some i) ->
  index_ok idx next -> 1 <= id < next ->
  index_ok idx' next.
Proof. intros Hstep Hok Hid w i Hw. destruct (Hstep w i Hw) as [->|?]; eauto. Qed.

Lemma index_ok_old {K} `{Countable K} (idx idx' : gmap K N) next :
  (forall w i, idx' !! w = Some i -> idx !! w = Some i) ->
  index_ok idx next ->
  index_ok idx' next.
Proof. intros Hstep Hok w i Hw. eauto. Qed.

Ltac wf_by Hrec Hstate Hidx :=
  match goal with
  | Hwf : ids_wf _ |- _ =>
      let Hs := fresh in
      pose proof Hstate as Hs; state_parts Hs; destruct Hwf;
      constructor;
      repeat match goal with
             | E : ?f _ = ?f _ |- _ => rewrite E; clear E
             end;
      try assumption;
      [ intros k; erewrite frame_is_Some by apply Hrec; auto
      | first [ eapply index_ok_old_or_new;
                [intros w i; apply Hidx|eassumption|eassumption]
              | eapply index_ok_old;
                [intros w i; apply Hidx|eassumption] ] ]
  end.

Lemma associateImsi_wf s id v st :
  ids_wf st -> 1 <= id < next_subscriber_id_ st ->
  ids_wf (associateImsi s id v st).
Proof.
  intros Hwf Hid.
  wf_by (associateImsi_records s id v st) (associateImsi_state s id v st)
        (associateImsi_index s id v st).
Qed.

Lemma removeImsi_wf v st : ids_wf st -> ids_wf (removeImsiAssociation v st).
Proof.
  intros Hwf.
  wf_by (removeImsi_records v st) (removeImsi_state v st)
        (removeImsi_index v st).
Qed.

Lemma associateTmsi_wf s id v st :
  ids_wf st -> 1 <= id < next_subscriber_id_ st ->
  ids_wf (associateTmsi s id v st).
Proof.
  intros Hwf Hid.
  wf_by (associateTmsi_records s id v st) (associateTmsi_state s id v st)
        (associateTmsi_index s id v st).
Qed.

Lemma removeTmsi_wf v st : ids_wf st -> ids_wf (removeTmsiAssociation v st).
Proof.
  intros Hwf.
  wf_by (removeTmsi_records v st) (removeTmsi_state v st)
        (removeTmsi_index v st).
Qed.

Lemma associateImeisv_wf s id v st :
  ids_wf st -> 1 <= id < next_subscriber_id_ st ->
  ids_wf (associateImeisv s id v st).
Proof.
  intros Hwf Hid.
  wf_by (associateImeisv_records s id v st) (associateImeisv_state s id v st)
        (associateImeisv_index s id v st).
Qed.

Lemma removeImeisv_wf v st : ids_wf st -> ids_wf (removeImeisvAssociation v st).
Proof.
  intros Hwf.
  wf_by (removeImeisv_records v st) (removeImeisv_state v st)
        (removeImeisv_index v st).
Qed.

Lemma associateEnb_wf s id v st :
  ids_wf st -> 1 <= id < next_subscriber_id_ st ->
  ids_wf (associateEnbUeS1apId s id v st).
Proof.
  intros Hwf Hid.
  wf_by (associateEnb_records s id v st) (associateEnb_state s id v st)
        (associateEnb_index s id v st).
Qed.

Lemma removeEnb_wf v st : ids_wf st -> ids_wf (removeEnbUeS1apIdAssociation v st).
Proof.
  intros Hwf.
  wf_by (removeEnb_records v st) (removeEnb_state v st)
        (removeEnb_index v st).
Qed.

Lemma associateMme_wf s id v st :
  ids_wf st -> 1 <= id < next_subscriber_id_ st ->
  ids_wf (associateMmeUeS1apId s id v st).
Proof.
  intros Hwf Hid.
  wf_by (associateMme_records s id v st) (associateMme_state s id v st)
        (associateMme_index s id v st).
Qed.

Lemma removeMme_wf v st : ids_wf st -> ids_wf (removeMmeUeS1apIdAssociation v st).
Proof.
  intros Hwf.
  wf_by (removeMme_records v st) (removeMme_state v st)
        (removeMme_index v st).
Qed.

Lemma associateTeid_wf s id v st :
  ids_wf st -> 1 <= id < next_subscriber_id_ st ->
  ids_wf (associateTeid s id v st).
Proof.
  intros Hwf Hid.
  wf_by (associateTeid_records s id v st) (associateTeid_state s id v st)
        (associateTeid_index s id v st).
Qed.

Lemma removeTeid_wf v st : ids_wf st -> ids_wf (removeTeidAssociation v st).
Proof.
  intros Hwf.
  wf_by (removeTeid_records v st) (removeTeid_state v st)
        (removeTeid_index v st).
Qed.

Lemma update_timestamps_wf p t st : ids_wf st -> ids_wf (update_timestamps p t st).
Proof.
  intros Hwf. pose proof (update_timestamps_state p t st) as Hs.
  state_parts Hs. destruct Hwf. constructor;
    repeat match goal with
           | E : ?f _ = ?f _ |- _ => rewrite E; clear E
           end; try assumption.
  intros k. erewrite frame_is_Some by apply update_timestamps_records. auto.
Qed.

(** *** The matching cascade returns 0 or the id of a record *)

Definition id_or_zero (next id : N) : Prop := id = 0 \/ 1 <= id < next.

Lemma find_by_ok {K} `{Countable K} (idx : gmap K N) k id next :
  index_ok idx next -> id_or_zero next id -> id_or_zero next (find_by idx k id).
Proof.
  intros Hok Hid. unfold find_by. repeat case_match; auto. right. eauto.
Qed.

Lemma find_by_both_ok st mme enb id :
  ids_wf st -> id_or_zero (next_subscriber_id_ st) id ->
  id_or_zero (next_subscriber_id_ st) (find_by_both st mme enb id).
Proof.
  intros Hwf Hid. unfold find_by_both. repeat case_match; auto.
  right. eapply (wf_mme _ Hwf); eauto.
Qed.

Section Scans.
Variable P : N -> Prop.
Variable l0 : list (N * SubscriberRecord).
Hypothesis P_zero : P 0.
Hypothesis P_keys : forall id r, (id, r) ∈ l0 -> P id.

Lemma scan_s1ap_ids_ok mme enb l c :
  l ⊆ l0 -> P c -> P (scan_s1ap_ids mme enb l c).
Proof.
  revert c. induction l as [|[id r] l IH]; intros c Hl Hc; simpl; [done|].
  assert (l ⊆ l0) by set_solver. assert (P id) by (apply (P_keys id r); set_solver).
  repeat case_match; auto.
Qed.

Lemma scan_stable_ok l c n : l ⊆ l0 -> P c -> P (scan_stable l c n).1.
Proof.
  revert c n. induction l as [|[id r] l IH]; intros c n Hl Hc; simpl; [done|].
  assert (l ⊆ l0) by set_solver. assert (P id) by (apply (P_keys id r); set_solver).
  repeat case_match; auto.
Qed.

Lemma scan_most_recent_ok l c : l ⊆ l0 -> P c -> P (scan_most_recent l c).
Proof.
  revert c. induction l as [|[id r] l IH]; intros c Hl Hc; simpl; [done|].
  assert (l ⊆ l0) by set_solver. assert (P id) by (apply (P_keys id r); set_solver).
  repeat case_match; auto.
Qed.
End Scans.

Lemma fallback_ok st i t v mme enb id :
  ids_wf st -> id_or_zero (next_subscriber_id_ st) id ->
  id_or_zero (next_subscriber_id_ st) (fallback st i t v mme enb id).
Proof.
  intros Hwf Hid. unfold fallback.
  assert (forall k r, (k, r) ∈ map_to_list (subscriber_records_ st) ->
                      id_or_zero (next_subscriber_id_ st) k) as Hkeys.
  { intros k r Hk%elem_of_map_to_list. right. apply (wf_dom _ Hwf). eauto. }
  case_match; [|done]. case_match.
  - eapply scan_s1ap_ids_ok; eauto; by left.
  - destruct (scan_stable _ 0 0) as [c n] eqn:Hscan.
    assert (id_or_zero (next_subscriber_id_ st) c).
    { change c with (c, n).1. rewrite <- Hscan.
      eapply scan_stable_ok; eauto; by left. }
    repeat case_match; auto.
    eapply scan_most_recent_ok; eauto; by left.
Qed.

Lemma lookup_subscriber_ok st i t enb mme teid v :
  ids_wf st ->
  id_or_zero (next_subscriber_id_ st) (lookup_subscriber st i t enb mme teid v).
Proof.
  intros Hwf. unfold lookup_subscriber.
  apply fallback_ok; [done|].
  apply find_by_ok; [apply Hwf|].
  apply find_by_ok; [apply Hwf|].
  apply find_by_ok; [apply Hwf|].
  apply find_by_both_ok; [done|].
  apply find_by_ok; [apply Hwf|].
  apply find_by_ok; [apply Hwf|].
  apply find_by_ok; [apply Hwf|]. by left.
Qed.

(** *** getOrCreateSubscriber and processS1apFrame keep the ids well formed *)

Lemma u64_succ_small n : n < 2 ^ 64 - 1 -> u64_succ n = n + 1.
Proof. intros. unfold u64_succ. apply N.mod_small. lia. Qed.

Lemma create_wf st :
  ids_wf st -> next_subscriber_id_ st < 2 ^ 64 - 1 ->
  ids_wf (with_records
            (<[next_subscriber_id_ st := new_record]> (subscriber_records_ st))
            (with_next (u64_succ (next_subscriber_id_ st)) st)).
Proof.
  intros [] Hlt. rewrite u64_succ_small by done.
  constructor; simpl; try lia;
    try (intros v id Hv;
         match goal with H : index_ok _ _ |- _ => specialize (H v id Hv); lia end).
  intros k. rewrite lookup_insert. case_decide; subst.
  - split; [lia|eauto].
  - rewrite wf_dom0. lia.
Qed.

Lemma record_ref_id id st :
  is_Some (subscriber_records_ st !! id) -> record_ref id st = st.
Proof. intros [r Hr]. unfold record_ref. by rewrite Hr. Qed.

Section Keeps.
Variables (s : option N) (id : N).

(** An association called with the id of a record keeps the store well
    formed and the counter where it is. *)
Definition valid_in (st : S1apUeCorrelator) : Prop :=
  1 <= id < next_subscriber_id_ st.

Definition keeps_valid (f : S1apUeCorrelator -> S1apUeCorrelator) : Prop :=
  forall st, ids_wf st -> valid_in st ->
    ids_wf (f st) /\ next_subscriber_id_ (f st) = next_subscriber_id_ st.

Lemma keeps_valid_compose f g :
  keeps_valid f -> keeps_valid g -> keeps_valid (fun st => g (f st)).
Proof.
  intros Hf Hg st Hwf Hid. destruct (Hf st Hwf Hid) as [Hwf1 E1].
  destruct (Hg _ Hwf1) as [Hwf2 E2]; [unfold valid_in; by rewrite E1|].
  split; [done|congruence].
Qed.

Lemma keeps_valid_when_some {A} (o : option A) f :
  (forall v, keeps_valid (f v)) -> keeps_valid (when_some o f).
Proof. intros Hf. destruct o; simpl; [apply Hf|]. by intros st Hwf _. Qed.

Lemma associateImsi_keeps v : keeps_valid (associateImsi s id v).
Proof.
  intros st Hwf Hid. split; [by apply associateImsi_wf|].
  apply associateImsi_next.
Qed.
Lemma associateTmsi_keeps v : keeps_valid (associateTmsi s id v).
Proof.
  intros st Hwf Hid. split; [by apply associateTmsi_wf|].
  apply associateTmsi_next.
Qed.
Lemma associateImeisv_keeps v : keeps_valid (associateImeisv s id v).
Proof.
  intros st Hwf Hid. split; [by apply associateImeisv_wf|].
  apply associateImeisv_next.
Qed.
Lemma associateEnb_keeps v : keeps_valid (associateEnbUeS1apId s id v).
Proof.
  intros st Hwf Hid. split; [by apply associateEnb_wf|].
  apply associateEnb_next.
Qed.
Lemma associateMme_keeps v : keeps_valid (associateMmeUeS1apId s id v).
Proof.
  intros st Hwf Hid. split; [by apply associateMme_wf|].
  apply associateMme_next.
Qed.
Lemma associateTeid_keeps v : keeps_valid (associateTeid s id v).
Proof.
  intros st Hwf Hid. split; [by apply associateTeid_wf|].
  apply associateTeid_next.
Qed.

Lemma associateTeids_keeps l :
  keeps_valid (fun st => foldl (fun st teid => associateTeid s id teid st) st l).
Proof.
  induction l as [|t l IH]; simpl; [by intros st Hwf _|].
  apply (keeps_valid_compose (associateTeid s id t) _ (associateTeid_keeps t) IH).
Qed.
End Keeps.

Lemma getOrCreateSubscriber_wf i t enb mme teid v st :
  ids_wf st -> next_subscriber_id_ st < 2 ^ 64 - 1 ->
  let r := getOrCreateSubscriber i t enb mme teid v st in
  ids_wf r.2
  /\ next_subscriber_id_ st <= next_subscriber_id_ r.2
     <= next_subscriber_id_ st + 1
  /\ exists p, r.1 = Some p /\ 1 <= p < next_subscriber_id_ r.2.
Proof.
  intros Hwf Hlt. unfold getOrCreateSubscriber.
  pose proof (lookup_subscriber_ok st i t enb mme teid v Hwf) as Hfound.
  set (found := lookup_subscriber st i t enb mme teid v) in *.
  set (created := with_records _ _).
  assert (exists id st0, (if found =? 0 then (next_subscriber_id_ st, created)
                          else (found, st)) = (id, st0)
           /\ ids_wf st0 /\ 1 <= id < next_subscriber_id_ st0
           /\ next_subscriber_id_ st <= next_subscriber_id_ st0
              <= next_subscriber_id_ st + 1) as (id & st0 & -> & Hwf0 & Hid & Hn).
  { destruct (found =? 0) eqn:E.
    - exists (next_subscriber_id_ st), created. subst created.
      split; [done|]. split; [by apply create_wf|]. simpl.
      rewrite u64_succ_small by done. destruct Hwf. lia.
    - exists found, st. apply N.eqb_neq in E.
      destruct Hfound as [?|?]; [done|].
      split; [done|]. split; [done|]. split; [done|]. lia. }
  rewrite record_ref_id by (by apply (wf_dom _ Hwf0)).
  pose proof (keeps_valid_compose id _ _
    (keeps_valid_compose id _ _
      (keeps_valid_compose id _ _
        (keeps_valid_compose id _ _
          (keeps_valid_compose id _ _
             (keeps_valid_when_some id i _ (associateImsi_keeps (Some id) id))
             (keeps_valid_when_some id t _ (associateTmsi_keeps (Some id) id)))
          (keeps_valid_when_some id enb _ (associateEnb_keeps (Some id) id)))
        (keeps_valid_when_some id mme _ (associateMme_keeps (Some id) id)))
      (keeps_valid_when_some id teid _ (associateTeid_keeps (Some id) id)))
    (keeps_valid_when_some id v _ (associateImeisv_keeps (Some id) id))
    st0 Hwf0 Hid) as [Hwf' Hnext'].
  simpl in *. rewrite Hnext'. split; [done|]. split; [done|].
  exists id. by split.
Qed.

Lemma id_from_ok {K} `{Countable K} (idx : gmap K N) k id next :
  index_ok idx next -> id_or_zero next id -> id_or_zero next (id_from idx k id).
Proof.
  intros Hok Hid. unfold id_from. repeat case_match; auto. right. eauto.
Qed.

Lemma release_wf (b : bool) mme enb st :
  ids_wf st ->
  let st' := if b then when_some enb removeEnbUeS1apIdAssociation
                         (when_some mme removeMmeUeS1apIdAssociation st)
             else st in
  ids_wf st' /\ next_subscriber_id_ st' = next_subscriber_id_ st.
Proof.
  intros Hwf. destruct b; simpl; [|done].
  destruct mme as [m|], enb as [e|]; simpl; split;
    auto using removeEnb_wf, removeMme_wf.
  - by rewrite removeEnb_next, removeMme_next.
  - apply removeMme_next.
  - apply removeEnb_next.
Qed.

Lemma processS1apFrame_wf f ts st :
  ids_wf st -> next_subscriber_id_ st < 2 ^ 64 - 1 ->
  let r := processS1apFrame f ts st in
  ids_wf r.2
  /\ next_subscriber_id_ st <= next_subscriber_id_ r.2
     <= next_subscriber_id_ st + 1.
Proof.
  intros Hwf Hlt. unfold processS1apFrame.
  case_match; [|simpl; split; [done|lia]].
  match goal with
  | |- context [getOrCreateSubscriber ?i ?t ?e ?m ?d ?v st] =>
      pose proof (getOrCreateSubscriber_wf i t e m d v st Hwf Hlt) as Hg;
      destruct (getOrCreateSubscriber i t e m d v st) as [sub st1]
  end.
  simpl in Hg. destruct Hg as (Hwf1 & Hn1 & p & -> & Hp).
  match goal with
  | |- context [negb (?x =? 0)] => set (id := x)
  end.
  assert (id_or_zero (next_subscriber_id_ st1) id) as Hid.
  { subst id.
    apply id_from_ok; [apply Hwf1|]. apply id_from_ok; [apply Hwf1|].
    apply id_from_ok; [apply Hwf1|]. apply id_from_ok; [apply Hwf1|].
    apply id_from_ok; [apply Hwf1|]. by left. }
  match goal with
  | |- context [update_timestamps p ts ?x] => set (st2 := x)
  end.
  assert (ids_wf st2 /\ next_subscriber_id_ st2 = next_subscriber_id_ st1)
    as [Hwf2 Hn2].
  { subst st2. destruct (id =? 0) eqn:E; simpl; [done|].
    apply N.eqb_neq in E. destruct Hid as [?|Hid]; [done|].
    exact (keeps_valid_compose id _ _
             (keeps_valid_compose id _ _
                (keeps_valid_when_some id _ _ (associateMme_keeps (Some p) id))
                (keeps_valid_when_some id _ _ (associateEnb_keeps (Some p) id)))
             (associateTeids_keeps (Some p) id _) st1 Hwf1 Hid). }
  pose proof (update_timestamps_wf p ts st2 Hwf2) as Hwf3.
  pose proof (update_timestamps_next p ts st2) as Hn3.
  pose proof (release_wf (is_release_complete f) (frame_s1ap_ids f).1
                (frame_s1ap_ids f).2 _ Hwf3) as [Hwf4 Hn4].
  split; [exact Hwf4|]. cbn [snd]. rewrite Hn4, Hn3, Hn2. exact Hn1.
Qed.

(** *** Any sequence of store operations *)

(** The public operations of the store.  An association is called with a
    pointer to a record and that record's id. *)
Inductive Op :=
| GetOrCreateSubscriber (imsi_ tmsi_ : option string) (enb mme teid : option N)
    (imeisv_ : option string)
| AssociateImsi (p : N) (v : string)
| AssociateTmsi (p : N) (v : string)
| AssociateEnbUeS1apId (p : N) (v : N)
| AssociateMmeUeS1apId (p : N) (v : N)
| AssociateTeid (p : N) (v : N)
| AssociateImeisv (p : N) (v : string)
| RemoveImsiAssociation (v : string)
| RemoveTmsiAssociation (v : string)
| RemoveEnbUeS1apIdAssociation (v : N)
| RemoveMmeUeS1apIdAssociation (v : N)
| RemoveTeidAssociation (v : N)
| RemoveImeisvAssociation (v : string)
| ProcessS1apFrame (f : Frame) (timestamp : Z).

Definition run (op : Op) (st : S1apUeCorrelator) : S1apUeCorrelator :=
  match op with
  | GetOrCreateSubscriber i t e m d v => (getOrCreateSubscriber i t e m d v st).2
  | AssociateImsi p v => associateImsi (Some p) p v st
  | AssociateTmsi p v => associateTmsi (Some p) p v st
  | AssociateEnbUeS1apId p v => associateEnbUeS1apId (Some p) p v st
  | AssociateMmeUeS1apId p v => associateMmeUeS1apId (Some p) p v st
  | AssociateTeid p v => associateTeid (Some p) p v st
  | AssociateImeisv p v => associateImeisv (Some p) p v st
  | RemoveImsiAssociation v => removeImsiAssociation v st
  | RemoveTmsiAssociation v => removeTmsiAssociation v st
  | RemoveEnbUeS1apIdAssociation v => removeEnbUeS1apIdAssociation v st
  | RemoveMmeUeS1apIdAssociation v => removeMmeUeS1apIdAssociation v st
  | RemoveTeidAssociation v => removeTeidAssociation v st
  | RemoveImeisvAssociation v => removeImeisvAssociation v st
  | ProcessS1apFrame f ts => (processS1apFrame f ts st).2
  end.

(** The record an association is called on exists. *)
Definition op_ok (st : S1apUeCorrelator) (op : Op) : Prop :=
  match op with
  | AssociateImsi p _ | AssociateTmsi p _ | AssociateEnbUeS1apId p _
  | AssociateMmeUeS1apId p _ | AssociateTeid p _ | AssociateImeisv p _ =>
      is_Some (subscriber_records_ st !! p)
  | _ => True
  end.

Fixpoint run_all (ops : list Op) (st : S1apUeCorrelator) : S1apUeCorrelator :=
  match ops with
  | [] => st
  | op :: ops' => run_all ops' (run op st)
  end.

Fixpoint ops_ok (st : S1apUeCorrelator) (ops : list Op) : Prop :=
  match ops with
  | [] => True
  | op :: ops' => op_ok st op /\ ops_ok (run op st) ops'
  end.

Lemma run_wf op st :
  ids_wf st -> next_subscriber_id_ st < 2 ^ 64 - 1 -> op_ok st op ->
  ids_wf (run op st)
  /\ next_subscriber_id_ st <= next_subscriber_id_ (run op st)
     <= next_subscriber_id_ st + 1.
Proof.
  intros Hwf Hlt Hok.
  destruct op; unfold run, op_ok in *;
    try (apply (wf_dom _ Hwf) in Hok);
    try (split; [solve [auto using associateImsi_wf, associateTmsi_wf,
                   associateEnb_wf, associateMme_wf, associateTeid_wf,
                   associateImeisv_wf, removeImsi_wf, removeTmsi_wf,
                   removeEnb_wf, removeMme_wf, removeTeid_wf, removeImeisv_wf]|]).
  - destruct (getOrCreateSubscriber_wf imsi_ tmsi_ enb mme teid imeisv_ st Hwf Hlt)
      as (? & ? & _). done.
  - rewrite associateImsi_next. lia.
  - rewrite associateTmsi_next. lia.
  - rewrite associateEnb_next. lia.
  - rewrite associateMme_next. lia.
  - rewrite associateTeid_next. lia.
  - rewrite associateImeisv_next. lia.
  - rewrite removeImsi_next. lia.
  - rewrite removeTmsi_next. lia.
  - rewrite removeEnb_next. lia.
  - rewrite removeMme_next. lia.
  - rewrite removeTeid_next. lia.
  - rewrite removeImeisv_next. lia.
  - by apply processS1apFrame_wf.
Qed.

Lemma run_all_wf ops st :
  ids_wf st ->
  next_subscriber_id_ st + N.of_nat (length ops) < 2 ^ 64 ->
  ops_ok st ops ->
  ids_wf (run_all ops st)
  /\ next_subscriber_id_ st <= next_subscriber_id_ (run_all ops st)
     <= next_subscriber_id_ st + N.of_nat (length ops).
Proof.
  revert st. induction ops as [|op ops IH]; intros st Hwf Hlt Hok; simpl in *.
  - split; [done|lia].
  - destruct Hok as [Hop Hops].
    destruct (run_wf op st Hwf) as [Hwf1 Hn1]; [lia|done|].
    destruct (IH (run op st) Hwf1) as [Hwf2 Hn2]; [lia|done|].
    split; [done|lia].
Qed.

Lemma run_all_app ops1 ops2 st :
  run_all (ops1 ++ ops2) st = run_all ops2 (run_all ops1 st).
Proof. revert st. induction ops1; intros; simpl; auto. Qed.




Definition attach_frame : Frame :=
  mkFrame 12 INITIATING_MESSAGE [] ["001010123456789"%string] [] [] []
    (Some 77, Some 5).





(** *** Index-field consistency *)

(** Every identifier a record holds is indexed to that record. *)
Definition record_consistent (st : S1apUeCorrelator) (id : N)
    (r : SubscriberRecord) : Prop :=
  (forall x, imsi r = Some x -> imsi_to_subscriber_id_ st !! x = Some id)
  /\ (forall x, tmsi r = Some x -> tmsi_to_subscriber_id_ st !! x = Some id)
  /\ (forall x, imeisv r = Some x -> imeisv_to_subscriber_id_ st !! x = Some id)
  /\ (forall x, mme_ue_s1ap_id r = Some x ->
                mme_ue_s1ap_id_to_subscriber_id_ st !! x = Some id)
  /\ (forall x, enb_ue_s1ap_id r = Some x ->
                enb_ue_s1ap_id_to_subscriber_id_ st !! x = Some id)
  /\ (forall x, x ∈ teids r -> teid_to_subscriber_id_ st !! x = Some id).

Definition index_consistent (st : S1apUeCorrelator) : Prop :=
  forall id r, subscriber_records_ st !! id = Some r -> record_consistent st id r.

(** Three frames: one carrying only an IMSI, one carrying only a TMSI, one
    carrying that IMSI together with that TMSI. *)
Definition imsi_only : Frame :=
  mkFrame 12 INITIATING_MESSAGE [] ["001010123456789"%string] [] [] []
    (None, None).
Definition tmsi_only : Frame :=
  mkFrame 12 INITIATING_MESSAGE [] [] ["deadbeef"%string] [] [] (None, None).
Definition imsi_and_tmsi : Frame :=
  mkFrame 13 INITIATING_MESSAGE [] ["001010123456789"%string]
    ["deadbeef"%string] [] [] (None, None).

Definition two_subscribers : S1apUeCorrelator :=
  run_all [ProcessS1apFrame imsi_only 1%Z; ProcessS1apFrame tmsi_only 2%Z] init.

(** C3.  Index-field consistency is not preserved by the store: in the
    store reached by a frame with an IMSI and a frame with a TMSI the
    invariant holds; processing a frame that carries both then repoints the
    TMSI index to record 1 ([associateTmsi] has no conflict branch) while
    record 2 keeps the TMSI in its field. *)
Theorem tmsi_reassignment_leaves_stale_field :
  index_consistent two_subscribers
  /\ let st := (processS1apFrame imsi_and_tmsi 3%Z two_subscribers).2 in
     tmsi <$> subscriber_records_ st !! 2 = Some (Some "deadbeef"%string)
     /\ tmsi_to_subscriber_id_ st !! "deadbeef"%string = Some 1
     /\ ~ index_consistent st.
Proof.
  split.
  - intros id r Hr. apply elem_of_map_to_list in Hr.
    vm_compute in Hr.
    repeat (apply elem_of_cons in Hr as [Hr|Hr]); try by apply elem_of_nil in Hr.
    all: inversion Hr; subst; clear Hr.
    all: repeat split; intros x Hx; try discriminate Hx;
      try (by apply elem_of_empty in Hx).
    all: inversion Hx; subst; by vm_compute.
  - assert (tmsi <$> subscriber_records_
              (processS1apFrame imsi_and_tmsi 3%Z two_subscribers).2 !! 2
            = Some (Some "deadbeef"%string)) as H2 by (by vm_compute).
    assert (tmsi_to_subscriber_id_
              (processS1apFrame imsi_and_tmsi 3%Z two_subscribers).2
              !! "deadbeef"%string = Some 1) as H1 by (by vm_compute).
    split; [done|]. split; [done|].
    intros Hc.
    destruct (subscriber_records_
                (processS1apFrame imsi_and_tmsi 3%Z two_subscribers).2 !! 2)
      as [r|] eqn:Hr; [|discriminate H2].
    destruct (Hc 2 r Hr) as (_ & Ht & _).
    simpl in H2. injection H2 as H2. rewrite (Ht _ H2) in H1. discriminate H1.
Qed.

(** *** What an association and a removal establish *)

Lemma through {A} (fld : SubscriberRecord -> A)
    (drop : SubscriberRecord -> SubscriberRecord) st' st k :
  (forall r, fld (drop r) = fld r) ->
  (forall k, drop <$> subscriber_records_ st' !! k
             = drop <$> subscriber_records_ st !! k) ->
  fld <$> subscriber_records_ st' !! k = fld <$> subscriber_records_ st !! k.
Proof. intros Hf Hrec. by apply (frame_field fld drop). Qed.

Lemma is_Some_alter (f : SubscriberRecord -> SubscriberRecord) p
    (m : gmap N SubscriberRecord) k :
  is_Some (alter f p m !! k) <-> is_Some (m !! k).
Proof.
  rewrite lookup_alter. case_decide; subst; [|done]. by rewrite fmap_is_Some.
Qed.

Ltac effect :=
  intros; unfold_ops; repeat case_match; simpl;
  rewrite ?lookup_insert_eq, ?lookup_delete_eq, ?lookup_alter_eq;
  repeat match goal with
         | H : is_Some (?m !! ?p) |- context [alter ?f ?q ?m !! ?p] =>
             lazymatch goal with
             | _ : is_Some (alter f q m !! p) |- _ => fail
             | _ => pose proof (proj2 (is_Some_alter f q m p) H)
             end
         end;
  repeat match goal with
         | H : is_Some ?o |- context [?o] => destruct H as [? ->]
         end;
  simpl; try done.

Section Effects.
Variables (p id : N) (st : S1apUeCorrelator).
Hypothesis Hp : is_Some (subscriber_records_ st !! p).

Lemma associateImsi_effect v :
  id <> 0 ->
  imsi_to_subscriber_id_ (associateImsi (Some p) id v st) !! v = Some id
  /\ imsi <$> subscriber_records_ (associateImsi (Some p) id v st) !! p
     = Some (Some v).
Proof. intros ?%N.eqb_neq. split; effect; congruence. Qed.

Lemma associateMme_effect v :
  mme_ue_s1ap_id_to_subscriber_id_ (associateMmeUeS1apId (Some p) id v st) !! v
  = Some id
  /\ mme_ue_s1ap_id
       <$> subscriber_records_ (associateMmeUeS1apId (Some p) id v st) !! p
     = Some (Some v).
Proof. split; effect. Qed.

Lemma associateEnb_effect v :
  enb_ue_s1ap_id_to_subscriber_id_ (associateEnbUeS1apId (Some p) id v st) !! v
  = Some id
  /\ enb_ue_s1ap_id
       <$> subscriber_records_ (associateEnbUeS1apId (Some p) id v st) !! p
     = Some (Some v).
Proof. split; effect. Qed.
End Effects.



Arguments associateImsi : simpl never.
Arguments associateTmsi : simpl never.
Arguments associateImeisv : simpl never.
Arguments associateEnbUeS1apId : simpl never.
Arguments associateMmeUeS1apId : simpl never.
Arguments associateTeid : simpl never.
Arguments removeEnbUeS1apIdAssociation : simpl never.
Arguments removeMmeUeS1apIdAssociation : simpl never.
Arguments update_timestamps : simpl never.

Lemma id_from_none {K} `{Countable K} (idx : gmap K N) id :
  id_from idx None id = id.
Proof. unfold id_from. by case_match. Qed.

Lemma id_from_found {K} `{Countable K} (idx : gmap K N) k id :
  id <> 0 -> id_from idx k id = id.
Proof. intros Hid%N.eqb_neq. unfold id_from. by rewrite Hid. Qed.

Lemma id_from_hit {K} `{Countable K} (idx : gmap K N) v id :
  idx !! v = Some id -> id <> 0 -> id_from idx (Some v) 0 = id.
Proof. intros Hv Hid%N.eqb_neq. unfold id_from. simpl. by rewrite Hv, Hid. Qed.

(** The loop over the TEIDs of a frame. *)
Definition associateTeids (s : option N) (id : N) (l : list N)
    (st : S1apUeCorrelator) : S1apUeCorrelator :=
  foldl (fun st teid => associateTeid s id teid st) st l.

Lemma associateTeids_records s id l st k :
  drop_teids <$> subscriber_records_ (associateTeids s id l st) !! k
  = drop_teids <$> subscriber_records_ st !! k.
Proof.
  revert st. induction l as [|t l IH]; intros st; simpl; [done|].
  unfold associateTeids in *. simpl. rewrite IH. apply associateTeid_records.
Qed.

Lemma associateTeids_state s id l st :
  with_teid_index ∅ (with_records ∅ (associateTeids s id l st))
  = with_teid_index ∅ (with_records ∅ st).
Proof.
  revert st. induction l as [|t l IH]; intros st; simpl; [done|].
  unfold associateTeids in *. simpl. rewrite IH. apply associateTeid_state.
Qed.


Lemma find_by_none {K} `{Countable K} (idx : gmap K N) id :
  find_by idx None id = id.
Proof. unfold find_by. by case_match. Qed.

Lemma find_by_found {K} `{Countable K} (idx : gmap K N) k id :
  id <> 0 -> find_by idx k id = id.
Proof. intros Hid%N.eqb_neq. unfold find_by. by rewrite Hid. Qed.

Lemma find_by_both_found st mme enb id :
  id <> 0 -> find_by_both st mme enb id = id.
Proof. intros Hid%N.eqb_neq. unfold find_by_both. by rewrite Hid. Qed.

Lemma fallback_found st i t v mme enb id :
  id <> 0 -> fallback st i t v mme enb id = id.
Proof. intros Hid%N.eqb_neq. unfold fallback. by rewrite Hid. Qed.









(** *** Identity merge *)

(** [f] changes neither the index [idx] nor the field [fld] of any record. *)
Definition preserves {K A} `{Countable K} (idx : S1apUeCorrelator -> gmap K N)
    (fld : SubscriberRecord -> A)
    (f : S1apUeCorrelator -> S1apUeCorrelator) : Prop :=
  forall st,
    idx (f st) = idx st
    /\ forall k, fld <$> subscriber_records_ (f st) !! k
                 = fld <$> subscriber_records_ st !! k.

Section Preserves.
Context {K A : Type} `{Countable K}.
Variable idx : S1apUeCorrelator -> gmap K N.
Variable fld : SubscriberRecord -> A.

Lemma preserves_compose f g :
  preserves idx fld f -> preserves idx fld g ->
  preserves idx fld (fun st => g (f st)).
Proof.
  intros Hf Hg st. destruct (Hf st) as [E1 F1], (Hg (f st)) as [E2 F2].
  split; [congruence|]. intros k. by rewrite F2, F1.
Qed.

Lemma preserves_when_some {B} (o : option B) f :
  (forall v, preserves idx fld (f v)) -> preserves idx fld (when_some o f).
Proof. intros Hf. destruct o; simpl; [apply Hf|]. by intros st. Qed.
End Preserves.

Section PreservesOps.
Variables (s : option N) (id : N).

Lemma associateTmsi_imsi v :
  preserves imsi_to_subscriber_id_ imsi (associateTmsi s id v).
Proof.
  intros st. split; [exact (f_equal imsi_to_subscriber_id_
                              (associateTmsi_state s id v st))|].
  intros k. apply (through imsi drop_tmsi); [done|apply associateTmsi_records].
Qed.

Lemma associateImeisv_imsi v :
  preserves imsi_to_subscriber_id_ imsi (associateImeisv s id v).
Proof.
  intros st. split; [exact (f_equal imsi_to_subscriber_id_
                              (associateImeisv_state s id v st))|].
  intros k. apply (through imsi drop_imeisv); [done|apply associateImeisv_records].
Qed.

Lemma associateEnb_imsi v :
  preserves imsi_to_subscriber_id_ imsi (associateEnbUeS1apId s id v).
Proof.
  intros st. split; [exact (f_equal imsi_to_subscriber_id_
                              (associateEnb_state s id v st))|].
  intros k. apply (through imsi drop_enb); [done|apply associateEnb_records].
Qed.

Lemma associateMme_imsi v :
  preserves imsi_to_subscriber_id_ imsi (associateMmeUeS1apId s id v).
Proof.
  intros st. split; [exact (f_equal imsi_to_subscriber_id_
                              (associateMme_state s id v st))|].
  intros k. apply (through imsi drop_mme); [done|apply associateMme_records].
Qed.

Lemma associateTeids_imsi l :
  preserves imsi_to_subscriber_id_ imsi (associateTeids s id l).
Proof.
  intros st. split; [exact (f_equal imsi_to_subscriber_id_
                              (associateTeids_state s id l st))|].
  intros k. apply (through imsi drop_teids); [done|apply associateTeids_records].
Qed.

Lemma associateEnb_mme v :
  preserves mme_ue_s1ap_id_to_subscriber_id_ mme_ue_s1ap_id
    (associateEnbUeS1apId s id v).
Proof.
  intros st. split; [exact (f_equal mme_ue_s1ap_id_to_subscriber_id_
                              (associateEnb_state s id v st))|].
  intros k. apply (through mme_ue_s1ap_id drop_enb);
    [done|apply associateEnb_records].
Qed.

Lemma associateTeids_mme l :
  preserves mme_ue_s1ap_id_to_subscriber_id_ mme_ue_s1ap_id
    (associateTeids s id l).
Proof.
  intros st. split; [exact (f_equal mme_ue_s1ap_id_to_subscriber_id_
                              (associateTeids_state s id l st))|].
  intros k. apply (through mme_ue_s1ap_id drop_teids);
    [done|apply associateTeids_records].
Qed.
End PreservesOps.

Lemma update_timestamps_imsi p t :
  preserves imsi_to_subscriber_id_ imsi (update_timestamps p t).
Proof.
  intros st. split; [exact (f_equal imsi_to_subscriber_id_
                              (update_timestamps_state p t st))|].
  intros k. apply (through imsi drop_ts); [done|apply update_timestamps_records].
Qed.

Lemma update_timestamps_mme p t :
  preserves mme_ue_s1ap_id_to_subscriber_id_ mme_ue_s1ap_id
    (update_timestamps p t).
Proof.
  intros st. split; [exact (f_equal mme_ue_s1ap_id_to_subscriber_id_
                              (update_timestamps_state p t st))|].
  intros k. apply (through mme_ue_s1ap_id drop_ts);
    [done|apply update_timestamps_records].
Qed.

(** Record [id] holds IMSI [x] and MME-UE-S1AP-ID [y], and the MME index
    has [y] for it. *)
Definition merged (st : S1apUeCorrelator) (id : N) (x : string) (y : N) : Prop :=
  imsi <$> subscriber_records_ st !! id = Some (Some x)
  /\ mme_ue_s1ap_id <$> subscriber_records_ st !! id = Some (Some y)
  /\ mme_ue_s1ap_id_to_subscriber_id_ st !! y = Some id.

(** What [processS1apFrame] does after [getOrCreateSubscriber] returned
    record [id], for a frame with MME-UE-S1AP-ID [y] that is not a release. *)
Definition after_lookup (id y : N) (enb : option N) (l : list N) (ts : Z)
    (st : S1apUeCorrelator) : S1apUeCorrelator :=
  update_timestamps id ts
    (associateTeids (Some id) id l
       (when_some enb (associateEnbUeS1apId (Some id) id)
          (associateMmeUeS1apId (Some id) id y st))).

Lemma after_lookup_merged id x y enb l ts st :
  imsi <$> subscriber_records_ st !! id = Some (Some x) ->
  merged (after_lookup id y enb l ts st) id x y.
Proof.
  intros Hx. unfold after_lookup.
  assert (is_Some (subscriber_records_ st !! id)) as Hid.
  { destruct (subscriber_records_ st !! id); [eauto|discriminate Hx]. }
  destruct (associateMme_effect id id st Hid y) as [Hidx Hfld].
  destruct (associateMme_imsi (Some id) id y st) as [_ Himsi].
  set (a := associateMmeUeS1apId (Some id) id y st) in *.
  pose proof (preserves_compose _ _ _ _
                (preserves_compose _ _ _ _
                   (preserves_when_some _ _ enb _
                      (associateEnb_imsi (Some id) id))
                   (associateTeids_imsi (Some id) id l))
                (update_timestamps_imsi id ts) a) as [_ Hi].
  pose proof (preserves_compose _ _ _ _
                (preserves_compose _ _ _ _
                   (preserves_when_some _ _ enb _
                      (associateEnb_mme (Some id) id))
                   (associateTeids_mme (Some id) id l))
                (update_timestamps_mme id ts) a) as [Hm Hf].
  cbv beta in Hi, Hm, Hf.
  split; [|split].
  - by rewrite Hi, Himsi.
  - by rewrite Hf.
  - by rewrite Hm.
Qed.

Lemma record_ref_is_Some id st :
  is_Some (subscriber_records_ (record_ref id st) !! id).
Proof.
  unfold record_ref. destruct (subscriber_records_ st !! id) eqn:E; simpl.
  - rewrite E. eauto.
  - rewrite lookup_insert_eq. eauto.
Qed.

(** [getOrCreateSubscriber] called with an IMSI returns a record holding
    that IMSI, which the IMSI index then has for it. *)
Lemma getOrCreateSubscriber_imsi x t enb mme v st :
  next_subscriber_id_ st <> 0 ->
  let r := getOrCreateSubscriber (Some x) t enb mme None v st in
  exists id, r.1 = Some id /\ id <> 0
    /\ imsi_to_subscriber_id_ r.2 !! x = Some id
    /\ imsi <$> subscriber_records_ r.2 !! id = Some (Some x).
Proof.
  intros Hnext. unfold getOrCreateSubscriber.
  set (found := lookup_subscriber _ _ _ _ _ _ _).
  set (created := with_records _ _).
  assert (exists id st0, (if found =? 0 then (next_subscriber_id_ st, created)
                          else (found, st)) = (id, st0) /\ id <> 0)
    as (id & st0 & -> & Hid).
  { destruct (found =? 0) eqn:E; [by eauto|].
    apply N.eqb_neq in E. eauto. }
  pose proof (record_ref_is_Some id st0) as Hsome.
  set (a0 := record_ref id st0) in *.
  cbn [when_some].
  destruct (associateImsi_effect id id a0 Hsome x Hid) as [Hidx Hfld].
  set (a1 := associateImsi (Some id) id x a0) in *.
  pose proof (preserves_compose _ _ _ _
                (preserves_compose _ _ _ _
                   (preserves_compose _ _ _ _
                      (preserves_when_some _ _ t _
                         (associateTmsi_imsi (Some id) id))
                      (preserves_when_some _ _ enb _
                         (associateEnb_imsi (Some id) id)))
                   (preserves_when_some _ _ mme _
                      (associateMme_imsi (Some id) id)))
                (preserves_when_some _ _ v _
                   (associateImeisv_imsi (Some id) id)) a1) as [Hi Hf].
  cbv beta in Hi, Hf.
  exists id. cbn [fst snd]. split; [done|]. split; [done|].
  split; [by rewrite Hi|by rewrite Hf].
Qed.

(** Processing a frame that carries an IMSI and an MME-UE-S1AP-ID and is
    not a release. *)
Lemma process_imsi_and_mme f ts st x rest y enb :
  next_subscriber_id_ st <> 0 ->
  frame_imsis f = x :: rest -> frame_s1ap_ids f = (Some y, enb) ->
  is_release_complete f = false ->
  let r := processS1apFrame f ts st in
  exists id, r.1 = Some id /\ id <> 0 /\ merged r.2 id (normalizeImsi x) y.
Proof.
  intros Hnext Hi Hids Hrel. unfold processS1apFrame.
  rewrite Hi, Hids, Hrel. cbn [head fmap option_fmap option_map fst snd
    has_value orb].
  destruct (getOrCreateSubscriber_imsi (normalizeImsi x)
              (normalizeTmsi <$> head (frame_tmsis f)) enb (Some y)
              (normalizeImeisv <$> head (frame_imeisvs f)) st Hnext)
    as (id & Hr & Hid & Hidx & Hfld).
  unfold fmap in *.
  destruct (getOrCreateSubscriber _ _ _ _ _ _ st) as [sub b].
  cbn [fst snd] in *. subst sub.
  rewrite (id_from_hit _ (normalizeImsi x) id Hidx Hid).
  rewrite !(id_from_found _ _ id) by done.
  pose proof Hid as ->%N.eqb_neq. cbn [negb when_some].
  exists id. split; [done|]. split; [done|].
  exact (after_lookup_merged id (normalizeImsi x) y enb _ ts b Hfld).
Qed.

(** Processing a frame that carries only the MME-UE-S1AP-ID of a merged
    record: the record is found again and keeps its IMSI; it keeps the
    MME-UE-S1AP-ID unless the frame is a release. *)
Lemma process_mme_only f ts st id x y :
  merged st id x y -> id <> 0 ->
  frame_imsis f = [] -> frame_tmsis f = [] -> frame_imeisvs f = [] ->
  frame_s1ap_ids f = (Some y, None) ->
  let r := processS1apFrame f ts st in
  r.1 = Some id
  /\ imsi <$> subscriber_records_ r.2 !! id = Some (Some x)
  /\ (is_release_complete f = false -> merged r.2 id x y).
Proof.
  intros (Hx & Hy & Hidx) Hid Hi Ht Hv Hids. unfold processS1apFrame.
  rewrite Hi, Ht, Hv, Hids. cbn [head fmap option_fmap option_map fst snd
    has_value orb].
  unfold getOrCreateSubscriber.
  assert (lookup_subscriber st None None None (Some y) None None = id) as ->.
  { unfold lookup_subscriber. rewrite !find_by_none.
    assert (find_by_both st (Some y) None 0 = 0) as -> by done.
    assert (find_by (mme_ue_s1ap_id_to_subscriber_id_ st) (Some y) 0 = id) as ->.
    { unfold find_by. simpl. by rewrite Hidx. }
    by apply fallback_found. }
  pose proof Hid as Hid'%N.eqb_neq. rewrite Hid'.
  assert (is_Some (subscriber_records_ st !! id)) as Hsome.
  { destruct (subscriber_records_ st !! id); [eauto|discriminate Hx]. }
  rewrite record_ref_id by done. cbn [when_some].
  destruct (associateMme_effect id id st Hsome y) as [Hidx1 _].
  destruct (associateMme_imsi (Some id) id y st) as [_ Himsi].
  set (a := associateMmeUeS1apId (Some id) id y st) in *.
  rewrite !id_from_none, (id_from_hit _ y id Hidx1 Hid), Hid'.
  cbn [negb fst snd].
  assert (merged (after_lookup id y None (frame_teids f ++ frame_tmsi_teids f)
                    ts a) id x y) as Hm.
  { apply after_lookup_merged. by rewrite Himsi. }
  unfold after_lookup in Hm. cbn [when_some] in Hm.
  fold (associateTeids (Some id) id (frame_teids f ++ frame_tmsi_teids f)
          (associateMmeUeS1apId (Some id) id y a)).
  set (c := update_timestamps _ _ _) in *.
  split; [done|]. destruct (is_release_complete f).
  - split; [|done].
    rewrite (through imsi drop_mme _ c id (fun r => eq_refl)
               (removeMme_records y c)). apply Hm.
  - split; [apply Hm|done].
Qed.

(** C1 (as amended).  Message M1 carries IMSI [x] and MME-UE-S1AP-ID [y]
    and is not a UEContextReleaseComplete; message M2 carries only
    MME-UE-S1AP-ID [y].  Processing M1 then M2 returns the same subscriber
    record for both, after M2 that record still has the IMSI of M1, and it
    still has MME-UE-S1AP-ID [y] unless M2 is a UEContextReleaseComplete. *)
Theorem identity_merge (st : S1apUeCorrelator) (M1 M2 : Frame) (t1 t2 : Z)
    (x : string) (rest : list string) (y : N) (enb : option N) :
  next_subscriber_id_ st <> 0 ->
  frame_imsis M1 = x :: rest -> frame_s1ap_ids M1 = (Some y, enb) ->
  is_release_complete M1 = false ->
  frame_imsis M2 = [] -> frame_tmsis M2 = [] -> frame_imeisvs M2 = [] ->
  frame_s1ap_ids M2 = (Some y, None) ->
  let r1 := processS1apFrame M1 t1 st in
  let r2 := processS1apFrame M2 t2 r1.2 in
  exists id R,
    r1.1 = Some id /\ r2.1 = Some id
    /\ subscriber_records_ r2.2 !! id = Some R
    /\ imsi R = Some (normalizeImsi x)
    /\ (is_release_complete M2 = false -> mme_ue_s1ap_id R = Some y).
Proof.
  intros Hnext Hi1 Hids1 Hrel1 Hi2 Ht2 Hv2 Hids2 r1 r2.
  destruct (process_imsi_and_mme M1 t1 st x rest y enb Hnext Hi1 Hids1 Hrel1)
    as (id & Hr1 & Hid & Hm1). fold r1 in Hr1, Hm1.
  destruct (process_mme_only M2 t2 r1.2 id (normalizeImsi x) y Hm1 Hid
              Hi2 Ht2 Hv2 Hids2) as (Hr2 & Hx & Hm2). fold r2 in Hr2, Hx, Hm2.
  destruct (subscriber_records_ r2.2 !! id) as [R|] eqn:HR; [|discriminate Hx].
  exists id, R. split; [done|]. split; [done|]. split; [done|].
  split; [by injection Hx|].
  intros Hrel2. destruct (Hm2 Hrel2) as (_ & Hy & _).
  rewrite HR in Hy. by injection Hy.
Qed.

Definition attach_77 : Frame :=
  mkFrame 12 INITIATING_MESSAGE [] ["001010123456789"%string] [] [] []
    (Some 77, None).
Definition uplink_77 : Frame :=
  mkFrame 13 INITIATING_MESSAGE [] [] [] [] [] (Some 77, None).
Definition release_complete_77 : Frame :=
  mkFrame 23 SUCCESSFUL_OUTCOME [] [] [] [] [] (Some 77, None).

Lemma identity_merge_witness :
  let r1 := processS1apFrame attach_77 1%Z init in
  let r2 := processS1apFrame uplink_77 2%Z r1.2 in
  exists id R,
    r1.1 = Some id /\ r2.1 = Some id
    /\ subscriber_records_ r2.2 !! id = Some R
    /\ imsi R = Some (normalizeImsi "001010123456789")
    /\ (is_release_complete uplink_77 = false -> mme_ue_s1ap_id R = Some 77).
Proof.
  apply (identity_merge init attach_77 uplink_77 1%Z 2%Z
           "001010123456789" [] 77 None); by vm_compute.
Defined.

(** C1 as stated fails when M2 is a UEContextReleaseComplete: M1 (IMSI and
    MME-UE-S1AP-ID 77) and M2 (only MME-UE-S1AP-ID 77) get the same record,
    but after M2 that record has no MME-UE-S1AP-ID. *)
Lemma identity_merge_release_counterexample :
  let r1 := processS1apFrame attach_77 1%Z init in
  let r2 := processS1apFrame release_complete_77 2%Z r1.2 in
  frame_imsis attach_77 = ["001010123456789"%string]
  /\ frame_s1ap_ids attach_77 = (Some 77, None)
  /\ frame_imsis release_complete_77 = []
  /\ frame_tmsis release_complete_77 = []
  /\ frame_imeisvs release_complete_77 = []
  /\ frame_s1ap_ids release_complete_77 = (Some 77, None)
  /\ r1.1 = Some 1 /\ r2.1 = Some 1
  /\ ~ (exists R, subscriber_records_ r2.2 !! 1 = Some R
                  /\ imsi R = Some "001010123456789"%string
                  /\ mme_ue_s1ap_id R = Some 77).
Proof.
  repeat split; try by vm_compute.
  intros (R & HR & _ & Hy). vm_compute in HR. injection HR as <-.
  discriminate Hy.
Qed.

End CorrelatorFacts.

(** ** Rule engine (RuleEngine) *)

Module Rules.
Local Open Scope Z_scope.

(** The fields of the [CanonicalMessage] protobuf the rule engine reads.
    Byte fields are strings, as protobuf has them. *)
Record CanonicalMessage := mkMessage {
  msg_type : string;
  spool_partition : Z;
  spool_offset : Z;
  frame_number : Z;
  ecgi : string;
  target_ecgi : string;
  mme_ue_s1ap_id : Z;
  enb_ue_s1ap_id : Z;
  imsi : string;
  tmsi : string
}.

(** The fields of the correlator's [UEContext] that rules can name. *)
Record UEContext := mkContext {
  ctx_source_ecgi : string;
  ctx_ecgi : string;
  ctx_target_ecgi : string;
  ctx_imsi : option string;
  ctx_tmsi : option string
}.

(** An unset protobuf field reads as 0, so [set_frame_number] guarded by
    [!= 0] leaves the field equal to the frame number of the message. *)
Record SpoolOffset := mkSpoolOffset {
  so_partition : Z;
  so_offset : Z;
  so_frame_number : Z
}.

(** [Event]; its confidence is the constant 1.0 and is left out. *)
Record Event := mkEvent {
  ev_name : string;
  ev_ts : Z;
  ev_subscriber_key : string;
  ev_attributes : gmap string string;
  ev_evidence : list SpoolOffset;
  ev_ruleset_id : string;
  ev_ruleset_version : string
}.

Record EventDataExtraction := mkExtraction {
  target_attribute : string;
  source_expression : string
}.

Record SingleMessageRule := mkSingleRule {
  sm_event_name : string;
  msg_type_pattern : string;
  sm_attributes : list (string * string);
  sm_event_data : list EventDataExtraction
}.

(** [time_window] is in milliseconds. *)
Record SequenceRule := mkSequenceRule {
  event_name : string;
  first_msg_type : string;
  second_msg_type : string;
  time_window : Z;
  attributes : list (string * string);
  event_data : list EventDataExtraction
}.

Record Ruleset := mkRuleset {
  id : string;
  version : string;
  single_message_rules : list SingleMessageRule;
  sequence_rules : list SequenceRule
}.

(** [first_seen] is a time point of the system clock, in nanoseconds. *)
Record SequenceState := mkState {
  st_subscriber_key : string;
  st_first_msg_type : string;
  first_message : CanonicalMessage;
  first_seen : Z;
  st_ruleset_id : string;
  st_ruleset_version : string
}.

Record RuleEngine := mkEngine {
  rulesets_ : list Ruleset;
  sequence_states_ : gmap string (list SequenceState)
}.

Definition load_ruleset (r : Ruleset) (e : RuleEngine) : RuleEngine :=
  mkEngine (rulesets_ e ++ [r]) (sequence_states_ e).

(** [std::chrono::duration_cast]: truncation toward zero. *)
Definition to_milliseconds (ns : Z) : Z := Z.quot ns 1000000.
Definition to_seconds (ns : Z) : Z := Z.quot ns 1000000000.

Definition hex_digit (n : N) : ascii :=
  if (n <? 10)%N then ascii_of_N (48 + n) else ascii_of_N (87 + n).

Fixpoint bytes_to_hex_string (bytes : string) : string :=
  match bytes with
  | EmptyString => EmptyString
  | String c rest =>
      let n := N_of_ascii c in
      String (hex_digit (n / 16)) (String (hex_digit (n mod 16))
        (bytes_to_hex_string rest))
  end.

Definition nonempty (s : string) : bool :=
  match s with
  | EmptyString => false
  | _ => true
  end.

Definition is_some {A} (o : option A) : bool :=
  match o with
  | Some _ => true
  | None => false
  end.

Definition spool_offset_of (m : CanonicalMessage) : SpoolOffset :=
  mkSpoolOffset (spool_partition m) (spool_offset m) (frame_number m).

Section Engine.
(** [correlator_->get_context]: the rule engine only reads the contexts. *)
Variable get_context : string -> option UEContext.

Definition message_field (field : string) (m : CanonicalMessage) : string :=
  if String.eqb field "ecgi" && nonempty (ecgi m)
  then bytes_to_hex_string (ecgi m)
  else if String.eqb field "target_ecgi" && nonempty (target_ecgi m)
  then bytes_to_hex_string (target_ecgi m)
  else if String.eqb field "mme_ue_s1ap_id" && negb (mme_ue_s1ap_id m =? 0)
  then pretty (mme_ue_s1ap_id m)
  else if String.eqb field "enb_ue_s1ap_id" && negb (enb_ue_s1ap_id m =? 0)
  then pretty (enb_ue_s1ap_id m)
  else if String.eqb field "imsi" && nonempty (imsi m) then imsi m
  else if String.eqb field "tmsi" && nonempty (tmsi m) then tmsi m
  else if String.eqb field "msg_type" && nonempty (msg_type m) then msg_type m
  else "".

Definition context_field (field : string) (c : UEContext) : string :=
  if String.eqb field "source_ecgi" && nonempty (ctx_source_ecgi c)
  then bytes_to_hex_string (ctx_source_ecgi c)
  else if String.eqb field "ecgi" && nonempty (ctx_ecgi c)
  then bytes_to_hex_string (ctx_ecgi c)
  else if String.eqb field "target_ecgi" && nonempty (ctx_target_ecgi c)
  then bytes_to_hex_string (ctx_target_ecgi c)
  else if String.eqb field "imsi" && is_some (ctx_imsi c)
  then default "" (ctx_imsi c)
  else if String.eqb field "tmsi" && is_some (ctx_tmsi c)
  then default "" (ctx_tmsi c)
  else "".

Definition extract_event_data_value (expression : string)
    (message : CanonicalMessage) (first : option CanonicalMessage)
    (subscriber_key : string) : string :=
  match String.index 0 "." expression with
  | None => ""
  | Some dot_pos =>
      let source := String.substring 0 dot_pos expression in
      let field := String.substring (S dot_pos)
                     (String.length expression - S dot_pos) expression in
      if String.eqb source "message" then message_field field message
      else if String.eqb source "first_message" && is_some first
      then match first with
           | Some first_message => message_field field first_message
           | None => ""
           end
      else if String.eqb source "context"
      then match get_context subscriber_key with
           | Some c => context_field field c
           | None => ""
           end
      else ""
  end.

Definition with_attributes (a : gmap string string) (e : Event) : Event :=
  mkEvent (ev_name e) (ev_ts e) (ev_subscriber_key e) a (ev_evidence e)
    (ev_ruleset_id e) (ev_ruleset_version e).

Definition add_evidence (o : SpoolOffset) (e : Event) : Event :=
  mkEvent (ev_name e) (ev_ts e) (ev_subscriber_key e) (ev_attributes e)
    (ev_evidence e ++ [o]) (ev_ruleset_id e) (ev_ruleset_version e).

(** [create_event]; [now] is the reading of the system clock. *)
Definition create_event (now : Z) (name : string) (message : CanonicalMessage)
    (attrs : list (string * string)) (ruleset_id ruleset_version : string)
    (subscriber_key : string) : Event :=
  let a := foldl (fun m kv => <[kv.1 := kv.2]> m) ∅ attrs in
  let a := <["msg_type"%string := msg_type message]> a in
  let a := if nonempty (ecgi message)
           then <["ecgi"%string := bytes_to_hex_string (ecgi message)]> a
           else a in
  mkEvent name now subscriber_key a [spool_offset_of message]
    ruleset_id ruleset_version.

(** The loop over [rule.event_data]. *)
Definition extract_all (data : list EventDataExtraction)
    (message : CanonicalMessage) (first : option CanonicalMessage)
    (subscriber_key : string) (e : Event) : Event :=
  foldl (fun e x =>
           let value := extract_event_data_value (source_expression x)
                          message first subscriber_key in
           if nonempty value
           then with_attributes
                  (<[target_attribute x := value]> (ev_attributes e)) e
           else e) e data.

Definition check_single_message_rules (now : Z) (message : CanonicalMessage)
    (ruleset : Ruleset) (subscriber_key : string) : list Event :=
  foldl (fun events rule =>
           if String.eqb (msg_type message) (msg_type_pattern rule)
           then events ++
                  [extract_all (sm_event_data rule) message None subscriber_key
                     (create_event now (sm_event_name rule) message
                        (sm_attributes rule) (id ruleset) (version ruleset)
                        subscriber_key)]
           else events)
        [] (single_message_rules ruleset).

(** [cleanup_expired_sequences]: states older than 60 whole seconds go,
    and so does a subscriber left without states. *)
Definition max_sequence_age : Z := 60.

Definition expired (now : Z) (s : SequenceState) : bool :=
  max_sequence_age <? to_seconds (now - first_seen s).

Definition cleanup_expired_sequences (now : Z) (e : RuleEngine) : RuleEngine :=
  mkEngine (rulesets_ e)
    (omap (fun sequences =>
             match List.filter (fun s => negb (expired now s)) sequences with
             | [] => None
             | l => Some l
             end) (sequence_states_ e)).

(** The event of a completed sequence. *)
Definition sequence_event (now : Z) (rule : SequenceRule)
    (message : CanonicalMessage) (ruleset : Ruleset) (subscriber_key : string)
    (s : SequenceState) : Event :=
  let event := create_event now (event_name rule) message (attributes rule)
                 (id ruleset) (version ruleset) subscriber_key in
  let event := extract_all (event_data rule) message (Some (first_message s))
                 subscriber_key event in
  let event := add_evidence (spool_offset_of (first_message s)) event in
  add_evidence (spool_offset_of message) event.

(** The [while] loop over the subscriber's states for a message of the
    second type: a state that started with the rule's first type and is
    within the window gives an event and is erased. *)
Fixpoint match_sequences (now : Z) (rule : SequenceRule)
    (message : CanonicalMessage) (ruleset : Ruleset) (subscriber_key : string)
    (sequences : list SequenceState) : list Event * list SequenceState :=
  match sequences with
  | [] => ([], [])
  | s :: rest =>
      let '(events, kept) :=
        match_sequences now rule message ruleset subscriber_key rest in
      if String.eqb (st_first_msg_type s) (first_msg_type rule)
      then if to_milliseconds (now - first_seen s) <=? time_window rule
           then (sequence_event now rule message ruleset subscriber_key s
                   :: events, kept)
           else (events, s :: kept)
      else (events, s :: kept)
  end.

(** One turn of the loop over [ruleset.sequence_rules]. *)
Definition check_sequence_rule (now : Z) (message : CanonicalMessage)
    (ruleset : Ruleset) (subscriber_key : string)
    (acc : list Event * list SequenceState) (rule : SequenceRule)
    : list Event * list SequenceState :=
  let '(events, sequences) := acc in
  if String.eqb (msg_type message) (first_msg_type rule)
  then (events,
        sequences ++ [mkState subscriber_key (first_msg_type rule) message
                        now (id ruleset) (version ruleset)])
  else if String.eqb (msg_type message) (second_msg_type rule)
  then let '(new_events, kept) :=
         match_sequences now rule message ruleset subscriber_key sequences in
       (events ++ new_events, kept)
  else (events, sequences).

Definition check_sequence_rules (now : Z) (message : CanonicalMessage)
    (ruleset : Ruleset) (subscriber_key : string) (e : RuleEngine)
    : list Event * RuleEngine :=
  let e := cleanup_expired_sequences now e in
  let sequences := default [] (sequence_states_ e !! subscriber_key) in
  let '(events, sequences) :=
    foldl (check_sequence_rule now message ruleset subscriber_key)
      ([], sequences) (sequence_rules ruleset) in
  (events,
   mkEngine (rulesets_ e) (<[subscriber_key := sequences]> (sequence_states_ e))).

(** [process]: [subscriber_key] is what the correlator returned for the
    message. *)
Definition process (now : Z) (subscriber_key : string)
    (message : CanonicalMessage) (e : RuleEngine) : list Event * RuleEngine :=
  foldl (fun '(events, e) ruleset =>
           let single_events :=
             check_single_message_rules now message ruleset subscriber_key in
           let '(seq_events, e) :=
             check_sequence_rules now message ruleset subscriber_key e in
           (events ++ single_events ++ seq_events, e))
        ([], e) (rulesets_ e).
End Engine.

End Rules.

(** ** Sequence rules within the window *)

Module RulesFacts.
Import Rules.
Local Open Scope Z_scope.

Section Sequence.
Variable get_context : string -> option UEContext.




Lemma cleanup_lookup now e key :
  default [] (sequence_states_ (cleanup_expired_sequences now e) !! key)
  = List.filter (fun s => negb (expired now s))
      (default [] (sequence_states_ e !! key)).
Proof.
  unfold cleanup_expired_sequences. simpl. rewrite lookup_omap.
  destruct (sequence_states_ e !! key) as [l|]; simpl; [|done].
  by destruct (List.filter _ l).
Qed.


Variables (rule : SequenceRule) (ruleset : Ruleset).
Variables (key : string) (A_msg B_msg : CanonicalMessage) (tA tB : Z).
Variable e : RuleEngine.

Hypothesis only_rule : sequence_rules ruleset = [rule].
Hypothesis A_is_first : msg_type A_msg = first_msg_type rule.
Hypothesis B_is_second : msg_type B_msg = second_msg_type rule.
Hypothesis distinct : first_msg_type rule <> second_msg_type rule.
Hypothesis none_pending :
  Forall (fun s => st_first_msg_type s <> first_msg_type rule)
    (default [] (sequence_states_ e !! key)).

Let rA := check_sequence_rules get_context tA A_msg ruleset key e.
Let rB := check_sequence_rules get_context tB B_msg ruleset key rA.2.



End Sequence.

(** Scenario B of the specification: HandoverRequest then HandoverNotify
    500 ms apart, window 15000 ms. *)
Definition no_context : string -> option UEContext := fun _ => None.

Definition handover_rule (window_ms : Z) : SequenceRule :=
  mkSequenceRule "Mobility.Handover.Completed" "HandoverRequest"
    "HandoverNotify" window_ms [] [].

Definition handover_ruleset (window_ms : Z) : Ruleset :=
  mkRuleset "mobility" "1.0" [] [handover_rule window_ms].

Definition handover_request : CanonicalMessage :=
  mkMessage "HandoverRequest" 0 41 0 "" "" 0 0 "001010123456789" "".
Definition handover_notify : CanonicalMessage :=
  mkMessage "HandoverNotify" 0 42 0 "" "" 0 0 "001010123456789" "".

Definition imsi_key : string := "imsi:001010123456789".


(** The whole chain in that scenario: [create_event] has already put the
    offset of the current message in front. *)
Example handover_evidence_chain :
  let e := mkEngine [handover_ruleset 15000] ∅ in
  let rA := check_sequence_rules no_context 1000000000 handover_request
              (handover_ruleset 15000) imsi_key e in
  let rB := check_sequence_rules no_context 1500000000 handover_notify
              (handover_ruleset 15000) imsi_key rA.2 in
  ev_evidence <$> rB.1
  = [[mkSpoolOffset 0 42 0; mkSpoolOffset 0 41 0; mkSpoolOffset 0 42 0]].
Proof. by vm_compute. Qed.


End RulesFacts.

(** ** Write-ahead log (WALLog) *)

Module Wal.
Local Open Scope Z_scope.

(** [WALLog::Config]; sizes in bytes, [fsync_interval] in milliseconds. *)
Record Config := mkConfig {
  base_dir : string;
  num_partitions : Z;
  max_segment_size : Z;
  max_retention_bytes : Z;
  max_retention_seconds : Z;
  fsync_on_append : bool;
  use_buffering : bool;
  fsync_interval : Z
}.

Definition default_config : Config :=
  mkConfig "spool_data" 1 (100 * 1024 * 1024) (1024 * 1024 * 1024)
    (7 * 24 * 3600) true true 100.

(** A [std::unique_ptr<std::ofstream>]: null, holding an open stream, or
    holding a stream whose file did not open (writes to it are lost). *)
Inductive handle := null | opened | failed.

Definition non_null (h : handle) : bool :=
  match h with
  | null => false
  | _ => true
  end.

(** [SegmentInfo].  The two paths are set once, from the partition and
    the base offset, when the segment is made, and are computed from them
    here ([log_path], [idx_path] below); a write buffer is represented by
    the number of bytes it holds.  Offsets are [int64_t] and far from its
    bounds; they are integers here. *)
Record SegmentInfo := mkSegment {
  partition : Z;
  base_offset : Z;
  current_offset : Z;
  file_size : Z;
  log_file : handle;
  idx_file : handle;
  log_buffer : Z;
  idx_buffer : Z;
  last_fsync : Z
}.

Definition BUFFER_SIZE : Z := 64 * 1024.
Definition INDEX_ENTRY_SIZE : Z := 16.

(** The two files of a segment on disk, each absent or with its size. *)
Record Files := mkFiles {
  log_bytes : option Z;
  idx_bytes : option Z
}.

(** The log: its configuration, the active segment of each partition, and
    the partition directories, keyed by (partition, base offset). *)
Record WALLog := mkWal {
  config_ : Config;
  active_segments_ : gmap Z SegmentInfo;
  disk : gmap (Z * Z) Files
}.

(** The constructor on an empty base directory. *)
Definition open_log (c : Config) : WALLog := mkWal c ∅ ∅.

Record SignalMessage := mkSignal {
  source_id : string;
  source_sequence : N;
  raw_bytes_size : Z
}.

(** How a call ends: with its return value, with an exception, or in
    undefined behaviour. *)
Inductive outcome (A : Type) :=
| Returned (a : A)
| Thrown (what : string)
| Undefined.
Arguments Returned {A} a.
Arguments Thrown {A} what.
Arguments Undefined {A}.

(** What the file system answers when a call opens the two files of a
    segment, and the reading of the system clock (milliseconds). *)
Record Env := mkEnv {
  log_opens : bool;
  idx_opens : bool;
  now : Z
}.

Definition with_active (a : gmap Z SegmentInfo) (w : WALLog) : WALLog :=
  mkWal (config_ w) a (disk w).
Definition with_disk (d : gmap (Z * Z) Files) (w : WALLog) : WALLog :=
  mkWal (config_ w) (active_segments_ w) d.

Definition files_at (w : WALLog) (p b : Z) : Files :=
  default (mkFiles None None) (disk w !! (p, b)).

(** Appending [n] bytes to a file opened in append mode. *)
Definition write_log (p b n : Z) (w : WALLog) : WALLog :=
  let f := files_at w p b in
  with_disk (<[(p, b) := mkFiles (Some (default 0 (log_bytes f) + n))
                           (idx_bytes f)]> (disk w)) w.
Definition write_idx (p b n : Z) (w : WALLog) : WALLog :=
  let f := files_at w p b in
  with_disk (<[(p, b) := mkFiles (log_bytes f)
                           (Some (default 0 (idx_bytes f) + n))]> (disk w)) w.

Definition set_segment (seg : SegmentInfo) (w : WALLog) : WALLog :=
  with_active (<[partition seg := seg]> (active_segments_ w)) w.

Definition with_log_file (h : handle) (seg : SegmentInfo) : SegmentInfo :=
  mkSegment (partition seg) (base_offset seg) (current_offset seg)
    (file_size seg) h (idx_file seg) (log_buffer seg) (idx_buffer seg)
    (last_fsync seg).
Definition with_idx_file (h : handle) (seg : SegmentInfo) : SegmentInfo :=
  mkSegment (partition seg) (base_offset seg) (current_offset seg)
    (file_size seg) (log_file seg) h (log_buffer seg) (idx_buffer seg)
    (last_fsync seg).

(** A write through a handle reaches the file when the stream is open. *)
Definition write_log_through (h : handle) (p b n : Z) (w : WALLog) : WALLog :=
  match h with
  | opened => write_log p b n w
  | _ => w
  end.
Definition write_idx_through (h : handle) (p b n : Z) (w : WALLog) : WALLog :=
  match h with
  | opened => write_idx p b n w
  | _ => w
  end.

(** [fs::path::operator/=] with a relative, non-empty right operand: a
    separator is put in between when the left path has a file name, that
    is when it is not empty and does not end with a separator. *)
Fixpoint has_filename (p : string) : bool :=
  match p with
  | EmptyString => false
  | String c EmptyString => negb (Ascii.eqb c "/")
  | String _ rest => has_filename rest
  end.

Definition path_append (p q : string) : string :=
  if has_filename p then (p ++ "/" ++ q)%string else (p ++ q)%string.

(** [segment_path]. *)
Definition segment_path (c : Config) (partition base_offset : Z)
    (suffix : string) : string :=
  path_append
    (path_append (base_dir c) ("partition_" ++ pretty partition))
    ("segment_" ++ pretty base_offset ++ suffix).

(** [seg->log_path] and [seg->idx_path], as [get_or_create_segment] sets
    them. *)
Definition log_path (c : Config) (seg : SegmentInfo) : string :=
  segment_path c (partition seg) (base_offset seg) ".log".
Definition idx_path (c : Config) (seg : SegmentInfo) : string :=
  segment_path c (partition seg) (base_offset seg) ".idx".

(** [open_segment_files]: a null handle gets a stream opened in append
    mode, which creates a missing file; when the file does not open the
    handle keeps the failed stream and the call throws, naming the path.
    The segment is returned as the call leaves it. *)
Definition open_segment_files (env : Env) (seg : SegmentInfo) (w : WALLog)
    : outcome unit * SegmentInfo * WALLog :=
  let p := partition seg in
  let b := base_offset seg in
  if negb (non_null (log_file seg)) && negb (log_opens env)
  then (Thrown ("Failed to open log file: " ++ log_path (config_ w) seg),
        with_log_file failed seg, w)
  else
    let '(seg, w) :=
      if non_null (log_file seg) then (seg, w)
      else (with_log_file opened seg, write_log p b 0 w) in
    if negb (non_null (idx_file seg)) && negb (idx_opens env)
    then (Thrown ("Failed to open index file: " ++ idx_path (config_ w) seg),
          with_idx_file failed seg, w)
    else
      if non_null (idx_file seg) then (Returned tt, seg, w)
      else (Returned tt, with_idx_file opened seg, write_idx p b 0 w).

(** [flush_segment_buffers]: a non-empty buffer is written through its
    handle, when there is one, and cleared. *)
Definition flush_segment_buffers (seg : SegmentInfo) (w : WALLog)
    : SegmentInfo * WALLog :=
  let p := partition seg in
  let b := base_offset seg in
  let '(lb, w) :=
    if non_null (log_file seg) && negb (log_buffer seg =? 0)
    then (0, write_log_through (log_file seg) p b (log_buffer seg) w)
    else (log_buffer seg, w) in
  let '(ib, w) :=
    if non_null (idx_file seg) && negb (idx_buffer seg =? 0)
    then (0, write_idx_through (idx_file seg) p b (idx_buffer seg) w)
    else (idx_buffer seg, w) in
  (mkSegment p b (current_offset seg) (file_size seg) (log_file seg)
     (idx_file seg) lb ib (last_fsync seg), w).

(** [rotate_segment]: flush and close the active segment and forget it. *)
Definition rotate_segment (p : Z) (w : WALLog) : WALLog :=
  match active_segments_ w !! p with
  | None => w
  | Some seg =>
      let '(_, w) := flush_segment_buffers seg w in
      with_active (delete p (active_segments_ w)) w
  end.

Definition exists_file (f : option Z) : bool :=
  match f with
  | Some _ => true
  | None => false
  end.

(** The directory scan of [get_or_create_segment]: one past the highest
    base offset among the [.log] files of the partition, or 0. *)
Definition scan_base_offset (p : Z) (w : WALLog) : Z :=
  foldl (fun base_offset entry =>
           let '((q, seg_offset), f) := entry in
           if (q =? p) && exists_file (log_bytes f)
              && (base_offset <=? seg_offset)
           then seg_offset + 1
           else base_offset)
        0 (map_to_list (disk w)).

(** [get_or_create_segment].  After a rotation the iterator looked up again
    is [end()], and the function returns through it: undefined behaviour.
    For a partition without active segment a segment is made at the scanned
    base offset; were its log file on disk already, the offset would
    resume from the size of the index file. *)
Definition get_or_create_segment (env : Env) (p : Z) (w : WALLog)
    : outcome SegmentInfo * WALLog :=
  match active_segments_ w !! p with
  | Some seg =>
      if max_segment_size (config_ w) <=? file_size seg
      then (Undefined, rotate_segment p w)
      else (Returned seg, w)
  | None =>
      let base_offset := scan_base_offset p w in
      let f := files_at w p base_offset in
      let current_offset :=
        match log_bytes f, idx_bytes f with
        | Some _, Some idx_size =>
            if 0 <? idx_size
            then base_offset + idx_size / INDEX_ENTRY_SIZE
            else base_offset
        | _, _ => base_offset
        end in
      let seg := mkSegment p base_offset current_offset 0 null null 0 0
                   (now env) in
      match open_segment_files env seg w with
      | (Returned _, seg, w) => (Returned seg, set_segment seg w)
      | (Thrown what, _, w) => (Thrown what, w)
      | (Undefined, _, w) => (Undefined, w)
      end
  end.

Section Append.
(** [std::hash<std::string>], and the size of the serialized SpoolRecord
    for a partition, an offset and a message ([None] when
    [SerializeToString] fails). *)
Variable hasher : string -> N.
Variable serialize : Z -> Z -> SignalMessage -> option Z.

Definition partition_for_message (m : SignalMessage) (w : WALLog) : Z :=
  Z.of_N (hasher (source_id m ++ ":" ++ pretty (source_sequence m)))
  mod num_partitions (config_ w).

Definition with_log_buffer (n : Z) (seg : SegmentInfo) : SegmentInfo :=
  mkSegment (partition seg) (base_offset seg) (current_offset seg)
    (file_size seg) (log_file seg) (idx_file seg) n (idx_buffer seg)
    (last_fsync seg).
Definition with_idx_buffer (n : Z) (seg : SegmentInfo) : SegmentInfo :=
  mkSegment (partition seg) (base_offset seg) (current_offset seg)
    (file_size seg) (log_file seg) (idx_file seg) (log_buffer seg) n
    (last_fsync seg).

(** The write of the length prefix and the record, [n] bytes in all,
    through the log buffer or directly. *)
Definition append_log (env : Env) (n : Z) (seg : SegmentInfo) (w : WALLog)
    : outcome unit * SegmentInfo * WALLog :=
  if use_buffering (config_ w) && non_null (log_file seg) then
    let seg := with_log_buffer (log_buffer seg + n) seg in
    if BUFFER_SIZE <=? log_buffer seg
    then (Returned tt, with_log_buffer 0 seg,
          write_log_through (log_file seg) (partition seg) (base_offset seg)
            (log_buffer seg) w)
    else (Returned tt, seg, w)
  else
    match (if non_null (log_file seg) then (Returned tt, seg, w)
           else open_segment_files env seg w) with
    | (Returned _, seg, w) =>
        (Returned tt, seg,
         write_log_through (log_file seg) (partition seg) (base_offset seg)
           n w)
    | r => r
    end.

(** The write of the index entry. *)
Definition append_idx (env : Env) (seg : SegmentInfo) (w : WALLog)
    : outcome unit * SegmentInfo * WALLog :=
  if use_buffering (config_ w) && non_null (idx_file seg) then
    let seg := with_idx_buffer (idx_buffer seg + INDEX_ENTRY_SIZE) seg in
    if BUFFER_SIZE <=? idx_buffer seg
    then (Returned tt, with_idx_buffer 0 seg,
          write_idx_through (idx_file seg) (partition seg) (base_offset seg)
            (idx_buffer seg) w)
    else (Returned tt, seg, w)
  else
    match (if non_null (idx_file seg) then (Returned tt, seg, w)
           else open_segment_files env seg w) with
    | (Returned _, seg, w) =>
        (Returned tt, seg,
         write_idx_through (idx_file seg) (partition seg) (base_offset seg)
           INDEX_ENTRY_SIZE w)
    | r => r
    end.

Definition with_current_offset (o : Z) (seg : SegmentInfo) : SegmentInfo :=
  mkSegment (partition seg) (base_offset seg) o (file_size seg)
    (log_file seg) (idx_file seg) (log_buffer seg) (idx_buffer seg)
    (last_fsync seg).
Definition with_file_size (n : Z) (seg : SegmentInfo) : SegmentInfo :=
  mkSegment (partition seg) (base_offset seg) (current_offset seg) n
    (log_file seg) (idx_file seg) (log_buffer seg) (idx_buffer seg)
    (last_fsync seg).
Definition with_last_fsync (t : Z) (seg : SegmentInfo) : SegmentInfo :=
  mkSegment (partition seg) (base_offset seg) (current_offset seg)
    (file_size seg) (log_file seg) (idx_file seg) (log_buffer seg)
    (idx_buffer seg) t.

(** [append].  The segment is the one [active_segments_] owns, changed
    in place: whatever ends the call, the segment is stored as the call
    left it. *)
Definition append (env : Env) (m : SignalMessage) (w : WALLog)
    : outcome (Z * Z) * WALLog :=
  let p := partition_for_message m w in
  match get_or_create_segment env p w with
  | (Returned seg, w) =>
      let offset := current_offset seg in
      let seg := with_current_offset (offset + 1) seg in
      match serialize p offset m with
      | None => (Thrown "Failed to serialize SpoolRecord", set_segment seg w)
      | Some size =>
          match append_log env (4 + size) seg w with
          | (Returned _, seg, w) =>
              let seg := with_file_size (file_size seg + (4 + size)) seg in
              match append_idx env seg w with
              | (Returned _, seg, w) =>
                  let should_fsync :=
                    fsync_on_append (config_ w)
                    && (fsync_interval (config_ w)
                        <=? now env - last_fsync seg) in
                  if should_fsync
                  then let '(seg, w) := flush_segment_buffers seg w in
                       (Returned (p, offset),
                        set_segment (with_last_fsync (now env) seg) w)
                  else (Returned (p, offset), set_segment seg w)
              | (Thrown what, seg, w) => (Thrown what, set_segment seg w)
              | (Undefined, seg, w) => (Undefined, set_segment seg w)
              end
          | (Thrown what, seg, w) => (Thrown what, set_segment seg w)
          | (Undefined, seg, w) => (Undefined, set_segment seg w)
          end
      end
  | (Thrown what, w) => (Thrown what, w)
  | (Undefined, w) => (Undefined, w)
  end.
End Append.

(** [prune_old_segments]: the body takes the lock and does nothing else. *)
Definition prune_old_segments (w : WALLog) : WALLog := w.

End Wal.

(** ** Offsets of the write-ahead log *)

Module WalFacts.
Import Wal.
Local Open Scope Z_scope.

(** The offset a new segment of partition [p] starts counting from. *)
Definition first_offset (p : Z) (w : WALLog) : Z :=
  let base_offset := scan_base_offset p w in
  let f := files_at w p base_offset in
  match log_bytes f, idx_bytes f with
  | Some _, Some idx_size =>
      if 0 <? idx_size
      then base_offset + idx_size / INDEX_ENTRY_SIZE
      else base_offset
  | _, _ => base_offset
  end.

Lemma open_segment_files_current_offset env seg w r seg' w' :
  open_segment_files env seg w = (r, seg', w') ->
  current_offset seg' = current_offset seg.
Proof.
  unfold open_segment_files. intros H.
  repeat case_match; simplify_eq; done.
Qed.

(** Where the offset of an append comes from. *)
Lemma get_or_create_segment_offset env p w seg w' :
  get_or_create_segment env p w = (Returned seg, w') ->
  current_offset seg
  = match active_segments_ w !! p with
    | Some active => current_offset active
    | None => first_offset p w
    end.
Proof.
  unfold get_or_create_segment, first_offset. intros H.
  destruct (active_segments_ w !! p) as [active|].
  - case_match; simplify_eq. done.
  - destruct (open_segment_files _ _ _) as [[r seg1] w1] eqn:Hopen.
    apply open_segment_files_current_offset in Hopen.
    destruct r; simplify_eq. by rewrite Hopen.
Qed.

Section Offsets.
Variable hasher : string -> N.
Variable serialize : Z -> Z -> SignalMessage -> option Z.

Lemma append_returned env m w p o w' :
  append hasher serialize env m w = (Returned (p, o), w') ->
  p = partition_for_message hasher m w
  /\ exists seg w0,
       get_or_create_segment env p w = (Returned seg, w0)
       /\ o = current_offset seg.
Proof.
  unfold append. intros H.
  destruct (get_or_create_segment _ _ _) as [[seg| |] w0] eqn:Hseg;
    [|discriminate H..].
  repeat case_match; simplify_eq; eauto.
Qed.



(** Every active segment is filed under its partition and has both
    streams open. *)
Definition segments_open (w : WALLog) : Prop :=
  forall p seg, active_segments_ w !! p = Some seg ->
    partition seg = p /\ log_file seg = opened /\ idx_file seg = opened.

(** Writing changes the buffers of a segment and the files on disk,
    nothing else. *)
Definition same_but_buffers (seg seg' : SegmentInfo) : Prop :=
  partition seg' = partition seg /\ base_offset seg' = base_offset seg
  /\ current_offset seg' = current_offset seg
  /\ file_size seg' = file_size seg
  /\ log_file seg' = log_file seg /\ idx_file seg' = idx_file seg
  /\ last_fsync seg' = last_fsync seg.

Definition only_disk (w w' : WALLog) : Prop :=
  config_ w' = config_ w /\ active_segments_ w' = active_segments_ w.

Lemma only_disk_write_log h p b n w : only_disk w (write_log_through h p b n w).
Proof. by destruct h. Qed.
Lemma only_disk_write_idx h p b n w : only_disk w (write_idx_through h p b n w).
Proof. by destruct h. Qed.

Lemma append_log_open env n seg w :
  log_file seg = opened ->
  exists seg' w',
    append_log env n seg w = (Returned tt, seg', w')
    /\ same_but_buffers seg seg' /\ only_disk w w'.
Proof.
  intros Hl. unfold append_log. rewrite Hl. cbn [non_null].
  repeat case_match; simplify_eq;
    eexists _, _; (split; [reflexivity|]); split;
    try apply only_disk_write_log; done.
Qed.

Lemma append_idx_open env seg w :
  idx_file seg = opened ->
  exists seg' w',
    append_idx env seg w = (Returned tt, seg', w')
    /\ same_but_buffers seg seg' /\ only_disk w w'.
Proof.
  intros Hi. unfold append_idx. rewrite Hi. cbn [non_null].
  repeat case_match; simplify_eq;
    eexists _, _; (split; [reflexivity|]); split;
    try apply only_disk_write_idx; done.
Qed.

Lemma flush_segment_buffers_frame seg w :
  same_but_buffers seg (flush_segment_buffers seg w).1
  /\ only_disk w (flush_segment_buffers seg w).2.
Proof.
  unfold flush_segment_buffers.
  destruct (non_null (log_file seg) && negb (log_buffer seg =? 0));
    destruct (non_null (idx_file seg) && negb (idx_buffer seg =? 0));
    simpl; (split; [done|]); by destruct (log_file seg), (idx_file seg).
Qed.

Lemma segments_open_insert seg w w' :
  segments_open w -> only_disk w w' ->
  log_file seg = opened -> idx_file seg = opened ->
  segments_open (set_segment seg w').
Proof.
  intros Hw [_ Ha] Hl Hi p s. unfold set_segment. simpl.
  rewrite lookup_insert, Ha. case_decide; [|by apply Hw].
  intros ?; simplify_eq. done.
Qed.

(** An append to a partition whose active segment is below the size
    limit returns the segment's current offset and advances it by one. *)
Lemma append_active env m w seg size :
  let p := partition_for_message hasher m w in
  segments_open w ->
  active_segments_ w !! p = Some seg ->
  file_size seg < max_segment_size (config_ w) ->
  serialize p (current_offset seg) m = Some size ->
  exists w' seg',
    append hasher serialize env m w = (Returned (p, current_offset seg), w')
    /\ active_segments_ w' !! p = Some seg'
    /\ current_offset seg' = current_offset seg + 1
    /\ file_size seg' = file_size seg + (4 + size)
    /\ config_ w' = config_ w
    /\ segments_open w'.
Proof.
  intros p Hopen Hseg Hsize Hser.
  destruct (Hopen p seg Hseg) as (Hp & Hl & Hi).
  unfold append. fold p. unfold get_or_create_segment. rewrite Hseg.
  apply Z.leb_gt in Hsize. rewrite Hsize. rewrite Hser.
  set (seg1 := with_current_offset (current_offset seg + 1) seg).
  destruct (append_log_open env (4 + size) seg1 w Hl)
    as (seg2 & w2 & -> & S2 & D2).
  set (seg3 := with_file_size (file_size seg2 + (4 + size)) seg2).
  destruct S2 as (P2 & B2 & O2 & F2 & L2 & I2 & T2).
  destruct (append_idx_open env seg3 w2) as (seg4 & w4 & -> & S4 & D4);
    [subst seg3 seg1; simpl in *; congruence|].
  destruct S4 as (P4 & B4 & O4 & F4 & L4 & I4 & T4).
  destruct (flush_segment_buffers_frame seg4 w4)
    as [(P5 & B5 & O5 & F5 & L5 & I5 & T5) D5].
  subst seg1 seg3. simpl in *.
  assert (only_disk w w4) as D by (destruct D2, D4; split; congruence).
  assert (only_disk w (flush_segment_buffers seg4 w4).2) as D'
    by (destruct D, D5; split; congruence).
  destruct (fsync_on_append (config_ w4)
            && (fsync_interval (config_ w4) <=? now env - last_fsync seg4)).
  - destruct (flush_segment_buffers seg4 w4) as [seg5 w5]. simpl in *.
    eexists _, _. split; [reflexivity|].
    unfold set_segment at 1. simpl. rewrite P5, P4, P2, Hp, lookup_insert_eq.
    split; [reflexivity|]. simpl.
    split; [congruence|]. split; [congruence|]. split; [apply D'|].
    eapply segments_open_insert; eauto; simpl; congruence.
  - eexists _, _. split; [reflexivity|].
    unfold set_segment at 1. simpl. rewrite P4, P2, Hp, lookup_insert_eq.
    split; [reflexivity|].
    split; [congruence|]. split; [congruence|]. split; [apply D|].
    eapply segments_open_insert; eauto; simpl; congruence.
Qed.

(** Consecutive appends to a partition whose segment stays below the
    size limit return consecutive offsets. *)
Lemma consecutive_offsets_without_rotation env1 env2 m1 m2 w seg size1 size2 :
  let p := partition_for_message hasher m1 w in
  partition_for_message hasher m2 w = p ->
  segments_open w ->
  active_segments_ w !! p = Some seg ->
  file_size seg + (4 + size1) < max_segment_size (config_ w) ->
  0 <= 4 + size1 ->
  serialize p (current_offset seg) m1 = Some size1 ->
  serialize p (current_offset seg + 1) m2 = Some size2 ->
  exists o w1 w2,
    append hasher serialize env1 m1 w = (Returned (p, o), w1)
    /\ append hasher serialize env2 m2 w1 = (Returned (p, o + 1), w2).
Proof.
  intros p Hp Hopen Hseg Hsize Hpos Hs1 Hs2.
  destruct (append_active env1 m1 w seg size1 Hopen Hseg) as
    (w1 & seg1 & H1 & Hseg1 & Ho1 & Hf1 & Hc1 & Hopen1);
    [lia|done|]. fold p in H1, Hseg1.
  assert (partition_for_message hasher m2 w1 = p) as Hp1.
  { unfold partition_for_message in *. by rewrite Hc1. }
  destruct (append_active env2 m2 w1 seg1 size2 Hopen1) as
    (w2 & seg2 & H2 & _); rewrite ?Hp1, ?Hc1, ?Hf1, ?Ho1; try done.
  rewrite Hp1, Ho1 in H2. eauto.
Qed.
End Offsets.

(** *** The log at work *)

(** A hash that sends every key to partition 0, and a serializer that
    adds 32 bytes to the payload and, like protobuf, refuses a record of
    2 GiB or more. *)
Definition one_partition : string -> N := fun _ => 0%N.

Definition serialized_size (p o : Z) (m : SignalMessage) : option Z :=
  if raw_bytes_size m <? 2 ^ 31 then Some (raw_bytes_size m + 32) else None.

Definition files_ok : Env := mkEnv true true 0.

Definition small_segments : Config :=
  mkConfig "spool_data" 1 256 (1024 * 1024 * 1024) (7 * 24 * 3600) true
    true 100.

Definition pdu (n : N) : SignalMessage := mkSignal "enb-1" n 100.

Definition append_ := append one_partition serialized_size.

(** C5.  With a segment size limit of 256 bytes, the first two appends
    return offsets 0 and 1 of partition 0 and bring the segment to 272
    bytes; the third append finds the segment over the limit, rotates it,
    and [get_or_create_segment] returns through the [end()] iterator: the
    call has no defined result, where the claim has it return offset 2. *)
Theorem append_across_rotation_is_undefined :
  let w0 := open_log small_segments in
  let r1 := append_ files_ok (pdu 1) w0 in
  let r2 := append_ files_ok (pdu 2) r1.2 in
  let r3 := append_ files_ok (pdu 3) r2.2 in
  r1.1 = Returned (0, 0)
  /\ r2.1 = Returned (0, 1)
  /\ file_size <$> active_segments_ r2.2 !! 0 = Some 272
  /\ r3.1 = Undefined
  /\ active_segments_ r3.2 !! 0 = None.
Proof. repeat split; by vm_compute. Qed.



(** A log with two closed segments of partition 0 on disk, 5000 bytes
    each, an active third one, and a retention limit of 1000 bytes. *)
Definition over_retention : WALLog :=
  mkWal (mkConfig "spool_data" 1 4096 1000 (7 * 24 * 3600) true true 100)
    {[ 0 := mkSegment 0 20 25 600 opened opened 0 0 0 ]}
    {[ (0, 0) := mkFiles (Some 5000) (Some 160);
       (0, 10) := mkFiles (Some 5000) (Some 160);
       (0, 20) := mkFiles (Some 600) (Some 80) ]}.

(** Bytes of the log files of the segments that are not active. *)
Definition closed_bytes (w : WALLog) : Z :=
  foldl (fun total entry =>
           let '((p, b), f) := entry in
           match active_segments_ w !! p with
           | Some seg => if base_offset seg =? b then total
                         else total + default 0 (log_bytes f)
           | None => total + default 0 (log_bytes f)
           end) 0 (map_to_list (disk w)).

(** C8.  [prune_old_segments] removes nothing: on a log whose closed
    segments hold 10000 bytes against a retention limit of 1000, every
    segment file is still there after the call. *)
Theorem prune_old_segments_removes_nothing :
  max_retention_bytes (config_ over_retention) < closed_bytes over_retention
  /\ prune_old_segments over_retention = over_retention
  /\ disk (prune_old_segments over_retention) !! (0, 0)
     = Some (mkFiles (Some 5000) (Some 160))
  /\ size (disk (prune_old_segments over_retention)) = 3%nat.
Proof. repeat split; by vm_compute. Qed.

End WalFacts.

(** ** S1AP codec (s1ap_parser, RealS1APDecoder) *)

Module Codec.
Local Open Scope string_scope.
Local Open Scope N_scope.

(** A read of the buffer that the source does not guard ends the run of
    the model: a C++ read past the end of the buffer has no defined
    result. *)
Inductive result (A : Type) :=
| Ok (a : A)
| OutOfBounds (index : N).
Arguments Ok {A} a.
Arguments OutOfBounds {A} index.

#[global] Instance result_bind : MBind result := fun A B f r =>
  match r with
  | Ok a => f a
  | OutOfBounds i => OutOfBounds i
  end.

(** [data[i]] for a buffer of [len] bytes. *)
Definition at_ (data : list Byte.byte) (i : N) : result N :=
  match data !! N.to_nat i with
  | Some b => Ok (Byte.to_N b)
  | None => OutOfBounds i
  end.

Definition len (data : list Byte.byte) : N := N.of_nat (length data).

(** [std::vector<uint8_t>(data + from, data + from + count)], in range. *)
Definition slice (data : list Byte.byte) (from count : N) : list Byte.byte :=
  take (N.to_nat count) (drop (N.to_nat from) data).

(** *** SCTP framing *)

Definition IP_PROTO_SCTP : N := 132.
Definition SCTP_CHUNK_DATA : N := 0.

(** The IPv6 extension header walk, at most 8 headers. *)
Fixpoint skip_extension_headers (limit : nat) (packet : list Byte.byte)
    (protocol offset : N) : result (option (N * N)) :=
  match limit with
  | O => Ok (Some (protocol, offset))
  | S limit' =>
      if negb (protocol =? IP_PROTO_SCTP) && (offset <? len packet) then
        if (protocol =? 0) || (protocol =? 43) || (protocol =? 44)
           || (protocol =? 60)
        then
          if len packet <? offset + 8 then Ok None else
          ext_len ← at_ packet (offset + 1);
          let ext_header_len := (ext_len + 1) * 8 in
          if len packet <? offset + ext_header_len then Ok None else
          next ← at_ packet offset;
          skip_extension_headers limit' packet next (offset + ext_header_len)
        else Ok (Some (protocol, offset))
      else Ok (Some (protocol, offset))
  end.

(** The walk over the SCTP chunks; every turn moves at least 4 bytes on. *)
Fixpoint find_data_chunk (fuel : nat) (packet : list Byte.byte) (offset : N)
    : result (option (list Byte.byte)) :=
  match fuel with
  | O => Ok None
  | S fuel' =>
      if offset + 4 <=? len packet then
        chunk_type ← at_ packet offset;
        l1 ← at_ packet (offset + 2);
        l0 ← at_ packet (offset + 3);
        let chunk_len := N.lor (N.shiftl l1 8) l0 in
        if (chunk_len <? 4) || (len packet <? offset + chunk_len)
        then Ok None
        else
          let next :=
            find_data_chunk fuel' packet
              (offset + chunk_len + (4 - chunk_len mod 4) mod 4) in
          if (chunk_type =? SCTP_CHUNK_DATA) && (16 <=? chunk_len) then
            p3 ← at_ packet (offset + 12);
            p2 ← at_ packet (offset + 13);
            p1 ← at_ packet (offset + 14);
            p0 ← at_ packet (offset + 15);
            let payload_protocol_id :=
              N.lor (N.lor (N.lor (N.shiftl p3 24) (N.shiftl p2 16))
                       (N.shiftl p1 8)) p0 in
            if negb (payload_protocol_id =? 18) then Ok None else
            let payload_offset := offset + 16 in
            let payload_len := chunk_len - 16 in
            if (0 <? payload_len)
               && (payload_offset + payload_len <=? len packet)
            then Ok (Some (slice packet payload_offset payload_len))
            else next
          else next
      else Ok None
  end.

Definition extractS1apFromSctp (packet : list Byte.byte)
    : result (option (list Byte.byte)) :=
  if len packet <? 14 then Ok None else
  e1 ← at_ packet 12;
  e0 ← at_ packet 13;
  let eth_type := N.lor (N.shiftl e1 8) e0 in
  let offset := 14 in
  '(eth_type, offset) ←
    (if ((eth_type =? 0x8100) || (eth_type =? 0x88A8))
        && (offset + 4 <=? len packet)
     then v1 ← at_ packet (offset + 2);
          v0 ← at_ packet (offset + 3);
          Ok (N.lor (N.shiftl v1 8) v0, offset + 4)
     else Ok (eth_type, offset));
  ip ←
    (if eth_type =? 0x0800 then
       if len packet <? offset + 20 then Ok None else
       ver_ihl ← at_ packet offset;
       if negb (N.shiftr ver_ihl 4 =? 4) then Ok None else
       let ip_header_len := N.land ver_ihl 0x0F * 4 in
       if len packet <? offset + ip_header_len then Ok None else
       protocol ← at_ packet (offset + 9);
       Ok (Some (protocol, offset + ip_header_len))
     else if eth_type =? 0x86DD then
       if len packet <? offset + 40 then Ok None else
       version ← at_ packet offset;
       if negb (N.shiftr version 4 =? 6) then Ok None else
       protocol ← at_ packet (offset + 6);
       skip_extension_headers 8 packet protocol (offset + 40)
     else Ok None);
  match ip with
  | None => Ok None
  | Some (protocol, offset) =>
      if negb (protocol =? IP_PROTO_SCTP) then Ok None else
      if len packet <? offset + 12 then Ok None else
      find_data_chunk (length packet) packet (offset + 12)
  end.

(** *** Name tables *)

(** [getProcedureCodeName]: codes 0 .. 47, in order. *)
Definition procedure_names : list string :=
  [
    "HandoverPreparation"; "HandoverResourceAllocation";
    "HandoverNotification"; "PathSwitchRequest"; "HandoverCancel";
    "E-RABSetup"; "E-RABModify"; "E-RABRelease"; "E-RABReleaseIndication";
    "InitialContextSetup"; "Paging"; "downlinkNASTransport";
    "initialUEMessage"; "uplinkNASTransport"; "Reset"; "ErrorIndication";
    "NASNonDeliveryIndication"; "S1Setup"; "UEContextReleaseRequest";
    "DownlinkS1cdma2000tunneling"; "UplinkS1cdma2000tunneling";
    "UEContextModification"; "UECapabilityInfoIndication"; "UEContextRelease";
    "eNBStatusTransfer"; "MMEStatusTransfer"; "DeactivateTrace"; "TraceStart";
    "TraceFailureIndication"; "ENBConfigurationUpdate";
    "MMEConfigurationUpdate"; "LocationReportingControl";
    "LocationReportingFailureIndication"; "LocationReport"; "OverloadStart";
    "OverloadStop"; "WriteReplaceWarning"; "eNBDirectInformationTransfer";
    "MMEDirectInformationTransfer"; "PrivateMessage";
    "eNBConfigurationTransfer"; "MMEConfigurationTransfer";
    "CellTrafficTrace"; "Kill"; "downlinkUEAssociatedLPPaTransport";
    "uplinkUEAssociatedLPPaTransport"; "downlinkNonUEAssociatedLPPaTransport";
    "uplinkNonUEAssociatedLPPaTransport"
  ].

Definition getProcedureCodeName (procedure_code : N) : string :=
  default "Unknown" (procedure_names !! N.to_nat procedure_code).

(** [getIeNameFromId]: ids 0 .. 165, in order. *)
Definition ie_names : list string :=
  [
    "MME-UE-S1AP-ID"; "HandoverType"; "Cause"; "SourceID"; "TargetID";
    "Unknown-5"; "Unknown-6"; "Unknown-7"; "eNB-UE-S1AP-ID"; "Unknown-9";
    "Unknown-10"; "Unknown-11"; "E-RABSubjecttoDataForwardingList";
    "E-RABtoReleaseListHOCmd"; "E-RABDataForwardingItem";
    "E-RABReleaseItemBearerRelComp"; "E-RABToBeSetupListBearerSUReq";
    "E-RABToBeSetupItemBearerSUReq"; "E-RABAdmittedList";
    "E-RABFailedToSetupListHOReqAck"; "E-RABAdmittedItem";
    "E-RABFailedtoSetupItemHOReqAck"; "E-RABToBeSwitchedDLList";
    "E-RABToBeSwitchedDLItem"; "E-RABToBeSetupListCtxtSUReq";
    "TraceActivation"; "NAS-PDU"; "E-RABToBeSetupItemHOReq";
    "E-RABSetupListBearerSURes"; "E-RABFailedToSetupListBearerSURes";
    "E-RABToBeModifiedListBearerModReq"; "E-RABModifyListBearerModRes";
    "E-RABFailedToModifyList"; "E-RABToBeReleasedList";
    "E-RABFailedToReleaseList"; "E-RABItem";
    "E-RABToBeModifiedItemBearerModReq"; "E-RABModifyItemBearerModRes";
    "E-RABReleaseItem"; "E-RABSetupItemBearerSURes"; "SecurityContext";
    "HandoverRestrictionList"; "Unknown-42"; "UEPagingID"; "pagingDRX";
    "Unknown-45"; "TAIList"; "TAIItem"; "E-RABFailedToSetupListCtxtSURes";
    "E-RABReleaseItemHOCmd"; "E-RABSetupItemCtxtSURes";
    "E-RABSetupListCtxtSURes"; "E-RABToBeSetupItemCtxtSUReq";
    "E-RABToBeSetupListHOReq"; "Unknown-54"; "GERANtoLTEHOInformationRes";
    "Unknown-56"; "UTRANtoLTEHOInformationRes"; "CriticalityDiagnostics";
    "Global-ENB-ID"; "eNBname"; "MMEname"; "Unknown-62"; "ServedPLMNs";
    "SupportedTAs"; "TimeToWait"; "uEaggregateMaximumBitrate"; "TAI";
    "Unknown-68"; "E-RABReleaseListBearerRelComp"; "cdma2000PDU";
    "cdma2000RATType"; "cdma2000SectorID"; "SecurityKey"; "UERadioCapability";
    "GUMMEI-ID"; "Unknown-76"; "Unknown-77"; "E-RABInformationListItem";
    "Direct-Forwarding-Path-Availability"; "UEIdentityIndexValue";
    "Unknown-81"; "Unknown-82"; "cdma2000HOStatus";
    "cdma2000HORequiredIndication"; "Unknown-85"; "E-UTRAN-Trace-ID";
    "RelativeMMECapacity"; "SourceMME-UE-S1AP-ID";
    "Bearers-SubjectToStatusTransfer-Item";
    "eNB-StatusTransfer-TransparentContainer";
    "UE-associatedLogicalS1-ConnectionItem"; "ResetType";
    "UE-associatedLogicalS1-ConnectionListResAck"; "E-RABToBeSwitchedULItem";
    "E-RABToBeSwitchedULList"; "S-TMSI"; "cdma2000OneXRAND"; "RequestType";
    "UE-S1AP-IDs"; "EUTRAN-CGI"; "OverloadResponse"; "cdma2000OneXSRVCCInfo";
    "E-RABFailedToBeReleasedList"; "Source-ToTarget-TransparentContainer";
    "ServedGUMMEIs"; "SubscriberProfileIDforRFP"; "UESecurityCapabilities";
    "CSFallbackIndicator"; "CNDomain"; "E-RABReleasedList";
    "MessageIdentifier"; "SerialNumber"; "WarningAreaList";
    "RepetitionPeriod"; "NumberofBroadcastRequest"; "WarningType";
    "WarningSecurityInfo"; "DataCodingScheme"; "WarningMessageContents";
    "BroadcastCompletedAreaList"; "Inter-SystemInformationTransferTypeEDT";
    "Inter-SystemInformationTransferTypeMDT";
    "Target-ToSource-TransparentContainer"; "SRVCCOperationPossible";
    "SRVCCHOIndication"; "NAS-DownlinkCount"; "CSG-Id"; "CSG-IdList";
    "SONConfigurationTransferECT"; "SONConfigurationTransferMCT";
    "TraceCollectionEntityIPAddress"; "MSClassmark2"; "MSClassmark3";
    "RRC-Establishment-Cause"; "NASSecurityParametersfromE-UTRAN";
    "NASSecurityParameterstoE-UTRAN"; "DefaultPagingDRX";
    "Source-ToTarget-TransparentContainer-Secondary";
    "Target-ToSource-TransparentContainer-Secondary";
    "EUTRANRoundTripDelayEstimationInfo"; "BroadcastCancelledAreaList";
    "ConcurrentWarningMessageIndicator"; "Data-Forwarding-Not-Possible";
    "ExtendedRepetitionPeriod"; "CellAccessMode"; "CSGMembershipStatus";
    "LPPa-PDU"; "Routing-ID"; "Time-Synchronization-Info";
    "PS-ServiceNotAvailable"; "PagingPriority"; "x2TNLConfigurationInfo";
    "eNBX2ExtendedTransportLayerAddresses"; "GUMMEIList";
    "GW-TransportLayerAddress"; "Correlation-ID"; "SourceMME-GUMMEI";
    "MME-UE-S1AP-ID-2"; "RegisteredLAI"; "RelayNode-Indicator";
    "TrafficLoadReductionIndication"; "MDTConfiguration";
    "MMERelaySupportIndicator"; "GWContextReleaseIndication";
    "ManagementBasedMDTAllowed"
  ].

Definition getIeNameFromId (ie_id : N) : string :=
  default ("IE_" ++ pretty ie_id) (ie_names !! N.to_nat ie_id).

Inductive S1apPduType :=
  INITIATING_MESSAGE | SUCCESSFUL_OUTCOME | UNSUCCESSFUL_OUTCOME.

Definition pdu_type_eqb (a b : S1apPduType) : bool :=
  match a, b with
  | INITIATING_MESSAGE, INITIATING_MESSAGE
  | SUCCESSFUL_OUTCOME, SUCCESSFUL_OUTCOME
  | UNSUCCESSFUL_OUTCOME, UNSUCCESSFUL_OUTCOME => true
  | _, _ => false
  end.

(** The rows of [map_procedure_to_msg_type], in the order of its tests. *)
Definition msg_type_rows : list (N * S1apPduType * string) :=
  [
    (0, INITIATING_MESSAGE, "HandoverRequired");
    (0, SUCCESSFUL_OUTCOME, "HandoverCommand");
    (0, UNSUCCESSFUL_OUTCOME, "HandoverPreparationFailure");
    (1, INITIATING_MESSAGE, "HandoverRequest");
    (1, SUCCESSFUL_OUTCOME, "HandoverRequestAcknowledge");
    (1, UNSUCCESSFUL_OUTCOME, "HandoverFailure");
    (2, INITIATING_MESSAGE, "HandoverNotify");
    (3, INITIATING_MESSAGE, "PathSwitchRequest");
    (3, SUCCESSFUL_OUTCOME, "PathSwitchRequestAcknowledge");
    (3, UNSUCCESSFUL_OUTCOME, "PathSwitchRequestFailure");
    (4, INITIATING_MESSAGE, "HandoverCancel");
    (4, SUCCESSFUL_OUTCOME, "HandoverCancelAcknowledge");
    (5, INITIATING_MESSAGE, "E-RABSetupRequest");
    (5, SUCCESSFUL_OUTCOME, "E-RABSetupResponse");
    (6, INITIATING_MESSAGE, "E-RABModifyRequest");
    (6, SUCCESSFUL_OUTCOME, "E-RABModifyResponse");
    (7, INITIATING_MESSAGE, "E-RABReleaseCommand");
    (7, SUCCESSFUL_OUTCOME, "E-RABReleaseResponse");
    (8, INITIATING_MESSAGE, "E-RABReleaseIndication");
    (9, INITIATING_MESSAGE, "InitialContextSetupRequest");
    (9, SUCCESSFUL_OUTCOME, "InitialContextSetupResponse");
    (9, UNSUCCESSFUL_OUTCOME, "InitialContextSetupFailure");
    (10, INITIATING_MESSAGE, "Paging");
    (11, INITIATING_MESSAGE, "DownlinkNASTransport");
    (12, INITIATING_MESSAGE, "initialUEMessage");
    (13, INITIATING_MESSAGE, "UplinkNASTransport");
    (14, INITIATING_MESSAGE, "Reset");
    (14, SUCCESSFUL_OUTCOME, "ResetAcknowledge");
    (15, INITIATING_MESSAGE, "ErrorIndication");
    (16, INITIATING_MESSAGE, "NASNonDeliveryIndication");
    (17, INITIATING_MESSAGE, "S1SetupRequest");
    (17, SUCCESSFUL_OUTCOME, "S1SetupResponse");
    (17, UNSUCCESSFUL_OUTCOME, "S1SetupFailure");
    (18, INITIATING_MESSAGE, "UEContextReleaseRequest");
    (19, INITIATING_MESSAGE, "DownlinkS1cdma2000tunneling");
    (20, INITIATING_MESSAGE, "UplinkS1cdma2000tunneling");
    (21, INITIATING_MESSAGE, "UEContextModificationRequest");
    (21, SUCCESSFUL_OUTCOME, "UEContextModificationResponse");
    (21, UNSUCCESSFUL_OUTCOME, "UEContextModificationFailure");
    (22, INITIATING_MESSAGE, "UECapabilityInfoIndication");
    (23, INITIATING_MESSAGE, "UEContextReleaseCommand");
    (23, SUCCESSFUL_OUTCOME, "UEContextReleaseComplete");
    (24, INITIATING_MESSAGE, "ENBStatusTransfer");
    (25, INITIATING_MESSAGE, "MMEStatusTransfer");
    (26, INITIATING_MESSAGE, "DeactivateTrace");
    (27, INITIATING_MESSAGE, "TraceStart");
    (28, INITIATING_MESSAGE, "TraceFailureIndication");
    (29, INITIATING_MESSAGE, "ENBConfigurationUpdate");
    (29, SUCCESSFUL_OUTCOME, "ENBConfigurationUpdateAcknowledge");
    (29, UNSUCCESSFUL_OUTCOME, "ENBConfigurationUpdateFailure");
    (30, INITIATING_MESSAGE, "MMEConfigurationUpdate");
    (30, SUCCESSFUL_OUTCOME, "MMEConfigurationUpdateAcknowledge");
    (30, UNSUCCESSFUL_OUTCOME, "MMEConfigurationUpdateFailure");
    (31, INITIATING_MESSAGE, "LocationReportingControl");
    (32, INITIATING_MESSAGE, "LocationReportingFailureIndication");
    (33, INITIATING_MESSAGE, "LocationReport");
    (34, INITIATING_MESSAGE, "OverloadStart");
    (35, INITIATING_MESSAGE, "OverloadStop");
    (36, INITIATING_MESSAGE, "WriteReplaceWarningRequest");
    (36, SUCCESSFUL_OUTCOME, "WriteReplaceWarningResponse");
    (37, INITIATING_MESSAGE, "ENBDirectInformationTransfer");
    (38, INITIATING_MESSAGE, "MMEDirectInformationTransfer");
    (39, INITIATING_MESSAGE, "PrivateMessage");
    (40, INITIATING_MESSAGE, "ENBConfigurationTransfer");
    (41, INITIATING_MESSAGE, "MMEConfigurationTransfer");
    (42, INITIATING_MESSAGE, "CellTrafficTrace");
    (43, INITIATING_MESSAGE, "KillRequest");
    (43, SUCCESSFUL_OUTCOME, "KillResponse");
    (44, INITIATING_MESSAGE, "DownlinkUEAssociatedLPPaTransport");
    (45, INITIATING_MESSAGE, "UplinkUEAssociatedLPPaTransport");
    (46, INITIATING_MESSAGE, "DownlinkNonUEAssociatedLPPaTransport");
    (47, INITIATING_MESSAGE, "UplinkNonUEAssociatedLPPaTransport")
  ].

Definition map_procedure_to_msg_type (procedure_code : N)
    (pdu_type : S1apPduType) (procedure_name : string) : string :=
  match List.find (fun row => (row.1.1 =? procedure_code)
                              && pdu_type_eqb row.1.2 pdu_type)
          msg_type_rows with
  | Some row => row.2
  | None =>
      match pdu_type with
      | INITIATING_MESSAGE => procedure_name
      | _ => if String.eqb procedure_name "" then "Unknown" else procedure_name
      end
  end.

(** *** parseS1apPdu *)

(** [S1apParseResult].  The source leaves [pdu_type] and [procedure_code]
    uninitialised until it decodes them; nothing reads them of a result
    that is not [decoded]. *)
Record S1apParseResult := mkParse {
  decoded : bool;
  pdu_type : S1apPduType;
  procedure_code : N;
  procedure_name : string;
  information_elements : gmap string string;
  parsed_bytes : list Byte.byte
}.

Definition hex_digit (n : N) : ascii :=
  if n <? 10 then ascii_of_N (48 + n) else ascii_of_N (87 + n).

(** Two lowercase hex digits per byte ([std::hex], [setw(2)],
    [setfill('0')]). *)
Fixpoint hex_of_bytes (bytes : list Byte.byte) : string :=
  match bytes with
  | [] => ""
  | b :: rest =>
      let n := Byte.to_N b in
      String (hex_digit (n / 16)) (String (hex_digit (n mod 16))
        (hex_of_bytes rest))
  end.

(** The big-endian value of [count] bytes from [offset]. *)
Fixpoint read_big_endian (count : nat) (data : list Byte.byte) (offset acc : N)
    : result N :=
  match count with
  | O => Ok acc
  | S count' =>
      b ← at_ data offset;
      read_big_endian count' data (offset + 1) (N.lor (N.shiftl acc 8) b)
  end.

(** The loop over the ProtocolIE-Field entries: [count] is what is left
    of [num_ies]; leaving the loop returns the elements decoded so far. *)
Fixpoint parse_ies (count : nat) (s1ap_bytes : list Byte.byte) (offset : N)
    (ies : gmap string string) : result (gmap string string) :=
  match count with
  | O => Ok ies
  | S count' =>
      if len s1ap_bytes <=? offset then Ok ies else
      id_high ← at_ s1ap_bytes offset;
      id_low ← at_ s1ap_bytes (offset + 1);
      let ie_id := N.lor (N.shiftl id_high 8) id_low in
      let offset := offset + 2 in
      if len s1ap_bytes <=? offset then Ok ies else
      ie_criticality ← at_ s1ap_bytes offset;
      let offset := offset + 1 in
      if len s1ap_bytes <=? offset then Ok ies else
      value_length_byte ← at_ s1ap_bytes offset;
      let offset := offset + 1 in
      value_length ←
        (if N.land value_length_byte 0x80 =? 0
         then Ok (Some (N.land value_length_byte 0x7F, offset))
         else
           let num_length_bytes := N.land value_length_byte 0x7F + 1 in
           if (4 <? num_length_bytes)
              || (len s1ap_bytes <? offset + num_length_bytes)
           then Ok None
           else
             v ← read_big_endian (N.to_nat num_length_bytes) s1ap_bytes
                   offset 0;
             Ok (Some (v, offset + num_length_bytes)));
      match value_length with
      | None => Ok ies
      | Some (value_length, offset) =>
          if len s1ap_bytes <? offset + value_length then Ok ies else
          let ie_name := getIeNameFromId ie_id in
          let value := hex_of_bytes (slice s1ap_bytes offset value_length) in
          parse_ies count' s1ap_bytes (offset + value_length)
            (<[ie_name := value]> ies)
      end
  end.

Definition pdu_type_of (choice_index : N) : S1apPduType :=
  match choice_index with
  | 0 => INITIATING_MESSAGE
  | 1 => SUCCESSFUL_OUTCOME
  | _ => UNSUCCESSFUL_OUTCOME
  end.

(** [parseS1apPdu].  After the criticality byte the source reads the length
    determinant at offset 3, then the byte at offset 4 and the number of
    elements at offset 6 (short form) or 7 (extended form), without
    comparing those offsets with [len]. *)
Definition parseS1apPdu (s1ap_bytes : list Byte.byte) : result S1apParseResult :=
  let undecoded := mkParse false INITIATING_MESSAGE 0 "" ∅ s1ap_bytes in
  if len s1ap_bytes <? 1 then Ok undecoded else
  first ← at_ s1ap_bytes 0;
  let choice_index := N.land (N.shiftr first 5) 0x03 in
  if 2 <? choice_index then Ok undecoded else
  let pdu := pdu_type_of choice_index in
  if len s1ap_bytes <=? 1
  then Ok (mkParse false pdu 0 "" ∅ s1ap_bytes) else
  code ← at_ s1ap_bytes 1;
  let name := getProcedureCodeName code in
  if len s1ap_bytes <=? 2 then Ok (mkParse true pdu code name ∅ s1ap_bytes) else
  if len s1ap_bytes <=? 3 then Ok (mkParse true pdu code name ∅ s1ap_bytes) else
  length_byte ← at_ s1ap_bytes 3;
  second_byte ← at_ s1ap_bytes 4;
  '(num_ies, offset) ←
    (if N.land length_byte 0x80 =? 0
     then n ← at_ s1ap_bytes 6; Ok (n, 7)
     else n ← at_ s1ap_bytes 7; Ok (n, 8));
  ies ← parse_ies (N.to_nat num_ies) s1ap_bytes offset ∅;
  Ok (mkParse true pdu code name ies s1ap_bytes).

(** *** The extractors behind the decoder *)

(** [extractImsiFromS1apBytes], [extractTmsiFromS1apBytes] and
    [extractImeisvFromS1apBytes] return an empty vector on every path. *)
Definition extractImsiFromS1apBytes (s1ap_bytes : list Byte.byte) : list string := [].
Definition extractTmsiFromS1apBytes (s1ap_bytes : list Byte.byte) : list string := [].
Definition extractImeisvFromS1apBytes (s1ap_bytes : list Byte.byte) : list string := [].

Definition isxdigit (c : ascii) : bool :=
  let n := N_of_ascii c in
  ((48 <=? n) && (n <=? 57)) || ((65 <=? n) && (n <=? 70))
  || ((97 <=? n) && (n <=? 102)).
Definition toupper (c : ascii) : ascii :=
  let n := N_of_ascii c in
  if (97 <=? n) && (n <=? 122) then ascii_of_N (n - 32) else c.

Fixpoint keep_xdigits_upper (s : string) : string :=
  match s with
  | EmptyString => EmptyString
  | String c s' =>
      if isxdigit c then String (toupper c) (keep_xdigits_upper s')
      else keep_xdigits_upper s'
  end.

(** [extractTmsiFromIEList], the extractor the correlator uses: the last
    8 hex digits of a present S-TMSI element, in upper case. *)
Definition extractTmsiFromIEList (ies : gmap string string) : list string :=
  match ies !! "S-TMSI" with
  | None => []
  | Some s_tmsi_hex =>
      let n := String.length s_tmsi_hex in
      if (n <? 10)%nat then []
      else
        let normalized :=
          keep_xdigits_upper (String.substring (n - 8) 8 s_tmsi_hex) in
        if (String.length normalized =? 8)%nat then [normalized] else []
  end.

(** *** RealS1APDecoder::decode *)

Definition hex_value (c : ascii) : option N :=
  let n := N_of_ascii c in
  if (48 <=? n) && (n <=? 57) then Some (n - 48)
  else if (65 <=? n) && (n <=? 70) then Some (n - 55)
  else if (97 <=? n) && (n <=? 102) then Some (n - 87)
  else None.

Fixpoint hex_prefix (s : string) (acc : N) : N :=
  match s with
  | EmptyString => acc
  | String c s' =>
      match hex_value c with
      | Some d => hex_prefix s' (16 * acc + d)
      | None => acc
      end
  end.

(** [std::stoul(s, nullptr, 16)]: white space, an optional sign, an
    optional ["0x"] before a hex digit, then the hex digits.  [None]
    stands for the two exceptions, no digit to convert and a value above
    [ULONG_MAX]; a value after ['-'] is negated in [unsigned long]. *)
Definition isspace (c : ascii) : bool :=
  let n := N_of_ascii c in (n =? 32) || ((9 <=? n) && (n <=? 13)).

Fixpoint skip_spaces (s : string) : string :=
  match s with
  | String c s' => if isspace c then skip_spaces s' else s
  | EmptyString => s
  end.

Definition skip_0x (s : string) : string :=
  match s with
  | String "0"%char (String x s') =>
      if Ascii.eqb x "x" || Ascii.eqb x "X" then
        match s' with
        | String h _ =>
            match hex_value h with
            | Some _ => s'
            | None => s
            end
        | EmptyString => s
        end
      else s
  | _ => s
  end.

Definition stoul16 (s : string) : option N :=
  let s := skip_spaces s in
  let '(negative, s) :=
    match s with
    | String "-"%char s' => (true, s')
    | String "+"%char s' => (false, s')
    | _ => (false, s)
    end in
  let s := skip_0x s in
  match s with
  | EmptyString => None
  | String c _ =>
      match hex_value c with
      | None => None
      | Some _ =>
          let v := hex_prefix s 0 in
          if v <? 2 ^ 64
          then Some (if negative : bool then (2 ^ 64 - v) mod 2 ^ 64 else v)
          else None
      end
  end.

(** [static_cast<int32_t>(static_cast<uint32_t>(v))]. *)
Definition to_int32 (v : N) : Z :=
  let u := v mod 2 ^ 32 in
  if u <? 2 ^ 31 then Z.of_N u else (Z.of_N u - 2 ^ 32)%Z.

Definition is_separator (c : ascii) : bool :=
  let n := N_of_ascii c in
  (n =? 32) || ((9 <=? n) && (n <=? 13)) || (n =? 58) || (n =? 45).

Fixpoint remove_separators (s : string) : string :=
  match s with
  | EmptyString => EmptyString
  | String c s' =>
      if is_separator c then remove_separators s'
      else String c (remove_separators s')
  end.

Definition byte_of (n : N) : Byte.byte :=
  default Byte.x00 (Byte.of_N (n mod 256)).

(** The pairs of [hex_string_to_bytes]; a pair that does not convert is
    skipped, a last single character is dropped. *)
Fixpoint hex_pairs (s : string) : list Byte.byte :=
  match s with
  | String a (String b rest) =>
      match stoul16 (String a (String b EmptyString)) with
      | Some v => byte_of v :: hex_pairs rest
      | None => hex_pairs rest
      end
  | _ => []
  end.

Definition hex_string_to_bytes (hex_str : string) : list Byte.byte :=
  hex_pairs (remove_separators hex_str).

(** [parse_eutran_cgi]: (PLMN identity, cell identity). *)
Definition parse_eutran_cgi (ecgi_bytes : list Byte.byte)
    : list Byte.byte * list Byte.byte :=
  let plmn_identity :=
    if (3 <=? length ecgi_bytes)%nat then take 3 ecgi_bytes else [] in
  let cell_id :=
    if (7 <=? length ecgi_bytes)%nat then take 4 (drop 3 ecgi_bytes)
    else if (3 <? length ecgi_bytes)%nat then drop 3 ecgi_bytes
    else [] in
  (plmn_identity, cell_id).

(** The fields of [CanonicalMessage] that [decode] sets, but for the
    decoded tree (a JSON rendering of the parse result that lists the
    elements in the iteration order of an unordered map). *)
Record CanonicalMessage := mkCanonical {
  decode_failed : bool;
  raw_bytes : list Byte.byte;
  msg_procedure_code : N;
  msg_type : string;
  mme_ue_s1ap_id : Z;
  enb_ue_s1ap_id : Z;
  imsi : string;
  tmsi : string;
  imei : string;
  ecgi : list Byte.byte;
  ecgi_plmn_identity : list Byte.byte;
  ecgi_cell_id : list Byte.byte;
  target_ecgi : list Byte.byte;
  target_ecgi_plmn_identity : list Byte.byte;
  target_ecgi_cell_id : list Byte.byte
}.

(** A message as protobuf constructs it. *)
Definition empty_message : CanonicalMessage :=
  mkCanonical false [] 0 "" 0 0 "" "" "" [] [] [] [] [] [].

Definition failed (raw : list Byte.byte) (m : CanonicalMessage) :=
  mkCanonical true raw (msg_procedure_code m) (msg_type m) (mme_ue_s1ap_id m)
    (enb_ue_s1ap_id m) (imsi m) (tmsi m) (imei m) (ecgi m)
    (ecgi_plmn_identity m) (ecgi_cell_id m) (target_ecgi m)
    (target_ecgi_plmn_identity m) (target_ecgi_cell_id m).

Definition contains (needle hay : string) : bool :=
  match String.index 0 needle hay with
  | Some _ => true
  | None => false
  end.

Definition names_target_cgi (key : string) : bool :=
  (contains "target" key || contains "Target" key)
  && (contains "CGI" key || contains "cgi" key).

(** An id element: the field is set when the hex string converts. *)
Definition id_of_element (ies : gmap string string) (name : string)
    (current : Z) : Z :=
  match ies !! name with
  | Some hex => match stoul16 hex with
                | Some v => to_int32 v
                | None => current
                end
  | None => current
  end.

Definition first_or {A} (l : list A) (current : A) : A :=
  match l with
  | x :: _ => x
  | [] => current
  end.

Definition set_if_nonempty (bytes current : list Byte.byte) : list Byte.byte :=
  match bytes with
  | [] => current
  | _ => bytes
  end.

Definition decode (raw : list Byte.byte) (m : CanonicalMessage)
    : result (bool * CanonicalMessage) :=
  match raw with
  | [] => Ok (false, failed raw m)
  | _ =>
      s1ap_opt ← extractS1apFromSctp raw;
      let s1ap_bytes := default raw s1ap_opt in
      parse_result ← parseS1apPdu s1ap_bytes;
      if negb (decoded parse_result) then Ok (false, failed raw m) else
      let ies := information_elements parse_result in
      let msg_type_ :=
        map_procedure_to_msg_type (procedure_code parse_result)
          (pdu_type parse_result) (procedure_name parse_result) in
      let mme := id_of_element ies "MME-UE-S1AP-ID" (mme_ue_s1ap_id m) in
      let enb := id_of_element ies "eNB-UE-S1AP-ID" (enb_ue_s1ap_id m) in
      let imsi_ := first_or (extractImsiFromS1apBytes s1ap_bytes) (imsi m) in
      let tmsi_ := first_or (extractTmsiFromS1apBytes s1ap_bytes) (tmsi m) in
      let imei_ := first_or (extractImeisvFromS1apBytes s1ap_bytes) (imei m) in
      let '(ecgi_, plmn, cell) :=
        match ies !! "EUTRAN-CGI" with
        | Some hex =>
            match hex_string_to_bytes hex with
            | [] => (ecgi m, ecgi_plmn_identity m, ecgi_cell_id m)
            | ecgi_bytes =>
                let '(plmn_identity, cell_id) := parse_eutran_cgi ecgi_bytes in
                (ecgi_bytes,
                 set_if_nonempty plmn_identity (ecgi_plmn_identity m),
                 set_if_nonempty cell_id (ecgi_cell_id m))
            end
        | None => (ecgi m, ecgi_plmn_identity m, ecgi_cell_id m)
        end in
      let '(target, target_plmn, target_cell) :=
        match List.find (fun kv => names_target_cgi kv.1) (map_to_list ies) with
        | Some (_, hex) =>
            match hex_string_to_bytes hex with
            | [] => (target_ecgi m, target_ecgi_plmn_identity m,
                     target_ecgi_cell_id m)
            | target_ecgi_bytes =>
                let '(plmn_identity, cell_id) :=
                  parse_eutran_cgi target_ecgi_bytes in
                (target_ecgi_bytes,
                 set_if_nonempty plmn_identity (target_ecgi_plmn_identity m),
                 set_if_nonempty cell_id (target_ecgi_cell_id m))
            end
        | None => (target_ecgi m, target_ecgi_plmn_identity m,
                   target_ecgi_cell_id m)
        end in
      Ok (true,
          mkCanonical false raw (procedure_code parse_result) msg_type_ mme enb
            imsi_ tmsi_ imei_ ecgi_ plmn cell target target_plmn target_cell)
  end.

End Codec.

(** ** The decoder on concrete buffers *)

Module CodecFacts.
Import Codec.
Import Byte.
Local Open Scope string_scope.

(** An initialUEMessage (procedure code 12, initiating message) with two
    elements: eNB-UE-S1AP-ID = 1 and S-TMSI = 00 DE AD BE EF. *)
Definition initial_ue_message : list byte :=
  [x00; x0c; x40; x12; x00; x00; x02;
   x00; x08; x00; x02; x00; x01;
   x00; x60; x40; x05; x00; xde; xad; xbe; xef].

(** C7.  Decoding an initialUEMessage whose S-TMSI element is
    00 DE AD BE EF succeeds and finds the element, but leaves the TMSI of
    the canonical message empty: [decode] takes the TMSI from
    [extractTmsiFromS1apBytes], which returns no TMSI for any input.  The
    extractor of the correlator, [extractTmsiFromIEList], does read the
    last four bytes of the element. *)
Theorem decode_leaves_tmsi_empty :
  exists m parsed,
    decode initial_ue_message empty_message = Ok (true, m)
    /\ msg_type m = "initialUEMessage"
    /\ enb_ue_s1ap_id m = 1%Z
    /\ parseS1apPdu initial_ue_message = Ok parsed
    /\ information_elements parsed !! "S-TMSI" = Some "00deadbeef"
    /\ tmsi m = ""
    /\ extractTmsiFromIEList (information_elements parsed) = ["DEADBEEF"].
Proof.
  eexists _, _. split; [by vm_compute|]. split; [by vm_compute|].
  split; [by vm_compute|]. split; [by vm_compute|].
  split; [by vm_compute|]. split; by vm_compute.
Qed.

(** Whatever the buffer, [decode] does not fill the TMSI. *)
Lemma decode_keeps_tmsi raw m b m' :
  decode raw m = Ok (b, m') -> tmsi m' = tmsi m.
Proof.
  unfold decode. destruct raw as [|b0 raw]; [by intros [= <- <-]|].
  destruct (extractS1apFromSctp (b0 :: raw)) as [s1ap_opt|]; [|done].
  simpl. destruct (parseS1apPdu _) as [r|]; [|done]. simpl.
  destruct (decoded r); simpl; [|by intros [= <- <-]].
  repeat match goal with
         | |- context [match ?e with (_, _) => _ end] => destruct e
         end.
  by intros [= <- <-].
Qed.

(** A PDU cut after its length determinant, and one cut inside the id of
    its first element. *)
Definition cut_after_length : list byte := [x00; x0c; x40; x05].
Definition cut_in_element_id : list byte :=
  [x00; x0c; x40; x04; x00; x00; x01; x00].

(** C9.  For the empty buffer [decode] sets decode-failed, keeps the raw
    bytes and returns failure.  It is not in bounds for every buffer: on a
    four-byte PDU [parseS1apPdu] reads the byte at offset 4, and on an
    eight-byte PDU whose first element id starts at the last byte it reads
    the byte at offset 8. *)
Theorem decode_reads_out_of_bounds :
  (forall m, exists m',
     decode [] m = Ok (false, m')
     /\ decode_failed m' = true /\ raw_bytes m' = [])
  /\ length cut_after_length = 4%nat
  /\ decode cut_after_length empty_message = OutOfBounds 4
  /\ length cut_in_element_id = 8%nat
  /\ decode cut_in_element_id empty_message = OutOfBounds 8.
Proof.
  split; [intros m; by eexists|]. repeat split; by vm_compute.
Qed.

End CodecFacts.

(** ** Queries of the subscriber store *)

Module StoreQueries.
Import Correlator.

(** The body shared by [getSubscriberByImsi] and its five siblings: the
    pointer to the record the index names for the identifier; [nullptr]
    when the identifier is not indexed, is indexed to id 0, or the record
    is missing. *)
Definition subscriber_of {K} `{Countable K} (idx : gmap K N) (k : K)
    (st : S1apUeCorrelator) : option N :=
  match idx !! k with
  | Some id =>
      if negb (id =? 0) then
        match subscriber_records_ st !! id with
        | Some _ => Some id
        | None => None
        end
      else None
  | None => None
  end.

Definition getSubscriberByImsi (v : string) (st : S1apUeCorrelator) :=
  subscriber_of (imsi_to_subscriber_id_ st) v st.
Definition getSubscriberByTmsi (v : string) (st : S1apUeCorrelator) :=
  subscriber_of (tmsi_to_subscriber_id_ st) v st.
Definition getSubscriberByEnbUeS1apId (v : N) (st : S1apUeCorrelator) :=
  subscriber_of (enb_ue_s1ap_id_to_subscriber_id_ st) v st.
Definition getSubscriberByMmeUeS1apId (v : N) (st : S1apUeCorrelator) :=
  subscriber_of (mme_ue_s1ap_id_to_subscriber_id_ st) v st.
Definition getSubscriberByTeid (v : N) (st : S1apUeCorrelator) :=
  subscriber_of (teid_to_subscriber_id_ st) v st.
Definition getSubscriberByImeisv (v : string) (st : S1apUeCorrelator) :=
  subscriber_of (imeisv_to_subscriber_id_ st) v st.

(** [getTeidsByImsi]: the TEIDs of the subscriber, in the iteration order
    of its set; empty when there is no such subscriber. *)
Definition getTeidsByImsi (v : string) (st : S1apUeCorrelator) : list N :=
  match getSubscriberByImsi v st with
  | Some p => elements (teids (deref st p))
  | None => []
  end.

Definition getTeidsByTmsi (v : string) (st : S1apUeCorrelator) : list N :=
  match getSubscriberByTmsi v st with
  | Some p => elements (teids (deref st p))
  | None => []
  end.

Definition getTeidsByImeisv (v : string) (st : S1apUeCorrelator) : list N :=
  match getSubscriberByImeisv v st with
  | Some p => elements (teids (deref st p))
  | None => []
  end.

End StoreQueries.

Module StoreProperties.
Import Correlator CorrelatorFacts StoreQueries.

(** *** Normalisation *)

Fixpoint all_chars (P : ascii -> bool) (s : string) : bool :=
  match s with
  | EmptyString => true
  | String c s' => P c && all_chars P s'
  end.

Lemma normalizeImsi_fixed s : all_chars isdigit s = true -> normalizeImsi s = s.
Proof.
  induction s as [|c s IH]; simpl; [done|].
  intros [Hc Hs]%andb_prop. rewrite Hc. by rewrite IH.
Qed.

Lemma normalizeImsi_all_digits s : all_chars isdigit (normalizeImsi s) = true.
Proof.
  induction s as [|c s IH]; simpl; [done|].
  destruct (isdigit c) eqn:Hc; simpl; [by rewrite Hc|done].
Qed.

Lemma normalizeImsi_filter s :
  list_ascii_of_string (normalizeImsi s)
  = List.filter isdigit (list_ascii_of_string s).
Proof.
  induction s as [|c s IH]; simpl; [done|].
  destruct (isdigit c); simpl; by rewrite IH.
Qed.

(** X1.  [normalizeImsi] (and [normalizeImeisv], which calls it) keeps
    exactly the decimal digits: the characters of the result are the
    characters of the argument that are decimal digits, in their order;
    so the result holds digits only, and normalising twice is normalising
    once. *)
Theorem normalizeImsi_keeps_the_digits (s : string) :
  list_ascii_of_string (normalizeImsi s)
  = List.filter isdigit (list_ascii_of_string s)
  /\ all_chars isdigit (normalizeImsi s) = true
  /\ normalizeImsi (normalizeImsi s) = normalizeImsi s
  /\ normalizeImeisv s = normalizeImsi s.
Proof.
  split; [apply normalizeImsi_filter|].
  split; [apply normalizeImsi_all_digits|].
  split; [|done].
  apply normalizeImsi_fixed, normalizeImsi_all_digits.
Qed.

Definition is_lower_hex (c : ascii) : bool :=
  let n := N_of_ascii c in
  ((48 <=? n) && (n <=? 57)) || ((97 <=? n) && (n <=? 102)).

Lemma tolower_xdigit c : isxdigit c = true -> is_lower_hex (tolower c) = true.
Proof.
  destruct c as [[] [] [] [] [] [] [] []]; vm_compute; intros; congruence.
Qed.

Lemma keep_xdigits_lower_hex s :
  all_chars is_lower_hex (keep_xdigits_lower s) = true.
Proof.
  induction s as [|c s IH]; simpl; [done|].
  destruct (isxdigit c) eqn:Hc; simpl; [|done].
  by rewrite tolower_xdigit.
Qed.

Lemma lower_hex_no_prefix s :
  all_chars is_lower_hex s = true ->
  String.eqb (String.substring 0 2 s) "0x" = false.
Proof.
  intros Hs. apply String.eqb_neq. intros Hx.
  destruct s as [|a [|b s]]; simpl in Hx; [done|done|].
  apply andb_prop in Hs as [_ [Hb _]%andb_prop].
  destruct s; simpl in Hx; injection Hx as -> ->; discriminate Hb.
Qed.

Lemma normalizeTmsi_keep s : normalizeTmsi s = keep_xdigits_lower s.
Proof.
  unfold normalizeTmsi.
  rewrite (lower_hex_no_prefix _ (keep_xdigits_lower_hex s)).
  by rewrite andb_false_r.
Qed.

Lemma keep_xdigits_lower_fixed s :
  all_chars is_lower_hex s = true -> keep_xdigits_lower s = s.
Proof.
  induction s as [|c s IH]; simpl; [done|].
  intros [Hc Hs]%andb_prop. rewrite IH by done.
  assert (isxdigit c = true /\ tolower c = c) as [-> ->]; [|done].
  revert Hc. destruct c as [[] [] [] [] [] [] [] []]; vm_compute;
    intros; split; congruence.
Qed.

(** X2.  [normalizeTmsi] keeps the hex digits of its argument in lower
    case and nothing else: the letter x is no hex digit, so the branch
    that strips a leading 0x is never taken, and the 0 of such a prefix
    stays in the result. *)
Theorem normalizeTmsi_never_strips_prefix (s : string) :
  all_chars is_lower_hex (normalizeTmsi s) = true
  /\ normalizeTmsi (normalizeTmsi s) = normalizeTmsi s
  /\ normalizeTmsi ("0x" ++ s) = String "0" (normalizeTmsi s)
  /\ normalizeTmsi ("0X" ++ s) = String "0" (normalizeTmsi s).
Proof.
  rewrite !normalizeTmsi_keep.
  split; [apply keep_xdigits_lower_hex|].
  split; [apply keep_xdigits_lower_fixed, keep_xdigits_lower_hex|].
  split; reflexivity.
Qed.


(** *** The S1AP-id and TEID indexes agree with the records *)

(** The index [idx] and the field [fld] say the same: value [v] is indexed
    to record [id] exactly when record [id] holds [v]. *)
Definition field_consistent {K A} `{Countable K}
    (idx : S1apUeCorrelator -> gmap K N) (fld : SubscriberRecord -> A)
    (has : A -> K -> Prop) (st : S1apUeCorrelator) : Prop :=
  forall v id,
    idx st !! v = Some id
    <-> exists a, fld <$> subscriber_records_ st !! id = Some a /\ has a v.

Definition holds (a : option N) (v : N) : Prop := a = Some v.
Definition contains (a : gset N) (v : N) : Prop := v ∈ a.

Record s1ap_consistent (st : S1apUeCorrelator) : Prop := mk_s1ap_consistent {
  mme_agrees :
    field_consistent mme_ue_s1ap_id_to_subscriber_id_ mme_ue_s1ap_id holds st;
  enb_agrees :
    field_consistent enb_ue_s1ap_id_to_subscriber_id_ enb_ue_s1ap_id holds st;
  teid_agrees : field_consistent teid_to_subscriber_id_ teids contains st
}.

Lemma preserves_consistent {K A} `{Countable K}
    (idx : S1apUeCorrelator -> gmap K N) (fld : SubscriberRecord -> A)
    (has : A -> K -> Prop) f st :
  preserves idx fld f ->
  field_consistent idx fld has st -> field_consistent idx fld has (f st).
Proof.
  intros Hf Hc v id. destruct (Hf st) as [-> Hfld]. rewrite Hfld. apply Hc.
Qed.

Lemma preserves_of_frames {K A} `{Countable K}
    (idx : S1apUeCorrelator -> gmap K N) (fld : SubscriberRecord -> A)
    (drop : SubscriberRecord -> SubscriberRecord) f :
  (forall st, idx (f st) = idx st) ->
  (forall r, fld (drop r) = fld r) ->
  (forall st k, drop <$> subscriber_records_ (f st) !! k
                = drop <$> subscriber_records_ st !! k) ->
  preserves idx fld f.
Proof.
  intros Hidx Hdrop Hrec st. split; [apply Hidx|].
  intros k. by apply (through fld drop).
Qed.

(** An operation on identifiers of another kind. *)
Definition foreign (f : S1apUeCorrelator -> S1apUeCorrelator) : Prop :=
  preserves mme_ue_s1ap_id_to_subscriber_id_ mme_ue_s1ap_id f
  /\ preserves enb_ue_s1ap_id_to_subscriber_id_ enb_ue_s1ap_id f
  /\ preserves teid_to_subscriber_id_ teids f.

Lemma foreign_consistent f st :
  foreign f -> s1ap_consistent st -> s1ap_consistent (f st).
Proof.
  intros (Hm & He & Ht) []. constructor; by apply preserves_consistent.
Qed.

Ltac other_kind drop Hstate Hrec :=
  lazymatch goal with
  | |- preserves ?idx _ _ =>
      apply (preserves_of_frames _ _ drop);
      [ let st' := fresh in intros st'; exact (f_equal idx (Hstate st'))
      | by intros []
      | let st' := fresh in let k := fresh in intros st' k; apply Hrec ]
  end.

Lemma associateImsi_foreign s id v : foreign (associateImsi s id v).
Proof.
  split; [|split];
    other_kind drop_imsi (associateImsi_state s id v)
               (associateImsi_records s id v).
Qed.


Lemma associateTmsi_foreign s id v : foreign (associateTmsi s id v).
Proof.
  split; [|split];
    other_kind drop_tmsi (associateTmsi_state s id v)
               (associateTmsi_records s id v).
Qed.

Lemma associateImeisv_foreign s id v : foreign (associateImeisv s id v).
Proof.
  split; [|split];
    other_kind drop_imeisv (associateImeisv_state s id v)
               (associateImeisv_records s id v).
Qed.

Lemma removeImsi_foreign v : foreign (removeImsiAssociation v).
Proof.
  split; [|split];
    other_kind drop_imsi (removeImsi_state v) (removeImsi_records v).
Qed.

Lemma removeTmsi_foreign v : foreign (removeTmsiAssociation v).
Proof.
  split; [|split];
    other_kind drop_tmsi (removeTmsi_state v) (removeTmsi_records v).
Qed.

Lemma removeImeisv_foreign v : foreign (removeImeisvAssociation v).
Proof.
  split; [|split];
    other_kind drop_imeisv (removeImeisv_state v) (removeImeisv_records v).
Qed.

Lemma update_timestamps_foreign p t : foreign (update_timestamps p t).
Proof.
  split; [|split];
    other_kind drop_ts (update_timestamps_state p t)
               (update_timestamps_records p t).
Qed.

Lemma when_some_foreign {A} (o : option A) f :
  (forall v, foreign (f v)) -> foreign (when_some o f).
Proof.
  intros Hf. destruct o; simpl; [apply Hf|].
  by split; [|split]; intros st.
Qed.

(** An option field read through a lookup. *)
Lemma field_lookup {A} (fld : SubscriberRecord -> A)
    (m : gmap N SubscriberRecord) k a :
  fld <$> m !! k = Some a <-> exists r, m !! k = Some r /\ fld r = a.
Proof.
  destruct (m !! k) as [r|]; simpl; [|naive_solver].
  split; [intros [= <-]; eauto|]. by intros (? & [= <-] & <-).
Qed.

Lemma holds_consistent (idx : S1apUeCorrelator -> gmap N N)
    (fld : SubscriberRecord -> option N) st :
  field_consistent idx fld holds st
  <-> forall v id, idx st !! v = Some id
                   <-> fld <$> subscriber_records_ st !! id = Some (Some v).
Proof.
  unfold field_consistent, holds.
  split; intros Hc v id; rewrite Hc; naive_solver.
Qed.

Ltac lookups :=
  repeat first [ rewrite lookup_insert | rewrite lookup_alter
               | rewrite lookup_delete ];
  repeat case_decide; subst.

(** [associateMmeUeS1apId] on an existing record, as one update of the
    records and one of the index. *)
Lemma associateMme_unfold p v st rp :
  subscriber_records_ st !! p = Some rp ->
  associateMmeUeS1apId (Some p) p v st
  = with_mme_index
      (<[v := p]>
         match mme_ue_s1ap_id rp with
         | Some old => if negb (old =? v)
                       then delete old (mme_ue_s1ap_id_to_subscriber_id_ st)
                       else mme_ue_s1ap_id_to_subscriber_id_ st
         | None => mme_ue_s1ap_id_to_subscriber_id_ st
         end)
      (with_records
         (alter (set_mme (Some v)) p
            match mme_ue_s1ap_id_to_subscriber_id_ st !! v with
            | Some other => if negb (other =? p)
                            then alter (set_mme None) other
                                   (subscriber_records_ st)
                            else subscriber_records_ st
            | None => subscriber_records_ st
            end) st).
Proof.
  intros Hp. unfold associateMmeUeS1apId, update_record, deref.
  destruct (mme_ue_s1ap_id_to_subscriber_id_ st !! v) as [other|] eqn:Hv.
  - destruct (N.eqb_spec other p) as [->|Hne]; cbn [negb].
    + rewrite Hp. simpl. by destruct (mme_ue_s1ap_id rp) as [old|]; [destruct (old =? v)|].
    + simpl. rewrite lookup_alter_ne by done. rewrite Hp. simpl.
      by destruct (mme_ue_s1ap_id rp) as [old|]; [destruct (old =? v)|].
  - rewrite Hp. simpl. by destruct (mme_ue_s1ap_id rp) as [old|]; [destruct (old =? v)|].
Qed.

Lemma associateMme_consistent p v st :
  is_Some (subscriber_records_ st !! p) ->
  field_consistent mme_ue_s1ap_id_to_subscriber_id_ mme_ue_s1ap_id holds st ->
  field_consistent mme_ue_s1ap_id_to_subscriber_id_ mme_ue_s1ap_id holds
    (associateMmeUeS1apId (Some p) p v st).
Proof.
  intros [rp Hp]. rewrite !holds_consistent. intros Hc w id.
  rewrite (associateMme_unfold p v st rp Hp).
  cbn [mme_ue_s1ap_id_to_subscriber_id_ subscriber_records_ with_mme_index
       with_records].
  pose proof (Hc v) as Hcv.
  pose proof (Hc w id) as Hwid. pose proof (Hc w p) as Hwp.
  assert (forall o, mme_ue_s1ap_id rp = Some o
                    <-> mme_ue_s1ap_id_to_subscriber_id_ st !! o = Some p) as Hold.
  { intros o. rewrite (Hc o p), Hp. simpl. split; [by intros ->|by intros [= ->]]. }
  destruct (mme_ue_s1ap_id_to_subscriber_id_ st !! v) as [other|] eqn:Hv;
    destruct (mme_ue_s1ap_id rp) as [old|] eqn:Ho;
    repeat match goal with
           | |- context [negb (?a =? ?b)] =>
               destruct (N.eqb_spec a b); subst; cbn [negb]
           end;
    lookups;
    rewrite ?Hp in *;
    destruct (subscriber_records_ st !! id) as [rid|] eqn:Hid;
    simplify_eq/=; naive_solver.
Qed.

(** [associateEnbUeS1apId] on an existing record, as one update of the
    records and one of the index. *)
Lemma associateEnb_unfold p v st rp :
  subscriber_records_ st !! p = Some rp ->
  associateEnbUeS1apId (Some p) p v st
  = with_enb_index
      (<[v := p]>
         match enb_ue_s1ap_id rp with
         | Some old => if negb (old =? v)
                       then delete old (enb_ue_s1ap_id_to_subscriber_id_ st)
                       else enb_ue_s1ap_id_to_subscriber_id_ st
         | None => enb_ue_s1ap_id_to_subscriber_id_ st
         end)
      (with_records
         (alter (set_enb (Some v)) p
            match enb_ue_s1ap_id_to_subscriber_id_ st !! v with
            | Some other => if negb (other =? p)
                            then alter (set_enb None) other
                                   (subscriber_records_ st)
                            else subscriber_records_ st
            | None => subscriber_records_ st
            end) st).
Proof.
  intros Hp. unfold associateEnbUeS1apId, update_record, deref.
  destruct (enb_ue_s1ap_id_to_subscriber_id_ st !! v) as [other|] eqn:Hv.
  - destruct (N.eqb_spec other p) as [->|Hne]; cbn [negb].
    + rewrite Hp. simpl. by destruct (enb_ue_s1ap_id rp) as [old|]; [destruct (old =? v)|].
    + simpl. rewrite lookup_alter_ne by done. rewrite Hp. simpl.
      by destruct (enb_ue_s1ap_id rp) as [old|]; [destruct (old =? v)|].
  - rewrite Hp. simpl. by destruct (enb_ue_s1ap_id rp) as [old|]; [destruct (old =? v)|].
Qed.

Lemma associateEnb_consistent p v st :
  is_Some (subscriber_records_ st !! p) ->
  field_consistent enb_ue_s1ap_id_to_subscriber_id_ enb_ue_s1ap_id holds st ->
  field_consistent enb_ue_s1ap_id_to_subscriber_id_ enb_ue_s1ap_id holds
    (associateEnbUeS1apId (Some p) p v st).
Proof.
  intros [rp Hp]. rewrite !holds_consistent. intros Hc w id.
  rewrite (associateEnb_unfold p v st rp Hp).
  cbn [enb_ue_s1ap_id_to_subscriber_id_ subscriber_records_ with_enb_index
       with_records].
  pose proof (Hc v) as Hcv.
  pose proof (Hc w id) as Hwid. pose proof (Hc w p) as Hwp.
  assert (forall o, enb_ue_s1ap_id rp = Some o
                    <-> enb_ue_s1ap_id_to_subscriber_id_ st !! o = Some p) as Hold.
  { intros o. rewrite (Hc o p), Hp. simpl. split; [by intros ->|by intros [= ->]]. }
  destruct (enb_ue_s1ap_id_to_subscriber_id_ st !! v) as [other|] eqn:Hv;
    destruct (enb_ue_s1ap_id rp) as [old|] eqn:Ho;
    repeat match goal with
           | |- context [negb (?a =? ?b)] =>
               destruct (N.eqb_spec a b); subst; cbn [negb]
           end;
    lookups;
    rewrite ?Hp in *;
    destruct (subscriber_records_ st !! id) as [rid|] eqn:Hid;
    simplify_eq/=; naive_solver.
Qed.



Lemma contains_consistent st :
  field_consistent teid_to_subscriber_id_ teids contains st
  <-> forall v id, teid_to_subscriber_id_ st !! v = Some id
                   <-> v ∈ default ∅ (teids <$> subscriber_records_ st !! id).
Proof.
  unfold field_consistent, contains.
  split; intros Hc v id; rewrite Hc; clear Hc;
    destruct (subscriber_records_ st !! id); simpl;
    [naive_solver|set_solver|naive_solver|set_solver].
Qed.

Lemma associateTeid_consistent p v st :
  is_Some (subscriber_records_ st !! p) -> p <> 0 ->
  subscriber_records_ st !! 0 = None ->
  field_consistent teid_to_subscriber_id_ teids contains st ->
  field_consistent teid_to_subscriber_id_ teids contains
    (associateTeid (Some p) p v st).
Proof.
  intros [rp Hp] Hp0 Hzero. rewrite !contains_consistent. intros Hc w id.
  pose proof (Hc w id) as Hwid. pose proof (Hc v) as Hcv.
  pose proof (Hc w p) as Hwp.
  unfold associateTeid, update_record.
  apply N.eqb_neq in Hp0 as Hp0'. rewrite Hp0'.
  destruct (teid_to_subscriber_id_ st !! v) as [old|] eqn:Hv;
    repeat match goal with
           | |- context [negb (?a =? ?b)] =>
               destruct (N.eqb_spec a b); subst; cbn [negb andb]
           end;
    cbn [teid_to_subscriber_id_ subscriber_records_ with_teid_index
         with_records];
    lookups; rewrite ?Hp in *;
    destruct (subscriber_records_ st !! id) as [rid|] eqn:Hid;
    simplify_eq/=; set_unfold; naive_solver.
Qed.


(** *** Removals *)

Lemma removeMme_consistent v st :
  field_consistent mme_ue_s1ap_id_to_subscriber_id_ mme_ue_s1ap_id holds st ->
  field_consistent mme_ue_s1ap_id_to_subscriber_id_ mme_ue_s1ap_id holds
    (removeMmeUeS1apIdAssociation v st).
Proof.
  rewrite !holds_consistent. intros Hc w id.
  pose proof (Hc w id) as Hwid. pose proof (Hc v) as Hcv.
  unfold removeMmeUeS1apIdAssociation, update_record.
  destruct (mme_ue_s1ap_id_to_subscriber_id_ st !! v) as [old|] eqn:Hv;
    [|done].
  destruct (N.eqb_spec old 0); subst; cbn [negb]; [done|].
  cbn [mme_ue_s1ap_id_to_subscriber_id_ subscriber_records_ with_mme_index
       with_records].
  pose proof (Hcv old) as Hold_.
  lookups;
    destruct (subscriber_records_ st !! id) as [rid|] eqn:Hid;
    simplify_eq/=; naive_solver.
Qed.

Lemma removeEnb_consistent v st :
  field_consistent enb_ue_s1ap_id_to_subscriber_id_ enb_ue_s1ap_id holds st ->
  field_consistent enb_ue_s1ap_id_to_subscriber_id_ enb_ue_s1ap_id holds
    (removeEnbUeS1apIdAssociation v st).
Proof.
  rewrite !holds_consistent. intros Hc w id.
  pose proof (Hc w id) as Hwid. pose proof (Hc v) as Hcv.
  unfold removeEnbUeS1apIdAssociation, update_record.
  destruct (enb_ue_s1ap_id_to_subscriber_id_ st !! v) as [old|] eqn:Hv;
    [|done].
  destruct (N.eqb_spec old 0); subst; cbn [negb]; [done|].
  cbn [enb_ue_s1ap_id_to_subscriber_id_ subscriber_records_ with_enb_index
       with_records].
  pose proof (Hcv old) as Hold_.
  lookups;
    destruct (subscriber_records_ st !! id) as [rid|] eqn:Hid;
    simplify_eq/=; naive_solver.
Qed.

Lemma removeTeid_consistent v st :
  field_consistent teid_to_subscriber_id_ teids contains st ->
  field_consistent teid_to_subscriber_id_ teids contains
    (removeTeidAssociation v st).
Proof.
  rewrite !contains_consistent. intros Hc w id.
  pose proof (Hc w id) as Hwid. pose proof (Hc v) as Hcv.
  unfold removeTeidAssociation, update_record.
  destruct (teid_to_subscriber_id_ st !! v) as [old|] eqn:Hv; [|done].
  destruct (N.eqb_spec old 0); subst; cbn [negb]; [done|].
  cbn [teid_to_subscriber_id_ subscriber_records_ with_teid_index
       with_records].
  pose proof (Hcv old) as Hold_.
  lookups;
    destruct (subscriber_records_ st !! id) as [rid|] eqn:Hid;
    simplify_eq/=; set_unfold; naive_solver.
Qed.


(** *** Every operation keeps the three indexes consistent *)

Lemma associateMme_keeps_consistent p v st :
  is_Some (subscriber_records_ st !! p) ->
  s1ap_consistent st -> s1ap_consistent (associateMmeUeS1apId (Some p) p v st).
Proof.
  intros Hp []. constructor.
  - by apply associateMme_consistent.
  - apply preserves_consistent; [|done].
    other_kind drop_mme (associateMme_state (Some p) p v)
               (associateMme_records (Some p) p v).
  - apply preserves_consistent; [|done].
    other_kind drop_mme (associateMme_state (Some p) p v)
               (associateMme_records (Some p) p v).
Qed.

Lemma associateEnb_keeps_consistent p v st :
  is_Some (subscriber_records_ st !! p) ->
  s1ap_consistent st -> s1ap_consistent (associateEnbUeS1apId (Some p) p v st).
Proof.
  intros Hp []. constructor.
  - apply preserves_consistent; [|done].
    other_kind drop_enb (associateEnb_state (Some p) p v)
               (associateEnb_records (Some p) p v).
  - by apply associateEnb_consistent.
  - apply preserves_consistent; [|done].
    other_kind drop_enb (associateEnb_state (Some p) p v)
               (associateEnb_records (Some p) p v).
Qed.

Lemma associateTeid_keeps_consistent p v st :
  is_Some (subscriber_records_ st !! p) -> p <> 0 ->
  subscriber_records_ st !! 0 = None ->
  s1ap_consistent st -> s1ap_consistent (associateTeid (Some p) p v st).
Proof.
  intros Hp Hp0 Hzero []. constructor.
  - apply preserves_consistent; [|done].
    other_kind drop_teids (associateTeid_state (Some p) p v)
               (associateTeid_records (Some p) p v).
  - apply preserves_consistent; [|done].
    other_kind drop_teids (associateTeid_state (Some p) p v)
               (associateTeid_records (Some p) p v).
  - by apply associateTeid_consistent.
Qed.

Lemma removeMme_keeps_consistent v st :
  s1ap_consistent st -> s1ap_consistent (removeMmeUeS1apIdAssociation v st).
Proof.
  intros []. constructor.
  - by apply removeMme_consistent.
  - apply preserves_consistent; [|done].
    other_kind drop_mme (removeMme_state v) (removeMme_records v).
  - apply preserves_consistent; [|done].
    other_kind drop_mme (removeMme_state v) (removeMme_records v).
Qed.

Lemma removeEnb_keeps_consistent v st :
  s1ap_consistent st -> s1ap_consistent (removeEnbUeS1apIdAssociation v st).
Proof.
  intros []. constructor.
  - apply preserves_consistent; [|done].
    other_kind drop_enb (removeEnb_state v) (removeEnb_records v).
  - by apply removeEnb_consistent.
  - apply preserves_consistent; [|done].
    other_kind drop_enb (removeEnb_state v) (removeEnb_records v).
Qed.

Lemma removeTeid_keeps_consistent v st :
  s1ap_consistent st -> s1ap_consistent (removeTeidAssociation v st).
Proof.
  intros []. constructor.
  - apply preserves_consistent; [|done].
    other_kind drop_teids (removeTeid_state v) (removeTeid_records v).
  - apply preserves_consistent; [|done].
    other_kind drop_teids (removeTeid_state v) (removeTeid_records v).
  - by apply removeTeid_consistent.
Qed.

(** A new record holds no identifier, and no index names its id yet. *)
Lemma create_consistent st :
  ids_wf st -> s1ap_consistent st ->
  s1ap_consistent
    (with_records
       (<[next_subscriber_id_ st := new_record]> (subscriber_records_ st))
       (with_next (u64_succ (next_subscriber_id_ st)) st)).
Proof.
  intros Hwf [Hm He Ht].
  rewrite holds_consistent in Hm, He. rewrite contains_consistent in Ht.
  constructor; rewrite ?holds_consistent, ?contains_consistent;
    intros v id; cbn [mme_ue_s1ap_id_to_subscriber_id_
      enb_ue_s1ap_id_to_subscriber_id_ teid_to_subscriber_id_
      subscriber_records_ with_records with_next];
    rewrite lookup_insert; case_decide; subst; simpl; auto.
  - split; [intros H%(wf_mme _ Hwf); lia|done].
  - split; [intros H%(wf_enb _ Hwf); lia|done].
  - split; [intros H%(wf_teid _ Hwf); lia|set_solver].
Qed.

(** Well-formed ids together with consistent S1AP-id and TEID indexes. *)
Definition keeps_inv (id : N) (f : S1apUeCorrelator -> S1apUeCorrelator)
    : Prop :=
  forall st, ids_wf st -> valid_in id st -> s1ap_consistent st ->
    ids_wf (f st) /\ next_subscriber_id_ (f st) = next_subscriber_id_ st
    /\ s1ap_consistent (f st).

Lemma keeps_inv_intro id f :
  keeps_valid id f ->
  (forall st, ids_wf st -> valid_in id st -> s1ap_consistent st ->
     s1ap_consistent (f st)) ->
  keeps_inv id f.
Proof.
  intros Hv Hc st Hwf Hid Hs. destruct (Hv st Hwf Hid). auto.
Qed.

Lemma keeps_inv_compose id f g :
  keeps_inv id f -> keeps_inv id g -> keeps_inv id (fun st => g (f st)).
Proof.
  intros Hf Hg st Hwf Hid Hs. destruct (Hf st Hwf Hid Hs) as (Hwf1 & E1 & Hs1).
  destruct (Hg _ Hwf1) as (Hwf2 & E2 & Hs2);
    [unfold valid_in; by rewrite E1|done|].
  split; [done|]. split; [congruence|done].
Qed.

Lemma keeps_inv_when_some {A} id (o : option A) f :
  (forall v, keeps_inv id (f v)) -> keeps_inv id (when_some o f).
Proof. intros Hf. destruct o; simpl; [apply Hf|]. by intros st Hwf _. Qed.

Lemma valid_is_Some id st :
  ids_wf st -> valid_in id st -> is_Some (subscriber_records_ st !! id).
Proof. intros Hwf Hid. by apply (wf_dom _ Hwf). Qed.

Lemma wf_no_zero st : ids_wf st -> subscriber_records_ st !! 0 = None.
Proof.
  intros Hwf. apply eq_None_not_Some. intros H%(wf_dom _ Hwf). lia.
Qed.

Lemma associateImsi_inv id v : keeps_inv id (associateImsi (Some id) id v).
Proof.
  apply keeps_inv_intro; [apply associateImsi_keeps|].
  intros st _ _. apply foreign_consistent, associateImsi_foreign.
Qed.
Lemma associateTmsi_inv id v : keeps_inv id (associateTmsi (Some id) id v).
Proof.
  apply keeps_inv_intro; [apply associateTmsi_keeps|].
  intros st _ _. apply foreign_consistent, associateTmsi_foreign.
Qed.
Lemma associateImeisv_inv id v : keeps_inv id (associateImeisv (Some id) id v).
Proof.
  apply keeps_inv_intro; [apply associateImeisv_keeps|].
  intros st _ _. apply foreign_consistent, associateImeisv_foreign.
Qed.
Lemma associateMme_inv id v :
  keeps_inv id (associateMmeUeS1apId (Some id) id v).
Proof.
  apply keeps_inv_intro; [apply associateMme_keeps|].
  intros st Hwf Hid. by apply associateMme_keeps_consistent, valid_is_Some.
Qed.
Lemma associateEnb_inv id v :
  keeps_inv id (associateEnbUeS1apId (Some id) id v).
Proof.
  apply keeps_inv_intro; [apply associateEnb_keeps|].
  intros st Hwf Hid. by apply associateEnb_keeps_consistent, valid_is_Some.
Qed.
Lemma associateTeid_inv id v : keeps_inv id (associateTeid (Some id) id v).
Proof.
  apply keeps_inv_intro; [apply associateTeid_keeps|].
  intros st Hwf Hid. apply associateTeid_keeps_consistent.
  - by apply valid_is_Some.
  - unfold valid_in in Hid. lia.
  - by apply wf_no_zero.
Qed.

Lemma associateTeids_inv id l : keeps_inv id (associateTeids (Some id) id l).
Proof.
  unfold associateTeids.
  induction l as [|t l IH]; simpl; [by intros st Hwf _|].
  apply (keeps_inv_compose id (associateTeid (Some id) id t) _
           (associateTeid_inv id t) IH).
Qed.


(** An association leaves the index and the field of every other kind
    alone. *)
Ltac solve_preserves :=
  lazymatch goal with
  | |- preserves _ _ (associateImsi ?s ?id ?v) =>
      other_kind drop_imsi (associateImsi_state s id v)
                 (associateImsi_records s id v)
  | |- preserves _ _ (associateTmsi ?s ?id ?v) =>
      other_kind drop_tmsi (associateTmsi_state s id v)
                 (associateTmsi_records s id v)
  | |- preserves _ _ (associateImeisv ?s ?id ?v) =>
      other_kind drop_imeisv (associateImeisv_state s id v)
                 (associateImeisv_records s id v)
  | |- preserves _ _ (associateEnbUeS1apId ?s ?id ?v) =>
      other_kind drop_enb (associateEnb_state s id v)
                 (associateEnb_records s id v)
  | |- preserves _ _ (associateMmeUeS1apId ?s ?id ?v) =>
      other_kind drop_mme (associateMme_state s id v)
                 (associateMme_records s id v)
  | |- preserves _ _ (associateTeid ?s ?id ?v) =>
      other_kind drop_teids (associateTeid_state s id v)
                 (associateTeid_records s id v)
  | |- preserves _ _ (associateTeids ?s ?id ?l) =>
      other_kind drop_teids (associateTeids_state s id l)
                 (associateTeids_records s id l)
  | |- preserves _ _ (update_timestamps ?p ?t) =>
      other_kind drop_ts (update_timestamps_state p t)
                 (update_timestamps_records p t)
  | |- preserves _ _ (removeMmeUeS1apIdAssociation ?v) =>
      other_kind drop_mme (removeMme_state v) (removeMme_records v)
  | |- preserves _ _ (removeEnbUeS1apIdAssociation ?v) =>
      other_kind drop_enb (removeEnb_state v) (removeEnb_records v)
  end.

(** A chain of associations is taken apart one call at a time. *)
Ltac preserves_chain :=
  lazymatch goal with
  | |- preserves ?idx ?fld (fun a => when_some ?o ?f a) =>
      apply (preserves_when_some idx fld o f); intros ?; solve_preserves
  | |- preserves ?idx ?fld (when_some ?o ?f) =>
      apply (preserves_when_some idx fld o f); intros ?; solve_preserves
  | |- preserves ?idx ?fld (fun a => when_some ?o ?f (@?g a)) =>
      apply (preserves_compose idx fld g (when_some o f));
        [preserves_chain
        |apply (preserves_when_some idx fld o f); intros ?; solve_preserves]
  | |- preserves ?idx ?fld (fun a => ?h a) =>
      change (preserves idx fld h); solve_preserves
  | |- preserves ?idx ?fld (fun a => ?h (@?g a)) =>
      apply (preserves_compose idx fld g h);
        [preserves_chain|solve_preserves]
  | |- _ => solve_preserves
  end.

(** *** getOrCreateSubscriber *)

Lemma getOrCreateSubscriber_inv i t enb mme teid v st :
  ids_wf st -> next_subscriber_id_ st < 2 ^ 64 - 1 -> s1ap_consistent st ->
  s1ap_consistent (getOrCreateSubscriber i t enb mme teid v st).2.
Proof.
  intros Hwf Hlt Hs. unfold getOrCreateSubscriber.
  pose proof (lookup_subscriber_ok st i t enb mme teid v Hwf) as Hfound.
  set (found := lookup_subscriber st i t enb mme teid v) in *.
  set (created := with_records _ _).
  assert (exists id st0, (if found =? 0 then (next_subscriber_id_ st, created)
                          else (found, st)) = (id, st0)
           /\ ids_wf st0 /\ valid_in id st0 /\ s1ap_consistent st0)
    as (id & st0 & -> & Hwf0 & Hid & Hs0).
  { destruct (found =? 0) eqn:E.
    - exists (next_subscriber_id_ st), created. subst created.
      split; [done|]. split; [by apply create_wf|].
      split; [|by apply create_consistent].
      unfold valid_in. simpl. rewrite u64_succ_small by done.
      destruct Hwf. lia.
    - exists found, st. apply N.eqb_neq in E.
      destruct Hfound as [?|?]; [done|]. done. }
  rewrite record_ref_id by (by apply valid_is_Some).
  exact (proj2 (proj2
    (keeps_inv_compose id _ _
      (keeps_inv_compose id _ _
        (keeps_inv_compose id _ _
          (keeps_inv_compose id _ _
            (keeps_inv_compose id _ _
               (keeps_inv_when_some id i _ (associateImsi_inv id))
               (keeps_inv_when_some id t _ (associateTmsi_inv id)))
            (keeps_inv_when_some id enb _ (associateEnb_inv id)))
          (keeps_inv_when_some id mme _ (associateMme_inv id)))
        (keeps_inv_when_some id teid _ (associateTeid_inv id)))
      (keeps_inv_when_some id v _ (associateImeisv_inv id))
      st0 Hwf0 Hid Hs0))).
Qed.

Section MoreEffects.
Variables (p id : N) (st : S1apUeCorrelator).
Hypothesis Hp : is_Some (subscriber_records_ st !! p).

Lemma associateTmsi_effect v :
  tmsi_to_subscriber_id_ (associateTmsi (Some p) id v st) !! v = Some id.
Proof. unfold associateTmsi. effect. Qed.

Lemma associateImeisv_effect v :
  imeisv_to_subscriber_id_ (associateImeisv (Some p) id v st) !! v = Some id.
Proof. unfold associateImeisv. effect. Qed.
End MoreEffects.

Lemma records_frame_is_Some (drop : SubscriberRecord -> SubscriberRecord)
    st' st k :
  (forall k, drop <$> subscriber_records_ st' !! k
             = drop <$> subscriber_records_ st !! k) ->
  is_Some (subscriber_records_ st !! k) ->
  is_Some (subscriber_records_ st' !! k).
Proof. intros Hrec. by apply (frame_is_Some drop). Qed.

Section TeidEffect.
Variables (p id : N) (st : S1apUeCorrelator).
Hypothesis Hp : is_Some (subscriber_records_ st !! p).

Lemma associateTeid_effect v :
  id <> 0 ->
  teid_to_subscriber_id_ (associateTeid (Some p) id v st) !! v = Some id.
Proof. intros ?%N.eqb_neq. unfold associateTeid. effect; congruence. Qed.
End TeidEffect.

(** The associations [getOrCreateSubscriber] makes on the record it found
    or created. *)
Definition associate_given (id : N) (i t : option string)
    (enb mme teid : option N) (v : option string) (a : S1apUeCorrelator)
    : S1apUeCorrelator :=
  when_some v (associateImeisv (Some id) id)
    (when_some teid (associateTeid (Some id) id)
       (when_some mme (associateMmeUeS1apId (Some id) id)
          (when_some enb (associateEnbUeS1apId (Some id) id)
             (when_some t (associateTmsi (Some id) id)
                (when_some i (associateImsi (Some id) id) a))))).

Lemma getOrCreateSubscriber_unfold i t enb mme teid v st :
  getOrCreateSubscriber i t enb mme teid v st
  = let found := lookup_subscriber st i t enb mme teid v in
    let before :=
      if found =? 0
      then (next_subscriber_id_ st,
            with_records
              (<[next_subscriber_id_ st := new_record]> (subscriber_records_ st))
              (with_next (u64_succ (next_subscriber_id_ st)) st))
      else (found, st) in
    (Some before.1,
     associate_given before.1 i t enb mme teid v
       (record_ref before.1 before.2)).
Proof.
  unfold getOrCreateSubscriber, associate_given.
  by destruct (lookup_subscriber st i t enb mme teid v =? 0).
Qed.

Lemma when_some_next {A} (o : option A) f st :
  (forall x a, next_subscriber_id_ (f x a) = next_subscriber_id_ a) ->
  next_subscriber_id_ (when_some o f st) = next_subscriber_id_ st.
Proof. intros Hf. destruct o; simpl; [apply Hf|done]. Qed.

Lemma associate_given_next id i t enb mme teid v a :
  next_subscriber_id_ (associate_given id i t enb mme teid v a)
  = next_subscriber_id_ a.
Proof.
  unfold associate_given.
  rewrite when_some_next by (intros; apply associateImeisv_next).
  rewrite when_some_next by (intros; apply associateTeid_next).
  rewrite when_some_next by (intros; apply associateMme_next).
  rewrite when_some_next by (intros; apply associateEnb_next).
  rewrite when_some_next by (intros; apply associateTmsi_next).
  by rewrite when_some_next by (intros; apply associateImsi_next).
Qed.

(** Every identifier given is indexed to [id] afterwards. *)
Lemma associate_given_indexed id i t enb mme teid v a0 :
  id <> 0 -> is_Some (subscriber_records_ a0 !! id) ->
  let r := associate_given id i t enb mme teid v a0 in
  (forall x, i = Some x -> imsi_to_subscriber_id_ r !! x = Some id)
  /\ (forall x, t = Some x -> tmsi_to_subscriber_id_ r !! x = Some id)
  /\ (forall x, v = Some x -> imeisv_to_subscriber_id_ r !! x = Some id)
  /\ (forall x, mme = Some x ->
        mme_ue_s1ap_id_to_subscriber_id_ r !! x = Some id)
  /\ (forall x, enb = Some x ->
        enb_ue_s1ap_id_to_subscriber_id_ r !! x = Some id)
  /\ (forall x, teid = Some x -> teid_to_subscriber_id_ r !! x = Some id).
Proof.
  intros Hid H0. unfold associate_given.
  set (a1 := when_some i (associateImsi (Some id) id) a0).
  set (a2 := when_some t (associateTmsi (Some id) id) a1).
  set (a3 := when_some enb (associateEnbUeS1apId (Some id) id) a2).
  set (a4 := when_some mme (associateMmeUeS1apId (Some id) id) a3).
  set (a5 := when_some teid (associateTeid (Some id) id) a4).
  set (a6 := when_some v (associateImeisv (Some id) id) a5).
  assert (is_Some (subscriber_records_ a1 !! id)) as H1.
  { subst a1. destruct i; cbn [when_some]; [|done].
    apply (records_frame_is_Some drop_imsi _ a0);
      [intros k; apply associateImsi_records|done]. }
  assert (is_Some (subscriber_records_ a2 !! id)) as H2.
  { subst a2. destruct t; cbn [when_some]; [|done].
    apply (records_frame_is_Some drop_tmsi _ a1);
      [intros k; apply associateTmsi_records|done]. }
  assert (is_Some (subscriber_records_ a3 !! id)) as H3.
  { subst a3. destruct enb; cbn [when_some]; [|done].
    apply (records_frame_is_Some drop_enb _ a2);
      [intros k; apply associateEnb_records|done]. }
  assert (is_Some (subscriber_records_ a4 !! id)) as H4.
  { subst a4. destruct mme; cbn [when_some]; [|done].
    apply (records_frame_is_Some drop_mme _ a3);
      [intros k; apply associateMme_records|done]. }
  assert (is_Some (subscriber_records_ a5 !! id)) as H5.
  { subst a5. destruct teid; cbn [when_some]; [|done].
    apply (records_frame_is_Some drop_teids _ a4);
      [intros k; apply associateTeid_records|done]. }
  assert (preserves imsi_to_subscriber_id_ imsi
            (fun a => when_some v (associateImeisv (Some id) id)
               (when_some teid (associateTeid (Some id) id)
                  (when_some mme (associateMmeUeS1apId (Some id) id)
                     (when_some enb (associateEnbUeS1apId (Some id) id)
                        (when_some t (associateTmsi (Some id) id) a))))))
    as Pi by preserves_chain.
  assert (preserves tmsi_to_subscriber_id_ tmsi
            (fun a => when_some v (associateImeisv (Some id) id)
               (when_some teid (associateTeid (Some id) id)
                  (when_some mme (associateMmeUeS1apId (Some id) id)
                     (when_some enb (associateEnbUeS1apId (Some id) id) a)))))
    as Pt by preserves_chain.
  assert (preserves enb_ue_s1ap_id_to_subscriber_id_ enb_ue_s1ap_id
            (fun a => when_some v (associateImeisv (Some id) id)
               (when_some teid (associateTeid (Some id) id)
                  (when_some mme (associateMmeUeS1apId (Some id) id) a))))
    as Pe by preserves_chain.
  assert (preserves mme_ue_s1ap_id_to_subscriber_id_ mme_ue_s1ap_id
            (fun a => when_some v (associateImeisv (Some id) id)
               (when_some teid (associateTeid (Some id) id) a))) as Pm
    by preserves_chain.
  assert (preserves teid_to_subscriber_id_ teids
            (fun a => when_some v (associateImeisv (Some id) id) a)) as Pd
    by preserves_chain.
  split; [|split; [|split; [|split; [|split]]]]; intros x ->.
  - subst a6 a5 a4 a3 a2. rewrite (proj1 (Pi a1)).
    by apply associateImsi_effect.
  - subst a6 a5 a4 a3. rewrite (proj1 (Pt a2)).
    by apply associateTmsi_effect.
  - by apply associateImeisv_effect.
  - subst a6 a5. rewrite (proj1 (Pm a4)). by apply associateMme_effect.
  - subst a6 a5 a4. rewrite (proj1 (Pe a3)). by apply associateEnb_effect.
  - subst a6. rewrite (proj1 (Pd a5)). by apply associateTeid_effect.
Qed.

(** After [getOrCreateSubscriber] every identifier it was called with is
    indexed to the record it returns. *)
Lemma getOrCreateSubscriber_indexed i t enb mme teid v st :
  next_subscriber_id_ st <> 0 ->
  let r := getOrCreateSubscriber i t enb mme teid v st in
  exists p, r.1 = Some p /\ p <> 0
    /\ (forall x, i = Some x -> imsi_to_subscriber_id_ r.2 !! x = Some p)
    /\ (forall x, t = Some x -> tmsi_to_subscriber_id_ r.2 !! x = Some p)
    /\ (forall x, v = Some x -> imeisv_to_subscriber_id_ r.2 !! x = Some p)
    /\ (forall x, mme = Some x ->
          mme_ue_s1ap_id_to_subscriber_id_ r.2 !! x = Some p)
    /\ (forall x, enb = Some x ->
          enb_ue_s1ap_id_to_subscriber_id_ r.2 !! x = Some p).
Proof.
  intros Hnext. rewrite getOrCreateSubscriber_unfold. cbv zeta.
  set (before := if _ =? 0 then _ else _).
  assert (before.1 <> 0) as Hid.
  { subst before. destruct (_ =? 0) eqn:E; [done|]. by apply N.eqb_neq in E. }
  destruct (associate_given_indexed before.1 i t enb mme teid v
              (record_ref before.1 before.2) Hid
              (record_ref_is_Some _ _)) as (Hi & Ht & Hv & Hm & He & _).
  exists before.1. cbn [fst snd]. auto 10.
Qed.

(** *** A known identifier decides the record *)

Lemma getOrCreateSubscriber_found i t enb mme teid v st :
  lookup_subscriber st i t enb mme teid v <> 0 ->
  getOrCreateSubscriber i t enb mme teid v st
  = (Some (lookup_subscriber st i t enb mme teid v),
     associate_given (lookup_subscriber st i t enb mme teid v)
       i t enb mme teid v
       (record_ref (lookup_subscriber st i t enb mme teid v) st)).
Proof.
  intros Hf%N.eqb_neq. rewrite getOrCreateSubscriber_unfold. cbv zeta.
  by rewrite Hf.
Qed.

Lemma record_ref_next id st :
  next_subscriber_id_ (record_ref id st) = next_subscriber_id_ st.
Proof. unfold record_ref. by destruct (subscriber_records_ st !! id). Qed.

Lemma lookup_subscriber_imsi st x id t enb mme teid v :
  imsi_to_subscriber_id_ st !! x = Some id -> id <> 0 ->
  lookup_subscriber st (Some x) t enb mme teid v = id.
Proof.
  intros Hx Hid. unfold lookup_subscriber.
  assert (find_by (imsi_to_subscriber_id_ st) (Some x) 0 = id) as ->
    by (unfold find_by; simpl; by rewrite Hx).
  rewrite !(find_by_found _ _ id Hid), (find_by_both_found _ _ _ id Hid).
  rewrite !(find_by_found _ _ id Hid). by apply fallback_found.
Qed.

Lemma record_ref_existing id st :
  is_Some (subscriber_records_ st !! id) -> record_ref id st = st.
Proof. intros [r Hr]. unfold record_ref. by rewrite Hr. Qed.

Lemma when_some_dom {A} (o : option A) f st :
  (forall x a, dom (subscriber_records_ (f x a)) = dom (subscriber_records_ a)) ->
  dom (subscriber_records_ (when_some o f st)) = dom (subscriber_records_ st).
Proof. intros Hf. destruct o; simpl; [apply Hf|done]. Qed.

Lemma dom_of_frame (drop : SubscriberRecord -> SubscriberRecord) st' st :
  (forall k, drop <$> subscriber_records_ st' !! k
             = drop <$> subscriber_records_ st !! k) ->
  dom (subscriber_records_ st') = dom (subscriber_records_ st).
Proof.
  intros Hrec. apply set_eq. intros k. rewrite !elem_of_dom.
  by apply (frame_is_Some drop).
Qed.

(** The associations neither add nor remove a record. *)
Lemma associate_given_dom id i t enb mme teid v a :
  dom (subscriber_records_ (associate_given id i t enb mme teid v a))
  = dom (subscriber_records_ a).
Proof.
  unfold associate_given.
  rewrite when_some_dom
    by (intros; apply (dom_of_frame drop_imeisv), associateImeisv_records).
  rewrite when_some_dom
    by (intros; apply (dom_of_frame drop_teids), associateTeid_records).
  rewrite when_some_dom
    by (intros; apply (dom_of_frame drop_mme), associateMme_records).
  rewrite when_some_dom
    by (intros; apply (dom_of_frame drop_enb), associateEnb_records).
  rewrite when_some_dom
    by (intros; apply (dom_of_frame drop_tmsi), associateTmsi_records).
  by rewrite when_some_dom
    by (intros; apply (dom_of_frame drop_imsi), associateImsi_records).
Qed.

(** X5.  An IMSI the store already knows decides the record: when the
    IMSI is indexed to an existing record, [getOrCreateSubscriber] called
    with it returns that record, whatever the other identifiers were
    indexed to before, creates no record (the id counter and the set of
    record ids are unchanged), and indexes every other identifier given
    to that record. *)
Theorem known_imsi_decides_the_record (st : S1apUeCorrelator) (x : string)
    (id : N) (t : option string) (enb mme teid : option N)
    (v : option string) :
  imsi_to_subscriber_id_ st !! x = Some id -> id <> 0 ->
  is_Some (subscriber_records_ st !! id) ->
  let r := getOrCreateSubscriber (Some x) t enb mme teid v st in
  r.1 = Some id
  /\ next_subscriber_id_ r.2 = next_subscriber_id_ st
  /\ dom (subscriber_records_ r.2) = dom (subscriber_records_ st)
  /\ imsi_to_subscriber_id_ r.2 !! x = Some id
  /\ (forall y, t = Some y -> tmsi_to_subscriber_id_ r.2 !! y = Some id)
  /\ (forall y, v = Some y -> imeisv_to_subscriber_id_ r.2 !! y = Some id)
  /\ (forall y, mme = Some y ->
        mme_ue_s1ap_id_to_subscriber_id_ r.2 !! y = Some id)
  /\ (forall y, enb = Some y ->
        enb_ue_s1ap_id_to_subscriber_id_ r.2 !! y = Some id)
  /\ (forall y, teid = Some y -> teid_to_subscriber_id_ r.2 !! y = Some id).
Proof.
  intros Hx Hid Hrec r. subst r.
  pose proof (lookup_subscriber_imsi st x id t enb mme teid v Hx Hid) as Hl.
  rewrite getOrCreateSubscriber_found by (by rewrite Hl).
  rewrite Hl. cbn [fst snd]. rewrite (record_ref_existing id st Hrec).
  split; [done|].
  split; [by rewrite associate_given_next|].
  split; [apply associate_given_dom|].
  destruct (associate_given_indexed id (Some x) t enb mme teid v
              st Hid Hrec)
    as (Hi & Ht & Hv & Hm & He & Hd).
  auto 10.
Qed.

Definition two_records : S1apUeCorrelator :=
  run_all [ProcessS1apFrame imsi_only 1%Z; ProcessS1apFrame tmsi_only 2%Z]
    init.

Lemma known_imsi_decides_the_record_witness :
  tmsi_to_subscriber_id_ two_records !! "deadbeef"%string = Some 2
  /\ let r := getOrCreateSubscriber (Some "001010123456789"%string)
                (Some "deadbeef"%string) (Some 5) (Some 77) (Some 4096) None
                two_records in
     r.1 = Some 1
     /\ next_subscriber_id_ r.2 = next_subscriber_id_ two_records
     /\ dom (subscriber_records_ r.2) = dom (subscriber_records_ two_records)
     /\ imsi_to_subscriber_id_ r.2 !! "001010123456789"%string = Some 1
     /\ (forall y, Some "deadbeef"%string = Some y ->
           tmsi_to_subscriber_id_ r.2 !! y = Some 1)
     /\ (forall y, @None string = Some y ->
           imeisv_to_subscriber_id_ r.2 !! y = Some 1)
     /\ (forall y, Some 77 = Some y ->
           mme_ue_s1ap_id_to_subscriber_id_ r.2 !! y = Some 1)
     /\ (forall y, Some 5 = Some y ->
           enb_ue_s1ap_id_to_subscriber_id_ r.2 !! y = Some 1)
     /\ (forall y, Some 4096 = Some y ->
           teid_to_subscriber_id_ r.2 !! y = Some 1).
Proof.
  split; [by vm_compute|].
  apply (known_imsi_decides_the_record two_records "001010123456789" 1
           (Some "deadbeef"%string) (Some 5) (Some 77) (Some 4096) None).
  - by vm_compute.
  - done.
  - vm_compute. eauto.
Defined.

(** *** processS1apFrame *)

(** The id [processS1apFrame] looks up after the call is the id of the
    record the call returned. *)
Lemma id_from_chain (st : S1apUeCorrelator) (i t v : option string)
    (mme enb : option N) p :
  p <> 0 ->
  has_value i || has_value t || has_value v || has_value mme || has_value enb
  = true ->
  (forall x, i = Some x -> imsi_to_subscriber_id_ st !! x = Some p) ->
  (forall x, t = Some x -> tmsi_to_subscriber_id_ st !! x = Some p) ->
  (forall x, v = Some x -> imeisv_to_subscriber_id_ st !! x = Some p) ->
  (forall x, mme = Some x ->
     mme_ue_s1ap_id_to_subscriber_id_ st !! x = Some p) ->
  (forall x, enb = Some x ->
     enb_ue_s1ap_id_to_subscriber_id_ st !! x = Some p) ->
  id_from (enb_ue_s1ap_id_to_subscriber_id_ st) enb
    (id_from (mme_ue_s1ap_id_to_subscriber_id_ st) mme
       (id_from (imeisv_to_subscriber_id_ st) v
          (id_from (tmsi_to_subscriber_id_ st) t
             (id_from (imsi_to_subscriber_id_ st) i 0)))) = p.
Proof.
  intros Hp Hsome Hi Ht Hv Hm He.
  destruct i as [x|].
  { rewrite (id_from_hit _ x p (Hi x eq_refl) Hp).
    by rewrite !(id_from_found _ _ p). }
  rewrite id_from_none. destruct t as [x|].
  { rewrite (id_from_hit _ x p (Ht x eq_refl) Hp).
    by rewrite !(id_from_found _ _ p). }
  rewrite id_from_none. destruct v as [x|].
  { rewrite (id_from_hit _ x p (Hv x eq_refl) Hp).
    by rewrite !(id_from_found _ _ p). }
  rewrite id_from_none. destruct mme as [x|].
  { rewrite (id_from_hit _ x p (Hm x eq_refl) Hp).
    by rewrite !(id_from_found _ _ p). }
  rewrite id_from_none. destruct enb as [x|]; [|done].
  by rewrite (id_from_hit _ x p (He x eq_refl) Hp).
Qed.

Lemma release_consistent (b : bool) mme enb st :
  s1ap_consistent st ->
  s1ap_consistent
    (if b then when_some enb removeEnbUeS1apIdAssociation
                 (when_some mme removeMmeUeS1apIdAssociation st)
     else st).
Proof.
  intros Hs. destruct b; [|done].
  destruct mme, enb; cbn [when_some];
    auto using removeEnb_keeps_consistent, removeMme_keeps_consistent.
Qed.

Lemma processS1apFrame_inv f ts st :
  ids_wf st -> next_subscriber_id_ st < 2 ^ 64 - 1 -> s1ap_consistent st ->
  s1ap_consistent (processS1apFrame f ts st).2.
Proof.
  intros Hwf Hlt Hs. unfold processS1apFrame.
  destruct (has_value _ || _ || _ || _ || _) eqn:Hsome; [|done].
  match goal with
  | |- context [getOrCreateSubscriber ?i ?t ?e ?m ?d ?v st] =>
      pose proof (getOrCreateSubscriber_wf i t e m d v st Hwf Hlt) as Hg;
      pose proof (getOrCreateSubscriber_inv i t e m d v st Hwf Hlt Hs) as Hc;
      pose proof (getOrCreateSubscriber_indexed i t e m d v st) as Hx;
      destruct (getOrCreateSubscriber i t e m d v st) as [sub st1]
  end.
  cbn [fst snd] in Hg, Hc, Hx.
  destruct Hg as (Hwf1 & Hn1 & p & -> & Hp).
  destruct Hx as (p' & [= <-] & Hp0 & Hi & Ht & Hv & Hm & He);
    [destruct Hwf; lia|].
  rewrite (id_from_chain st1 _ _ _ _ _ p Hp0 Hsome Hi Ht Hv Hm He).
  apply N.eqb_neq in Hp0 as ->. cbn [negb snd].
  apply release_consistent.
  apply foreign_consistent; [apply update_timestamps_foreign|].
  exact (proj2 (proj2
    (keeps_inv_compose p _ _
       (keeps_inv_compose p _ _
          (keeps_inv_when_some p _ _ (associateMme_inv p))
          (keeps_inv_when_some p _ _ (associateEnb_inv p)))
       (associateTeids_inv p _) st1 Hwf1 Hp Hc))).
Qed.

(** *** Any sequence of store operations *)

Lemma run_consistent op st :
  ids_wf st -> next_subscriber_id_ st < 2 ^ 64 - 1 -> op_ok st op ->
  s1ap_consistent st -> s1ap_consistent (run op st).
Proof.
  intros Hwf Hlt Hok Hs.
  destruct op; unfold run, op_ok in *;
    try (by apply foreign_consistent;
           auto using associateImsi_foreign, associateTmsi_foreign,
             associateImeisv_foreign, removeImsi_foreign, removeTmsi_foreign,
             removeImeisv_foreign);
    auto using removeEnb_keeps_consistent, removeMme_keeps_consistent,
      removeTeid_keeps_consistent, associateMme_keeps_consistent,
      associateEnb_keeps_consistent, getOrCreateSubscriber_inv,
      processS1apFrame_inv.
  apply associateTeid_keeps_consistent; [done| |by apply wf_no_zero|done].
  apply (wf_dom _ Hwf) in Hok. lia.
Qed.

Lemma run_all_consistent ops st :
  ids_wf st ->
  next_subscriber_id_ st + N.of_nat (length ops) < 2 ^ 64 ->
  ops_ok st ops ->
  s1ap_consistent st -> s1ap_consistent (run_all ops st).
Proof.
  revert st. induction ops as [|op ops IH]; intros st Hwf Hlt Hok Hs;
    simpl in *; [done|].
  destruct Hok as [Hop Hops].
  destruct (run_wf op st Hwf) as [Hwf1 Hn1]; [lia|done|].
  apply IH; [done|lia|done|]. apply run_consistent; [done|lia|done|done].
Qed.

Lemma init_consistent : s1ap_consistent init.
Proof.
  constructor; rewrite ?holds_consistent, ?contains_consistent;
    intros v id; simpl; rewrite !lookup_empty; simpl; [done|done|set_solver].
Qed.

(** X3.  Along any sequence of store operations from the empty store
    (shorter than the range of the 64-bit id counter, associations called
    on existing records), the MME-UE-S1AP-ID, eNB-UE-S1AP-ID and TEID
    indexes agree with the records: a value is indexed to record [id]
    exactly when record [id] holds it. *)
Theorem s1ap_ids_and_teids_stay_consistent (ops : list Op) :
  N.of_nat (length ops) < 2 ^ 64 - 1 ->
  ops_ok init ops ->
  let st := run_all ops init in
  (forall v id,
     mme_ue_s1ap_id_to_subscriber_id_ st !! v = Some id
     <-> exists r, subscriber_records_ st !! id = Some r
                   /\ mme_ue_s1ap_id r = Some v)
  /\ (forall v id,
        enb_ue_s1ap_id_to_subscriber_id_ st !! v = Some id
        <-> exists r, subscriber_records_ st !! id = Some r
                      /\ enb_ue_s1ap_id r = Some v)
  /\ (forall v id,
        teid_to_subscriber_id_ st !! v = Some id
        <-> exists r, subscriber_records_ st !! id = Some r /\ v ∈ teids r).
Proof.
  intros Hlen Hok.
  assert (s1ap_consistent (run_all ops init)) as Hs.
  { apply run_all_consistent;
      [apply ids_wf_init|simpl; lia|done|apply init_consistent]. }
  cbv zeta. revert Hs. generalize (run_all ops init). clear.
  intros st [Hm He Ht].
  split; [|split]; intros v id.
  - rewrite (Hm v id). unfold holds. setoid_rewrite field_lookup.
    naive_solver.
  - rewrite (He v id). unfold holds. setoid_rewrite field_lookup.
    naive_solver.
  - rewrite (Ht v id). unfold contains. setoid_rewrite field_lookup.
    naive_solver.
Qed.

Definition bearer_frame : Frame :=
  mkFrame 9 SUCCESSFUL_OUTCOME [] [] [] [4096; 4097] [] (Some 77, Some 5).

Definition reuse_frame : Frame :=
  mkFrame 12 INITIATING_MESSAGE [] ["001010999999999"%string] [] [4096] []
    (Some 77, Some 6).

Lemma s1ap_ids_and_teids_stay_consistent_witness :
  let st := run_all [ProcessS1apFrame attach_frame 1%Z;
                     ProcessS1apFrame bearer_frame 2%Z;
                     ProcessS1apFrame reuse_frame 3%Z;
                     RemoveTeidAssociation 4097] init in
  (forall v id,
     mme_ue_s1ap_id_to_subscriber_id_ st !! v = Some id
     <-> exists r, subscriber_records_ st !! id = Some r
                   /\ mme_ue_s1ap_id r = Some v)
  /\ (forall v id,
        enb_ue_s1ap_id_to_subscriber_id_ st !! v = Some id
        <-> exists r, subscriber_records_ st !! id = Some r
                      /\ enb_ue_s1ap_id r = Some v)
  /\ (forall v id,
        teid_to_subscriber_id_ st !! v = Some id
        <-> exists r, subscriber_records_ st !! id = Some r /\ v ∈ teids r).
Proof.
  apply (s1ap_ids_and_teids_stay_consistent
           [ProcessS1apFrame attach_frame 1%Z;
            ProcessS1apFrame bearer_frame 2%Z;
            ProcessS1apFrame reuse_frame 3%Z;
            RemoveTeidAssociation 4097]).
  - vm_compute. reflexivity.
  - vm_compute. repeat split; eauto.
Defined.


(** *** Finding the record of a frame again *)

(** What [processS1apFrame] does with a frame that carries an identifier:
    the call of [getOrCreateSubscriber], then the associations, the
    timestamps and the release, all on the record the call returned. *)
Lemma processS1apFrame_steps f ts st :
  ids_wf st -> next_subscriber_id_ st < 2 ^ 64 - 1 ->
  let imsi_norm := normalizeImsi <$> head (frame_imsis f) in
  let tmsi_norm := normalizeTmsi <$> head (frame_tmsis f) in
  let imeisv_norm := normalizeImeisv <$> head (frame_imeisvs f) in
  let mme := (frame_s1ap_ids f).1 in
  let enb := (frame_s1ap_ids f).2 in
  has_value imsi_norm || has_value tmsi_norm || has_value imeisv_norm
  || has_value mme || has_value enb = true ->
  exists p st1,
    getOrCreateSubscriber imsi_norm tmsi_norm enb mme None imeisv_norm st
    = (Some p, st1)
    /\ p <> 0 /\ is_Some (subscriber_records_ st1 !! p)
    /\ (forall x, imsi_norm = Some x ->
          imsi_to_subscriber_id_ st1 !! x = Some p)
    /\ (forall x, tmsi_norm = Some x ->
          tmsi_to_subscriber_id_ st1 !! x = Some p)
    /\ (forall x, imeisv_norm = Some x ->
          imeisv_to_subscriber_id_ st1 !! x = Some p)
    /\ processS1apFrame f ts st
       = (Some p,
          (fun a => if is_release_complete f
                    then when_some enb removeEnbUeS1apIdAssociation
                           (when_some mme removeMmeUeS1apIdAssociation a)
                    else a)
            (update_timestamps p ts
               (associateTeids (Some p) p
                  (frame_teids f ++ frame_tmsi_teids f)
                  (when_some enb (associateEnbUeS1apId (Some p) p)
                     (when_some mme (associateMmeUeS1apId (Some p) p)
                        st1))))).
Proof.
  intros Hwf Hlt imsi_norm tmsi_norm imeisv_norm mme enb Hsome.
  unfold processS1apFrame.
  fold imsi_norm tmsi_norm imeisv_norm mme enb. rewrite Hsome.
  pose proof (getOrCreateSubscriber_wf imsi_norm tmsi_norm enb mme None
                imeisv_norm st Hwf Hlt) as Hg.
  pose proof (getOrCreateSubscriber_indexed imsi_norm tmsi_norm enb mme None
                imeisv_norm st) as Hx.
  destruct (getOrCreateSubscriber _ _ _ _ _ _ st) as [sub st1].
  cbn [fst snd] in Hg, Hx.
  destruct Hg as (Hwf1 & Hn1 & p & -> & Hp).
  destruct Hx as (p' & [= <-] & Hp0 & Hi & Ht & Hv & Hm & He);
    [destruct Hwf; lia|].
  exists p, st1. split; [done|]. split; [done|].
  split; [by apply valid_is_Some|]. split; [done|]. split; [done|].
  split; [done|].
  rewrite (id_from_chain st1 _ _ _ _ _ p Hp0 Hsome Hi Ht Hv Hm He).
  apply N.eqb_neq in Hp0 as ->. cbn [negb]. done.
Qed.

Lemma subscriber_of_hit {K} `{Countable K} (idx : gmap K N) k st p :
  idx !! k = Some p -> p <> 0 -> is_Some (subscriber_records_ st !! p) ->
  subscriber_of idx k st = Some p.
Proof.
  intros Hk Hp%N.eqb_neq [r Hr]. unfold subscriber_of.
  by rewrite Hk, Hp, Hr.
Qed.

Lemma preserves_is_Some {K A} `{Countable K}
    (idx : S1apUeCorrelator -> gmap K N) (fld : SubscriberRecord -> A) f st k :
  preserves idx fld f ->
  is_Some (subscriber_records_ st !! k) ->
  is_Some (subscriber_records_ (f st) !! k).
Proof.
  intros Hf Hk. destruct (Hf st) as [_ Hfld]. specialize (Hfld k).
  destruct Hk as [r Hr]. rewrite Hr in Hfld.
  destruct (subscriber_records_ (f st) !! k); [eauto|discriminate Hfld].
Qed.

Section AfterLookup.
Variables (f : Frame) (ts : Z) (p : N).

(** The steps of [processS1apFrame] after the lookup. *)
Definition settle (a : S1apUeCorrelator) : S1apUeCorrelator :=
  update_timestamps p ts
    (associateTeids (Some p) p (frame_teids f ++ frame_tmsi_teids f)
       (when_some (frame_s1ap_ids f).2 (associateEnbUeS1apId (Some p) p)
          (when_some (frame_s1ap_ids f).1 (associateMmeUeS1apId (Some p) p)
             a))).

Definition release (a : S1apUeCorrelator) : S1apUeCorrelator :=
  if is_release_complete f
  then when_some (frame_s1ap_ids f).2 removeEnbUeS1apIdAssociation
         (when_some (frame_s1ap_ids f).1 removeMmeUeS1apIdAssociation a)
  else a.

Lemma settle_release_preserves {K A} `{Countable K}
    (idx : S1apUeCorrelator -> gmap K N) (fld : SubscriberRecord -> A) :
  (forall v, preserves idx fld (associateMmeUeS1apId (Some p) p v)) ->
  (forall v, preserves idx fld (associateEnbUeS1apId (Some p) p v)) ->
  (forall l, preserves idx fld (associateTeids (Some p) p l)) ->
  preserves idx fld (update_timestamps p ts) ->
  (forall v, preserves idx fld (removeMmeUeS1apIdAssociation v)) ->
  (forall v, preserves idx fld (removeEnbUeS1apIdAssociation v)) ->
  preserves idx fld (fun a => release (settle a)).
Proof.
  intros Hm He Ht Hu Hrm Hre.
  apply (preserves_compose idx fld settle release).
  - unfold settle.
    apply (preserves_compose idx fld
             (fun a => associateTeids (Some p) p _
                         (when_some _ (associateEnbUeS1apId (Some p) p)
                            (when_some _ (associateMmeUeS1apId (Some p) p) a)))
             (update_timestamps p ts)); [|done].
    apply (preserves_compose idx fld
             (fun a => when_some _ (associateEnbUeS1apId (Some p) p)
                         (when_some _ (associateMmeUeS1apId (Some p) p) a))
             (associateTeids (Some p) p _)); [|done].
    apply (preserves_compose idx fld
             (when_some _ (associateMmeUeS1apId (Some p) p))
             (when_some _ (associateEnbUeS1apId (Some p) p)));
      by apply preserves_when_some.
  - unfold release. destruct (is_release_complete f); [|by intros st].
    apply (preserves_compose idx fld
             (when_some _ removeMmeUeS1apIdAssociation)
             (when_some _ removeEnbUeS1apIdAssociation));
      by apply preserves_when_some.
Qed.
End AfterLookup.

(** The stores the operations can reach from the empty one. *)
Lemma reachable_wf ops :
  N.of_nat (length ops) < 2 ^ 64 - 2 -> ops_ok init ops ->
  ids_wf (run_all ops init)
  /\ next_subscriber_id_ (run_all ops init) < 2 ^ 64 - 1.
Proof.
  intros Hlen Hok.
  destruct (run_all_wf ops init ids_wf_init) as [Hwf Hn];
    [simpl; lia|done|]. simpl in Hn. split; [done|lia].
Qed.

(** X4.  In any store the operations can reach, the record
    [processS1apFrame] returns for a frame can be found again through
    every identifier of the frame: by the normalised first IMSI, TMSI and
    IMEISV, and, unless the frame is a UEContextReleaseComplete, by its
    MME-UE-S1AP-ID and eNB-UE-S1AP-ID. *)
Theorem frame_identifiers_find_the_record (ops : list Op) (f : Frame)
    (ts : Z) (p : N) :
  N.of_nat (length ops) < 2 ^ 64 - 2 -> ops_ok init ops ->
  let r := processS1apFrame f ts (run_all ops init) in
  r.1 = Some p ->
  (forall x rest, frame_imsis f = x :: rest ->
     getSubscriberByImsi (normalizeImsi x) r.2 = Some p)
  /\ (forall x rest, frame_tmsis f = x :: rest ->
        getSubscriberByTmsi (normalizeTmsi x) r.2 = Some p)
  /\ (forall x rest, frame_imeisvs f = x :: rest ->
        getSubscriberByImeisv (normalizeImeisv x) r.2 = Some p)
  /\ (is_release_complete f = false ->
      (forall y, (frame_s1ap_ids f).1 = Some y ->
         getSubscriberByMmeUeS1apId y r.2 = Some p)
      /\ (forall y, (frame_s1ap_ids f).2 = Some y ->
            getSubscriberByEnbUeS1apId y r.2 = Some p)).
Proof.
  intros Hlen Hok. destruct (reachable_wf ops Hlen Hok) as [Hwf Hlt].
  set (st := run_all ops init) in *. clearbody st.
  intros r Hr. subst r.
  destruct (has_value (normalizeImsi <$> head (frame_imsis f))
            || has_value (normalizeTmsi <$> head (frame_tmsis f))
            || has_value (normalizeImeisv <$> head (frame_imeisvs f))
            || has_value (frame_s1ap_ids f).1
            || has_value (frame_s1ap_ids f).2) eqn:Hsome;
    [|unfold processS1apFrame in Hr; by rewrite Hsome in Hr].
  destruct (processS1apFrame_steps f ts st Hwf Hlt Hsome)
    as (q & st1 & _ & Hq0 & Hq & Hi & Ht & Hv & Heq).
  rewrite Heq in Hr |- *. cbn [fst snd] in *. injection Hr as ->.
  fold (settle f ts p st1). fold (release f (settle f ts p st1)).
  assert (preserves imsi_to_subscriber_id_ imsi
            (fun a => release f (settle f ts p a))) as Pi
    by (apply settle_release_preserves; intros; solve_preserves).
  assert (preserves tmsi_to_subscriber_id_ tmsi
            (fun a => release f (settle f ts p a))) as Pt
    by (apply settle_release_preserves; intros; solve_preserves).
  assert (preserves imeisv_to_subscriber_id_ imeisv
            (fun a => release f (settle f ts p a))) as Pv
    by (apply settle_release_preserves; intros; solve_preserves).
  pose proof (preserves_is_Some _ _ _ st1 p Pi Hq) as Hfinal.
  cbv beta in Hfinal.
  split; [|split; [|split]].
  - intros x rest Hx. apply subscriber_of_hit; [|done|done].
    rewrite (proj1 (Pi st1)). apply Hi. by rewrite Hx.
  - intros x rest Hx. apply subscriber_of_hit; [|done|done].
    rewrite (proj1 (Pt st1)). apply Ht. by rewrite Hx.
  - intros x rest Hx. apply subscriber_of_hit; [|done|done].
    rewrite (proj1 (Pv st1)). apply Hv. by rewrite Hx.
  - intros Hrel. unfold release in *. rewrite Hrel in *.
    unfold settle in *.
    set (a1 := when_some (frame_s1ap_ids f).1
                 (associateMmeUeS1apId (Some p) p) st1) in *.
    assert (is_Some (subscriber_records_ a1 !! p)) as H1.
    { subst a1. destruct (frame_s1ap_ids f).1; cbn [when_some]; [|done].
      apply (records_frame_is_Some drop_mme _ st1);
        [intros k; apply associateMme_records|done]. }
    split; intros y Hy; (apply subscriber_of_hit; [|done|done]).
    + assert (preserves mme_ue_s1ap_id_to_subscriber_id_ mme_ue_s1ap_id
                (fun a => update_timestamps p ts
                   (associateTeids (Some p) p
                      (frame_teids f ++ frame_tmsi_teids f)
                      (when_some (frame_s1ap_ids f).2
                         (associateEnbUeS1apId (Some p) p) a)))) as Pm.
      { preserves_chain. }
      rewrite (proj1 (Pm a1)). subst a1. rewrite Hy. cbn [when_some].
      by apply associateMme_effect.
    + assert (preserves enb_ue_s1ap_id_to_subscriber_id_ enb_ue_s1ap_id
                (fun a => update_timestamps p ts
                   (associateTeids (Some p) p
                      (frame_teids f ++ frame_tmsi_teids f) a))) as Pe.
      { preserves_chain. }
      rewrite (proj1 (Pe _)). rewrite Hy. cbn [when_some].
      by apply associateEnb_effect.
Qed.

Definition attach_with_tmsi : Frame :=
  mkFrame 13 INITIATING_MESSAGE [] ["001-01-0123456789"%string]
    ["0xDEADBEEF"%string] [] [] (Some 78, Some 6).

Lemma frame_identifiers_find_the_record_witness :
  let r := processS1apFrame attach_with_tmsi 3%Z
             (run_all [ProcessS1apFrame imsi_only 1%Z;
                       ProcessS1apFrame tmsi_only 2%Z] init) in
  r.1 = Some 1
  /\ (forall x rest, frame_imsis attach_with_tmsi = x :: rest ->
        getSubscriberByImsi (normalizeImsi x) r.2 = Some 1)
  /\ (forall x rest, frame_tmsis attach_with_tmsi = x :: rest ->
        getSubscriberByTmsi (normalizeTmsi x) r.2 = Some 1)
  /\ (forall x rest, frame_imeisvs attach_with_tmsi = x :: rest ->
        getSubscriberByImeisv (normalizeImeisv x) r.2 = Some 1)
  /\ (is_release_complete attach_with_tmsi = false ->
      (forall y, (frame_s1ap_ids attach_with_tmsi).1 = Some y ->
         getSubscriberByMmeUeS1apId y r.2 = Some 1)
      /\ (forall y, (frame_s1ap_ids attach_with_tmsi).2 = Some y ->
            getSubscriberByEnbUeS1apId y r.2 = Some 1)).
Proof.
  split; [by vm_compute|].
  apply (frame_identifiers_find_the_record
           [ProcessS1apFrame imsi_only 1%Z; ProcessS1apFrame tmsi_only 2%Z]
           attach_with_tmsi 3%Z 1).
  - by vm_compute.
  - vm_compute. repeat split; eauto.
  - by vm_compute.
Defined.

(** *** Frames that carry S1AP ids only *)

Lemma scan_stable_found l c n :
  (forall id r, (id, r) ∈ l -> id <> 0) ->
  (c <> 0 /\ 0 < n) \/ (exists id r, (id, r) ∈ l /\ has_stable r = true) ->
  (scan_stable l c n).1 <> 0 /\ 0 < (scan_stable l c n).2.
Proof.
  revert c n. induction l as [|[id r] l IH]; intros c n Hnz Hex; simpl.
  { destruct Hex as [?|(? & ? & []%elem_of_nil & _)]. done. }
  assert (forall id' r', (id', r') ∈ l -> id' <> 0) as Hnz'
    by (intros ? ? ?; eapply Hnz; by right).
  destruct (has_stable r) eqn:Hr.
  - apply IH; [done|]. left. split; [|lia].
    destruct (c =? 0) eqn:Hc; [|by apply N.eqb_neq in Hc].
    apply (Hnz id r). by left.
  - apply IH; [done|].
    destruct Hex as [?|(id' & r' & Hin & Hs)]; [by left|right].
    apply elem_of_cons in Hin as [[= -> ->]|Hin]; [congruence|eauto].
Qed.

Lemma scan_most_recent_found l c : c <> 0 -> scan_most_recent l c <> 0.
Proof.
  revert c. induction l as [|[id r] l IH]; intros c Hc; simpl; [done|].
  destruct (has_stable r && (c <? id)) eqn:E; [|by apply IH].
  apply IH. apply andb_prop in E as [_ E%N.ltb_lt]. lia.
Qed.

(** With a subscriber that has an IMSI or a TMSI in the store, the cascade
    finds a record for any S1AP id. *)
Lemma lookup_subscriber_s1ap_only st enb mme :
  subscriber_records_ st !! 0 = None ->
  (exists id r, subscriber_records_ st !! id = Some r /\ has_stable r = true) ->
  has_value mme || has_value enb = true ->
  lookup_subscriber st None None enb mme None None <> 0.
Proof.
  intros Hzero (id & r & Hr & Hs) Hids. unfold lookup_subscriber.
  rewrite !find_by_none.
  set (id0 := find_by _ enb (find_by _ mme (find_by_both st mme enb 0))).
  destruct (N.eq_dec id0 0) as [E|E]; [|by rewrite fallback_found].
  rewrite E. unfold fallback. rewrite Hids. cbn [N.eqb negb has_value andb].
  destruct (negb (scan_s1ap_ids mme enb _ 0 =? 0)) eqn:Hc.
  { apply negb_true_iff, N.eqb_neq in Hc. done. }
  destruct (scan_stable_found (map_to_list (subscriber_records_ st)) 0 0)
    as [Hc1 Hn1].
  { intros k rk Hk%elem_of_map_to_list Hk0. congruence. }
  { right. exists id, r. split; [by apply elem_of_map_to_list|done]. }
  destruct (scan_stable _ 0 0) as [c n]. cbn [fst snd] in *.
  apply N.eqb_neq in Hc1 as Hc1'. rewrite Hc1'. cbn [negb]. rewrite !andb_true_r.
  destruct (n =? 1) eqn:E1; [done|].
  apply N.eqb_neq in E1.
  assert ((1 <? n) = true) as -> by (apply N.ltb_lt; lia).
  by apply scan_most_recent_found.
Qed.

Lemma associateTeids_next p l st :
  next_subscriber_id_ (associateTeids (Some p) p l st) = next_subscriber_id_ st.
Proof.
  unfold associateTeids. revert st.
  induction l as [|t l IH]; intros st; simpl; [done|].
  by rewrite IH, associateTeid_next.
Qed.

Lemma settle_release_next f ts p a :
  next_subscriber_id_ (release f (settle f ts p a)) = next_subscriber_id_ a.
Proof.
  unfold release, settle.
  assert (forall b, next_subscriber_id_
            (when_some (frame_s1ap_ids f).2 removeEnbUeS1apIdAssociation
               (when_some (frame_s1ap_ids f).1 removeMmeUeS1apIdAssociation b))
          = next_subscriber_id_ b) as Hrel.
  { intros b. rewrite when_some_next by (intros; apply removeEnb_next).
    by rewrite when_some_next by (intros; apply removeMme_next). }
  assert (next_subscriber_id_
            (update_timestamps p ts
               (associateTeids (Some p) p (frame_teids f ++ frame_tmsi_teids f)
                  (when_some (frame_s1ap_ids f).2
                     (associateEnbUeS1apId (Some p) p)
                     (when_some (frame_s1ap_ids f).1
                        (associateMmeUeS1apId (Some p) p) a))))
          = next_subscriber_id_ a) as Hset.
  { rewrite update_timestamps_next, associateTeids_next.
    rewrite when_some_next by (intros; apply associateEnb_next).
    by rewrite when_some_next by (intros; apply associateMme_next). }
  destruct (is_release_complete f); [by rewrite Hrel|done].
Qed.

(** X6.  In a store the operations can reach and that holds a subscriber
    with an IMSI or a TMSI, a frame carrying S1AP ids and no IMSI, TMSI or
    IMEISV never starts a new subscriber: [processS1apFrame] returns a
    record that existed before, the id counter stays where it is and the
    set of record ids is unchanged. *)
Theorem s1ap_only_frame_joins_a_known_subscriber (ops : list Op)
    (f : Frame) (ts : Z) :
  N.of_nat (length ops) < 2 ^ 64 - 2 -> ops_ok init ops ->
  let st := run_all ops init in
  (exists id r, subscriber_records_ st !! id = Some r
                /\ (is_Some (imsi r) \/ is_Some (tmsi r))) ->
  frame_imsis f = [] -> frame_tmsis f = [] -> frame_imeisvs f = [] ->
  is_Some (frame_s1ap_ids f).1 \/ is_Some (frame_s1ap_ids f).2 ->
  let r := processS1apFrame f ts st in
  (exists p, r.1 = Some p /\ is_Some (subscriber_records_ st !! p))
  /\ next_subscriber_id_ r.2 = next_subscriber_id_ st
  /\ dom (subscriber_records_ r.2) = dom (subscriber_records_ st).
Proof.
  intros Hlen Hok. destruct (reachable_wf ops Hlen Hok) as [Hwf Hlt].
  set (st := run_all ops init) in *. clearbody st. cbv zeta.
  intros (id & rec & Hrec & Hst) Hi Ht Hv Hids.
  assert (has_value (frame_s1ap_ids f).1 || has_value (frame_s1ap_ids f).2
          = true) as Hids'.
  { destruct Hids as [[? ->]|[? ->]]; simpl; [done|by rewrite orb_true_r]. }
  assert (has_stable rec = true) as Hstable.
  { unfold has_stable.
    destruct Hst as [[? ->]|[? ->]]; simpl; [done|by rewrite orb_true_r]. }
  pose proof (lookup_subscriber_s1ap_only st (frame_s1ap_ids f).2
                (frame_s1ap_ids f).1 (wf_no_zero st Hwf)
                (ex_intro _ id (ex_intro _ rec (conj Hrec Hstable))) Hids')
    as Hfound.
  pose proof (lookup_subscriber_ok st None None (frame_s1ap_ids f).2
                (frame_s1ap_ids f).1 None None Hwf) as Hvalid.
  destruct Hvalid as [Hz|Hvalid]; [done|].
  apply (wf_dom _ Hwf) in Hvalid as Hsome.
  destruct (processS1apFrame_steps f ts st Hwf Hlt)
    as (p & st1 & Hget & _ & _ & _ & _ & _ & Heq).
  { rewrite Hi, Ht, Hv. simpl. exact Hids'. }
  rewrite Hi, Ht, Hv in Hget. simpl in Hget.
  rewrite getOrCreateSubscriber_found in Hget by done.
  pose proof (f_equal fst Hget) as Hp. pose proof (f_equal snd Hget) as Hst1.
  cbn [fst snd] in Hp, Hst1. injection Hp as Hp. clear Hget.
  assert (next_subscriber_id_ (processS1apFrame f ts st).2
          = next_subscriber_id_ st) as Hnext.
  { rewrite Heq. cbn [snd].
    etrans; [exact (settle_release_next f ts p st1)|].
    by rewrite <- Hst1, associate_given_next, record_ref_next. }
  split; [rewrite Heq, <- Hp; eauto|]. split; [done|].
  destruct (processS1apFrame_wf f ts st Hwf Hlt) as (Hwf' & _).
  apply set_eq. intros k. rewrite !elem_of_dom.
  rewrite (wf_dom _ Hwf'), (wf_dom _ Hwf), Hnext. done.
Qed.

Definition s1ap_only_frame : Frame :=
  mkFrame 13 INITIATING_MESSAGE [] [] [] [] [] (Some 99, Some 9).

Lemma s1ap_only_frame_joins_a_known_subscriber_witness :
  let st := run_all [ProcessS1apFrame imsi_only 1%Z] init in
  let r := processS1apFrame s1ap_only_frame 2%Z st in
  (exists p, r.1 = Some p /\ is_Some (subscriber_records_ st !! p))
  /\ next_subscriber_id_ r.2 = next_subscriber_id_ st
  /\ dom (subscriber_records_ r.2) = dom (subscriber_records_ st).
Proof.
  apply (s1ap_only_frame_joins_a_known_subscriber
           [ProcessS1apFrame imsi_only 1%Z] s1ap_only_frame 2%Z).
  - by vm_compute.
  - by vm_compute.
  - exists 1, (mkSubscriberRecord (Some "001010123456789"%string) None None
                 None ∅ None (Some 1%Z) (Some 1%Z)).
    split; [by vm_compute|left; eauto].
  - done.
  - done.
  - done.
  - left. simpl. eauto.
Defined.

End StoreProperties.

(** ** The TEIDs of a subscriber *)

Module StoreTeids.
Import Correlator CorrelatorFacts StoreQueries StoreProperties.

Lemma subscriber_of_Some {K} `{Countable K} (idx : gmap K N) k st p :
  subscriber_of idx k st = Some p <->
  idx !! k = Some p /\ p <> 0 /\ is_Some (subscriber_records_ st !! p).
Proof.
  unfold subscriber_of. destruct (idx !! k) as [id|]; [|naive_solver].
  destruct (id =? 0) eqn:E; [apply N.eqb_eq in E|apply N.eqb_neq in E]; simpl.
  - naive_solver.
  - destruct (subscriber_records_ st !! id) eqn:Er; [naive_solver|].
    split; [done|]. intros ([= ->] & _ & [? ?]). congruence.
Qed.

(** The TEIDs read through one lookup are the TEIDs that lead to the
    record of that lookup. *)
Lemma teids_of_lookup st (look : option N) (t : N) :
  ids_wf st -> s1ap_consistent st ->
  (forall p, look = Some p -> is_Some (subscriber_records_ st !! p)) ->
  t ∈ match look with
      | Some p => elements (teids (deref st p))
      | None => []
      end
  <-> is_Some look /\ getSubscriberByTeid t st = look.
Proof.
  intros Hwf [_ _ Ht] Hlook. destruct look as [p|].
  2:{ split; [by intros ?%elem_of_nil|]. by intros [[? ?] _]. }
  destruct (Hlook p eq_refl) as [r Hr].
  assert (p <> 0) as Hp.
  { intros ->. by rewrite (wf_no_zero st Hwf) in Hr. }
  unfold deref. rewrite Hr. simpl. rewrite elem_of_elements.
  unfold getSubscriberByTeid. split.
  - intros Hin. split; [done|]. apply subscriber_of_Some.
    split; [|by eauto]. apply Ht. exists (teids r). by rewrite Hr.
  - intros [_ (Hidx & _ & _)%subscriber_of_Some].
    apply Ht in Hidx as (a & Ha & Hin). rewrite Hr in Ha.
    by injection Ha as <-.
Qed.

(** X23.  In any store the operations can reach, the TEIDs
    [getTeidsByImsi], [getTeidsByTmsi] and [getTeidsByImeisv] return are
    exactly the TEIDs that lead back to the same subscriber: a TEID is in
    the list if and only if the lookup by the identifier finds a record
    and [getSubscriberByTeid] finds that same record. *)
Theorem teids_lead_back_to_the_subscriber (ops : list Op) (v : string)
    (t : N) :
  N.of_nat (length ops) < 2 ^ 64 - 2 ->
  ops_ok init ops ->
  let st := run_all ops init in
  (t ∈ getTeidsByImsi v st
   <-> is_Some (getSubscriberByImsi v st)
       /\ getSubscriberByTeid t st = getSubscriberByImsi v st)
  /\ (t ∈ getTeidsByTmsi v st
      <-> is_Some (getSubscriberByTmsi v st)
          /\ getSubscriberByTeid t st = getSubscriberByTmsi v st)
  /\ (t ∈ getTeidsByImeisv v st
      <-> is_Some (getSubscriberByImeisv v st)
          /\ getSubscriberByTeid t st = getSubscriberByImeisv v st).
Proof.
  intros Hlen Hok st.
  destruct (reachable_wf ops Hlen Hok) as [Hwf _].
  assert (s1ap_consistent st) as Hs.
  { apply run_all_consistent;
      [apply ids_wf_init|simpl; lia|done|apply init_consistent]. }
  unfold getTeidsByImsi, getTeidsByTmsi, getTeidsByImeisv.
  split; [|split]; apply teids_of_lookup; try done;
    by intros p (_ & _ & ?)%subscriber_of_Some.
Qed.

Lemma teids_lead_back_to_the_subscriber_witness :
  let st := run_all [ProcessS1apFrame reuse_frame 1%Z] init in
  (4096 ∈ getTeidsByImsi "001010999999999" st
   <-> is_Some (getSubscriberByImsi "001010999999999" st)
       /\ getSubscriberByTeid 4096 st
          = getSubscriberByImsi "001010999999999" st)
  /\ (4096 ∈ getTeidsByTmsi "001010999999999" st
      <-> is_Some (getSubscriberByTmsi "001010999999999" st)
          /\ getSubscriberByTeid 4096 st
             = getSubscriberByTmsi "001010999999999" st)
  /\ (4096 ∈ getTeidsByImeisv "001010999999999" st
      <-> is_Some (getSubscriberByImeisv "001010999999999" st)
          /\ getSubscriberByTeid 4096 st
             = getSubscriberByImeisv "001010999999999" st).
Proof.
  apply (teids_lead_back_to_the_subscriber
           [ProcessS1apFrame reuse_frame 1%Z] "001010999999999" 4096).
  - by vm_compute.
  - by vm_compute.
Defined.

End StoreTeids.

(** ** Rule engine: which events a message gives *)

Module RulesProperties.
Import Rules RulesFacts.
Local Open Scope Z_scope.

Lemma elem_of_List_filter {A} (P : A -> bool) (l : list A) (x : A) :
  x ∈ List.filter P l <-> P x = true /\ x ∈ l.
Proof. rewrite !list_elem_of_In, filter_In. tauto. Qed.

Section Events.
Variable get_context : string -> option UEContext.

(** *** Sequence rules *)

(** A pending state completes [rule] when it started with the rule's first
    type and is within the rule's window. *)
Definition completes (now : Z) (rule : SequenceRule) (s : SequenceState)
    : bool :=
  String.eqb (st_first_msg_type s) (first_msg_type rule)
  && (to_milliseconds (now - first_seen s) <=? time_window rule).

Lemma match_sequences_spec now rule message ruleset key l :
  match_sequences get_context now rule message ruleset key l
  = (sequence_event get_context now rule message ruleset key
       <$> List.filter (completes now rule) l,
     List.filter (fun s => negb (completes now rule s)) l).
Proof.
  induction l as [|s l IH]; simpl; [done|]. rewrite IH. unfold completes.
  destruct (String.eqb _ _); simpl; [|done].
  by destruct (_ <=? _).
Qed.

(** What justifies a sequence event: a rule of the ruleset whose second
    type is the type of the message and whose first type is not, and a
    state the subscriber had pending before the call, started by the rule's
    first type, within the window and the 60 s cap. *)
Definition justified (now : Z) (message : CanonicalMessage)
    (ruleset : Ruleset) (key : string) (old : list SequenceState)
    (ev : Event) : Prop :=
  exists rule s,
    rule ∈ sequence_rules ruleset /\ s ∈ old
    /\ second_msg_type rule = msg_type message
    /\ first_msg_type rule <> msg_type message
    /\ st_first_msg_type s = first_msg_type rule
    /\ to_milliseconds (now - first_seen s) <= time_window rule
    /\ to_seconds (now - first_seen s) <= max_sequence_age
    /\ ev = sequence_event get_context now rule message ruleset key s.

Lemma check_sequence_rule_justified now message ruleset key old rule acc :
  rule ∈ sequence_rules ruleset ->
  Forall (justified now message ruleset key old) acc.1 ->
  Forall (fun s => (s ∈ old /\ expired now s = false)
                   \/ st_first_msg_type s = msg_type message) acc.2 ->
  let acc' := check_sequence_rule get_context now message ruleset key acc rule
  in
  Forall (justified now message ruleset key old) acc'.1
  /\ Forall (fun s => (s ∈ old /\ expired now s = false)
                      \/ st_first_msg_type s = msg_type message) acc'.2.
Proof.
  intros Hrule Hev Hst. destruct acc as [events sequences].
  unfold check_sequence_rule. cbn [fst snd] in *.
  destruct (String.eqb (msg_type message) (first_msg_type rule)) eqn:E1.
  { apply String.eqb_eq in E1. cbn [fst snd]. split; [done|].
    apply Forall_app. split; [done|]. constructor; [|constructor].
    right. by simpl. }
  apply String.eqb_neq in E1.
  destruct (String.eqb (msg_type message) (second_msg_type rule)) eqn:E2;
    [|done].
  apply String.eqb_eq in E2. rewrite match_sequences_spec. cbn [fst snd].
  split.
  - apply Forall_app. split; [done|].
    apply Forall_fmap, Forall_forall. intros s Hs.
    apply elem_of_List_filter in Hs as [Hc Hs].
    unfold completes in Hc.
    apply andb_prop in Hc as [Hf%String.eqb_eq Hw%Z.leb_le].
    rewrite Forall_forall in Hst.
    destruct (Hst s Hs) as [[Hold Hexp]|Hnew]; [|congruence].
    exists rule, s. unfold expired in Hexp. apply Z.ltb_ge in Hexp.
    repeat split; auto.
  - rewrite Forall_forall in Hst |- *. intros s Hs.
    apply elem_of_List_filter in Hs as [_ Hs]. auto.
Qed.

Lemma foldl_check_sequence_rule_justified now message ruleset key old
    rules acc :
  rules ⊆ sequence_rules ruleset ->
  Forall (justified now message ruleset key old) acc.1 ->
  Forall (fun s => (s ∈ old /\ expired now s = false)
                   \/ st_first_msg_type s = msg_type message) acc.2 ->
  Forall (justified now message ruleset key old)
    (foldl (check_sequence_rule get_context now message ruleset key)
       acc rules).1.
Proof.
  revert acc. induction rules as [|rule rules IH]; intros acc Hsub Hev Hst;
    simpl; [done|].
  destruct (check_sequence_rule_justified now message ruleset key old rule acc)
    as [Hev' Hst']; [apply Hsub; by left|done|done|].
  apply IH; [|done|done]. intros r Hr. apply Hsub. by right.
Qed.

(** X7.  Every event [check_sequence_rules] returns is justified: it is
    the event of a rule of the ruleset whose second type is the type of the
    message and whose first type is not, completed by a state the
    subscriber had pending before the call, which started with the rule's
    first type, is within the rule's window in whole milliseconds and
    within 60 whole seconds. *)
Theorem sequence_events_are_justified (now : Z) (message : CanonicalMessage)
    (ruleset : Ruleset) (key : string) (e : RuleEngine) (ev : Event) :
  ev ∈ (check_sequence_rules get_context now message ruleset key e).1 ->
  exists rule s,
    rule ∈ sequence_rules ruleset
    /\ s ∈ default [] (sequence_states_ e !! key)
    /\ second_msg_type rule = msg_type message
    /\ first_msg_type rule <> msg_type message
    /\ st_first_msg_type s = first_msg_type rule
    /\ to_milliseconds (now - first_seen s) <= time_window rule
    /\ to_seconds (now - first_seen s) <= max_sequence_age
    /\ ev = sequence_event get_context now rule message ruleset key s.
Proof.
  unfold check_sequence_rules. rewrite cleanup_lookup.
  set (old := default [] (sequence_states_ e !! key)).
  pose proof (foldl_check_sequence_rule_justified now message ruleset key old
                (sequence_rules ruleset)
                ([], List.filter (fun s => negb (expired now s)) old)) as H.
  destruct (foldl _ _ _) as [events sequences]. cbn [fst snd] in *.
  intros Hev.
  assert (Forall (justified now message ruleset key old) events) as Hall.
  { apply H; [done|constructor|].
    apply Forall_forall. intros s Hs.
    apply elem_of_List_filter in Hs as [Hn Hs]. left. split; [done|].
    by apply negb_true_iff in Hn. }
  rewrite Forall_forall in Hall. exact (Hall ev Hev).
Qed.

Section OneRule.
Variables (rule : SequenceRule) (ruleset : Ruleset).
Hypothesis only_rule : sequence_rules ruleset = [rule].

(** X8.  With one sequence rule (A, B, W), A and B distinct, a message of
    type B gives one event for every state the subscriber has pending that
    is at most 60 whole seconds old, started with A and is within W, in
    the order the states were started; exactly these states are consumed
    and the others stay, in order. *)
Theorem second_message_fires_once_per_pending_state (now : Z)
    (message : CanonicalMessage) (key : string) (e : RuleEngine) :
  msg_type message = second_msg_type rule ->
  first_msg_type rule <> second_msg_type rule ->
  let pending := List.filter (fun s => negb (expired now s))
                   (default [] (sequence_states_ e !! key)) in
  let r := check_sequence_rules get_context now message ruleset key e in
  r.1 = sequence_event get_context now rule message ruleset key
          <$> List.filter (completes now rule) pending
  /\ sequence_states_ r.2 !! key
     = Some (List.filter (fun s => negb (completes now rule s)) pending).
Proof.
  intros HB Hdistinct pending r. subst r pending.
  unfold check_sequence_rules. rewrite only_rule, cleanup_lookup. simpl.
  rewrite HB.
  assert (String.eqb (second_msg_type rule) (first_msg_type rule) = false)
    as -> by (apply String.eqb_neq; congruence).
  rewrite String.eqb_refl, match_sequences_spec. cbn iota beta zeta.
  cbn [fst snd sequence_states_]. split; [done|]. by rewrite lookup_insert_eq.
Qed.
End OneRule.

(** *** Single-message rules *)

Lemma extract_all_header data message first key e :
  let e' := extract_all get_context data message first key e in
  ev_name e' = ev_name e /\ ev_ts e' = ev_ts e
  /\ ev_subscriber_key e' = ev_subscriber_key e
  /\ ev_evidence e' = ev_evidence e
  /\ ev_ruleset_id e' = ev_ruleset_id e
  /\ ev_ruleset_version e' = ev_ruleset_version e.
Proof.
  unfold extract_all. revert e.
  induction data as [|x data IH]; intros e; simpl; [done|].
  match goal with
  | |- context [foldl ?f ?a data] =>
      destruct (IH a) as (-> & -> & -> & -> & -> & ->)
  end.
  by case_match.
Qed.

(** The event of a single-message rule. *)
Definition single_event (now : Z) (message : CanonicalMessage)
    (ruleset : Ruleset) (key : string) (rule : SingleMessageRule) : Event :=
  extract_all get_context (sm_event_data rule) message None key
    (create_event now (sm_event_name rule) message (sm_attributes rule)
       (id ruleset) (version ruleset) key).

Lemma check_single_message_rules_spec now message ruleset key :
  check_single_message_rules get_context now message ruleset key
  = single_event now message ruleset key
      <$> List.filter (fun rule => String.eqb (msg_type message)
                                     (msg_type_pattern rule))
            (single_message_rules ruleset).
Proof.
  unfold check_single_message_rules.
  assert (forall rules acc,
            foldl (fun events rule =>
                     if String.eqb (msg_type message) (msg_type_pattern rule)
                     then events ++ [single_event now message ruleset key rule]
                     else events) acc rules
            = acc ++ (single_event now message ruleset key
                        <$> List.filter
                              (fun rule => String.eqb (msg_type message)
                                             (msg_type_pattern rule)) rules))
    as H.
  { induction rules as [|rule rules IH]; intros acc; simpl.
    { by rewrite app_nil_r. }
    rewrite IH. destruct (String.eqb _ _); simpl; [|done].
    by rewrite <- app_assoc. }
  exact (H (single_message_rules ruleset) []).
Qed.

(** X9.  [check_single_message_rules] gives one event for every rule whose
    [msg_type] is equal, character by character, to the type of the
    message, in the order of the rules, and none for the other rules; the
    event carries the rule's event name, the clock reading, the subscriber
    key, the ruleset's id and version, and the spool offset of the message
    as its only evidence. *)
Theorem single_message_rules_fire_on_equal_type (now : Z)
    (message : CanonicalMessage) (ruleset : Ruleset) (key : string) :
  Forall2 (fun rule ev =>
             ev_name ev = sm_event_name rule
             /\ ev_ts ev = now
             /\ ev_subscriber_key ev = key
             /\ ev_evidence ev = [spool_offset_of message]
             /\ ev_ruleset_id ev = id ruleset
             /\ ev_ruleset_version ev = version ruleset)
    (List.filter (fun rule => String.eqb (msg_type message)
                                (msg_type_pattern rule))
       (single_message_rules ruleset))
    (check_single_message_rules get_context now message ruleset key).
Proof.
  rewrite check_single_message_rules_spec.
  apply Forall2_fmap_r, Forall_Forall2_diag, Forall_forall.
  intros rule _. cbv beta. unfold single_event.
  destruct (extract_all_header (sm_event_data rule) message None key
              (create_event now (sm_event_name rule) message
                 (sm_attributes rule) (id ruleset) (version ruleset) key))
    as (E1 & E2 & E3 & E4 & E5 & E6).
  unfold compose. cbv beta. by rewrite E1, E2, E3, E4, E5, E6.
Qed.

(** *** No stale state after [process] *)

Definition fresh (now : Z) (e : RuleEngine) : Prop :=
  forall k l s, sequence_states_ e !! k = Some l -> s ∈ l ->
    to_seconds (now - first_seen s) <= max_sequence_age.

Lemma cleanup_fresh now e : fresh now (cleanup_expired_sequences now e).
Proof.
  intros k l s Hl Hs. unfold cleanup_expired_sequences in Hl. simpl in Hl.
  rewrite lookup_omap in Hl.
  destruct (sequence_states_ e !! k) as [l0|]; simpl in Hl; [|done].
  assert (l = List.filter (fun s => negb (expired now s)) l0) as ->
    by (destruct (List.filter _ l0); congruence).
  apply elem_of_List_filter in Hs as [Hn _].
  apply negb_true_iff in Hn. by apply Z.ltb_ge in Hn.
Qed.

Lemma check_sequence_rule_fresh now message ruleset key acc rule :
  Forall (fun s => to_seconds (now - first_seen s) <= max_sequence_age) acc.2 ->
  Forall (fun s => to_seconds (now - first_seen s) <= max_sequence_age)
    (check_sequence_rule get_context now message ruleset key acc rule).2.
Proof.
  destruct acc as [events sequences]. unfold check_sequence_rule.
  cbn [fst snd]. intros H.
  destruct (String.eqb _ (first_msg_type rule)).
  { cbn [snd]. apply Forall_app. split; [done|].
    constructor; [|constructor]. simpl. rewrite Z.sub_diag. by vm_compute. }
  destruct (String.eqb _ (second_msg_type rule)); [|done].
  rewrite match_sequences_spec. cbn [snd].
  rewrite Forall_forall in H |- *. intros s Hs.
  apply elem_of_List_filter in Hs as [_ Hs]. auto.
Qed.

Lemma check_sequence_rules_fresh now message ruleset key e :
  fresh now (check_sequence_rules get_context now message ruleset key e).2.
Proof.
  unfold check_sequence_rules.
  pose proof (cleanup_fresh now e) as Hc.
  set (e1 := cleanup_expired_sequences now e) in *.
  assert (Forall (fun s => to_seconds (now - first_seen s) <= max_sequence_age)
            (foldl (check_sequence_rule get_context now message ruleset key)
               ([], default [] (sequence_states_ e1 !! key))
               (sequence_rules ruleset)).2) as H.
  { generalize (sequence_rules ruleset). intros rules.
    assert (Forall (fun s => to_seconds (now - first_seen s)
                             <= max_sequence_age)
              (@nil Event, default [] (sequence_states_ e1 !! key)).2) as H0.
    { cbn [snd]. apply Forall_forall. intros s Hs.
      destruct (sequence_states_ e1 !! key) as [l|] eqn:El; simpl in Hs.
      - by apply (Hc key l s).
      - by apply elem_of_nil in Hs. }
    revert H0. generalize (@nil Event, default [] (sequence_states_ e1 !! key)).
    induction rules as [|rule rules IH]; intros acc H0; simpl; [done|].
    by apply IH, check_sequence_rule_fresh. }
  destruct (foldl _ _ _) as [events sequences]. cbn [fst snd] in *.
  intros k l s Hl Hs. simpl in Hl.
  rewrite lookup_insert in Hl. case_decide as Hk.
  - injection Hl as <-. rewrite Forall_forall in H. by apply H.
  - by apply (Hc k l s).
Qed.

(** X10.  With at least one ruleset loaded, [process] leaves no stale
    state behind: whatever the engine held before, every sequence state it
    holds after the call, for any subscriber, is at most 60 whole seconds
    old at the clock reading of the call. *)
Theorem process_leaves_no_stale_state (now : Z) (key : string)
    (message : CanonicalMessage) (e : RuleEngine) (k : string)
    (l : list SequenceState) (s : SequenceState) :
  rulesets_ e <> [] ->
  sequence_states_ (process get_context now key message e).2 !! k = Some l ->
  s ∈ l ->
  to_seconds (now - first_seen s) <= max_sequence_age.
Proof.
  intros Hne. unfold process.
  assert (forall rulesets acc, rulesets <> [] \/ fresh now acc.2 ->
            fresh now
              (foldl (fun '(events, e) ruleset =>
                        let single_events :=
                          check_single_message_rules get_context now message
                            ruleset key in
                        let '(seq_events, e) :=
                          check_sequence_rules get_context now message ruleset
                            key e in
                        (events ++ single_events ++ seq_events, e))
                 acc rulesets).2) as H.
  { induction rulesets as [|rs rulesets IH]; intros [events e0] Hor; simpl.
    { by destruct Hor. }
    pose proof (check_sequence_rules_fresh now message rs key e0) as Hf.
    destruct (check_sequence_rules _ _ _ _ _ e0) as [seq_events e1].
    apply IH. by right. }
  intros Hl Hs. eapply (H (rulesets_ e) ([], e)); [by left|exact Hl|exact Hs].
Qed.
End Events.

(** Two HandoverRequests 1 s apart, both pending when the HandoverNotify
    arrives: the rule fires twice. *)
Definition two_pending : RuleEngine :=
  (check_sequence_rules no_context 2000000000 handover_request
     (handover_ruleset 15000) imsi_key
     (check_sequence_rules no_context 1000000000 handover_request
        (handover_ruleset 15000) imsi_key
        (mkEngine [handover_ruleset 15000] ∅)).2).2.

Definition pending_request (t : Z) : SequenceState :=
  mkState imsi_key "HandoverRequest" handover_request t "mobility" "1.0".

Lemma second_message_fires_once_per_pending_state_witness :
  let r := check_sequence_rules no_context 2500000000 handover_notify
             (handover_ruleset 15000) imsi_key two_pending in
  r.1 = sequence_event no_context 2500000000 (handover_rule 15000)
          handover_notify (handover_ruleset 15000) imsi_key
          <$> [pending_request 1000000000; pending_request 2000000000]
  /\ sequence_states_ r.2 !! imsi_key = Some [].
Proof.
  apply (second_message_fires_once_per_pending_state no_context
           (handover_rule 15000) (handover_ruleset 15000) eq_refl
           2500000000 handover_notify imsi_key two_pending).
  - reflexivity.
  - simpl. discriminate.
Defined.

Lemma sequence_events_are_justified_witness :
  exists rule s,
    rule ∈ sequence_rules (handover_ruleset 15000)
    /\ s ∈ default [] (sequence_states_ two_pending !! imsi_key)
    /\ second_msg_type rule = msg_type handover_notify
    /\ first_msg_type rule <> msg_type handover_notify
    /\ st_first_msg_type s = first_msg_type rule
    /\ to_milliseconds (2500000000 - first_seen s) <= time_window rule
    /\ to_seconds (2500000000 - first_seen s) <= max_sequence_age
    /\ sequence_event no_context 2500000000 (handover_rule 15000)
         handover_notify (handover_ruleset 15000) imsi_key
         (pending_request 2000000000)
       = sequence_event no_context 2500000000 rule handover_notify
           (handover_ruleset 15000) imsi_key s.
Proof.
  apply (sequence_events_are_justified no_context 2500000000 handover_notify
           (handover_ruleset 15000) imsi_key two_pending).
  vm_compute. right. left.
Defined.

Lemma process_leaves_no_stale_state_witness :
  to_seconds (100000000000 - first_seen (pending_request 100000000000))
  <= max_sequence_age.
Proof.
  apply (process_leaves_no_stale_state no_context 100000000000 imsi_key
           handover_request two_pending imsi_key
           [pending_request 100000000000] (pending_request 100000000000)).
  - discriminate.
  - by vm_compute.
  - by left.
Defined.

End RulesProperties.

(** ** Codec: SCTP framing and the hex strings of the elements *)

Module CodecProperties.
Import Codec.
Local Open Scope string_scope.
Local Open Scope N_scope.

(** *** [extractS1apFromSctp] stays inside the packet *)

Lemma at_in_range data i : i < len data -> exists b, at_ data i = Ok b.
Proof.
  intros Hi. unfold at_, len in *.
  destruct (lookup_lt_is_Some_2 data (N.to_nat i)) as [b Hb]; [lia|].
  rewrite Hb. eauto.
Qed.

Lemma bind_Ok {A B} (a : A) (f : A -> result B) : (Ok a ≫= f) = f a.
Proof. done. Qed.

(** Reads [data[i]], given that [i] is in range. *)
Ltac read_at data i b :=
  let Hb := fresh "Hb" in
  destruct (at_in_range data i) as [b Hb];
  [lia|rewrite Hb, ?bind_Ok; clear Hb].

Lemma slice_length data from count :
  from + count <= len data -> len (slice data from count) = count.
Proof.
  unfold slice, len. intros H. rewrite length_take, length_drop. lia.
Qed.

(** What a caller can rely on in a returned payload: it is a non-empty
    range of the packet. *)
Definition payload_of (packet : list Byte.byte)
    (r : option (list Byte.byte)) : Prop :=
  forall payload, r = Some payload ->
    exists from, payload = slice packet from (len payload)
                 /\ 0 < len payload /\ from + len payload <= len packet.

Lemma payload_of_None packet : payload_of packet None.
Proof. by intros ? [=]. Qed.

Lemma find_data_chunk_in_range fuel packet offset :
  exists r, find_data_chunk fuel packet offset = Ok r /\ payload_of packet r.
Proof.
  revert offset. induction fuel as [|fuel IH]; intros offset; simpl.
  { by eauto using payload_of_None. }
  destruct (offset + 4 <=? len packet) eqn:E4;
    [apply N.leb_le in E4|by eauto using payload_of_None].
  read_at packet offset b. read_at packet (offset + 2) b0.
  read_at packet (offset + 3) b1.
  set (chunk_len := N.lor (N.shiftl b0 8) b1).
  destruct ((chunk_len <? 4) || (len packet <? offset + chunk_len)) eqn:Ec;
    [by eauto using payload_of_None|].
  apply orb_false_elim in Ec as [Hc4%N.ltb_ge Hcl%N.ltb_ge].
  destruct ((b =? SCTP_CHUNK_DATA) && (16 <=? chunk_len)) eqn:Ed; [|apply IH].
  apply andb_prop in Ed as [_ H16%N.leb_le].
  read_at packet (offset + 12) p3. read_at packet (offset + 13) p2.
  read_at packet (offset + 14) p1. read_at packet (offset + 15) p0.
  destruct (negb _); [by eauto using payload_of_None|].
  destruct ((0 <? chunk_len - 16)
            && (offset + 16 + (chunk_len - 16) <=? len packet)) eqn:Ep;
    [|apply IH].
  apply andb_prop in Ep as [Hp0%N.ltb_lt Hpl%N.leb_le].
  eexists. split; [done|]. intros payload [= <-].
  exists (offset + 16). rewrite slice_length by done. done.
Qed.

Lemma skip_extension_headers_in_range limit packet protocol offset :
  exists r, skip_extension_headers limit packet protocol offset = Ok r.
Proof.
  revert protocol offset.
  induction limit as [|limit IH]; intros protocol offset; simpl; [eauto|].
  destruct (negb _ && (offset <? len packet)); [|eauto].
  destruct (_ || _ || _ || _); [|eauto].
  destruct (len packet <? offset + 8) eqn:E8; [eauto|].
  apply N.ltb_ge in E8. read_at packet (offset + 1) b. cbv zeta.
  destruct (len packet <? offset + (b + 1) * 8) eqn:El; [eauto|].
  apply N.ltb_ge in El. read_at packet offset b0. apply IH.
Qed.

(** The chunk walk moves at least 4 bytes on every turn, so any fuel that
    covers the packet gives the same result. *)
Lemma find_data_chunk_fuel fuel1 fuel2 packet offset :
  len packet < offset + 4 * N.of_nat fuel1 ->
  len packet < offset + 4 * N.of_nat fuel2 ->
  find_data_chunk fuel1 packet offset = find_data_chunk fuel2 packet offset.
Proof.
  revert fuel2 offset.
  induction fuel1 as [|fuel1 IH]; intros fuel2 offset H1 H2.
  { destruct fuel2 as [|fuel2]; simpl; [done|].
    destruct (offset + 4 <=? len packet) eqn:E; [apply N.leb_le in E; lia|done]. }
  destruct fuel2 as [|fuel2].
  { simpl.
    destruct (offset + 4 <=? len packet) eqn:E; [apply N.leb_le in E; lia|done]. }
  simpl.
  destruct (offset + 4 <=? len packet) eqn:E4; [apply N.leb_le in E4|done].
  destruct (at_ packet offset) as [b|]; [|done]. rewrite !bind_Ok.
  destruct (at_ packet (offset + 2)) as [b0|]; [|done]. rewrite !bind_Ok.
  destruct (at_ packet (offset + 3)) as [b1|]; [|done]. rewrite !bind_Ok.
  set (chunk_len := N.lor (N.shiftl b0 8) b1).
  destruct ((chunk_len <? 4) || (len packet <? offset + chunk_len)) eqn:Ec;
    [done|].
  apply orb_false_elim in Ec as [Hc4%N.ltb_ge Hcl%N.ltb_ge].
  clearbody chunk_len.
  generalize ((4 - chunk_len mod 4) mod 4). intros pad.
  rewrite (IH fuel2) by lia. done.
Qed.

Lemma extractS1apFromSctp_in_range packet :
  exists r, extractS1apFromSctp packet = Ok r /\ payload_of packet r.
Proof.
  unfold extractS1apFromSctp.
  destruct (len packet <? 14) eqn:E14; [by eauto using payload_of_None|].
  apply N.ltb_ge in E14. read_at packet 12 b. read_at packet 13 b0.
  set (eth := N.lor (N.shiftl b 8) b0).
  assert (exists eth_type offset,
            (if ((eth =? 0x8100) || (eth =? 0x88A8))
                && (14 + 4 <=? len packet)
             then v1 ← at_ packet (14 + 2);
                  v0 ← at_ packet (14 + 3);
                  Ok (N.lor (N.shiftl v1 8) v0, 14 + 4)
             else Ok (eth, 14)) = Ok (eth_type, offset))
    as (eth_type & offset & ->).
  { destruct (_ && (14 + 4 <=? len packet)) eqn:Ev; [|by eauto].
    apply andb_prop in Ev as [_ Hv%N.leb_le].
    read_at packet (14 + 2) v1. read_at packet (14 + 3) v0. eauto. }
  rewrite bind_Ok. cbv beta iota.
  assert (exists ip,
            (if eth_type =? 0x0800 then
               if len packet <? offset + 20 then Ok None else
               ver_ihl ← at_ packet offset;
               if negb (N.shiftr ver_ihl 4 =? 4) then Ok None else
               if len packet <? offset + N.land ver_ihl 0x0F * 4
               then Ok None else
               protocol ← at_ packet (offset + 9);
               Ok (Some (protocol, offset + N.land ver_ihl 0x0F * 4))
             else if eth_type =? 0x86DD then
               if len packet <? offset + 40 then Ok None else
               version ← at_ packet offset;
               if negb (N.shiftr version 4 =? 6) then Ok None else
               protocol ← at_ packet (offset + 6);
               skip_extension_headers 8 packet protocol (offset + 40)
             else Ok None) = Ok ip) as (ip & ->).
  { destruct (eth_type =? 0x0800).
    { destruct (len packet <? offset + 20) eqn:E20; [by eauto|].
      apply N.ltb_ge in E20. read_at packet offset ver_ihl.
      destruct (negb _); [by eauto|].
      destruct (len packet <? _); [by eauto|].
      read_at packet (offset + 9) protocol. eauto. }
    destruct (eth_type =? 0x86DD); [|by eauto].
    destruct (len packet <? offset + 40) eqn:E40; [by eauto|].
    apply N.ltb_ge in E40. read_at packet offset version.
    destruct (negb _); [by eauto|]. read_at packet (offset + 6) protocol.
    apply skip_extension_headers_in_range. }
  rewrite bind_Ok.
  destruct ip as [[protocol offset']|]; [|by eauto using payload_of_None].
  destruct (negb _); [by eauto using payload_of_None|].
  destruct (len packet <? offset' + 12); [by eauto using payload_of_None|].
  apply find_data_chunk_in_range.
Qed.

(** X11.  [extractS1apFromSctp] never reads outside the packet, whatever
    the bytes are: every read is guarded.  A payload it returns is a
    non-empty range of the packet.  (The chunk walk of the model has as
    many turns as the packet has bytes; more turns change nothing.) *)
Theorem extractS1apFromSctp_stays_in_the_packet (packet : list Byte.byte) :
  (exists r, extractS1apFromSctp packet = Ok r
             /\ forall payload, r = Some payload ->
                  exists from, payload = slice packet from (len payload)
                               /\ 0 < len payload
                               /\ from + len payload <= len packet)
  /\ forall fuel offset, (length packet <= fuel)%nat ->
       find_data_chunk fuel packet offset
       = find_data_chunk (length packet) packet offset.
Proof.
  split; [exact (extractS1apFromSctp_in_range packet)|].
  intros fuel offset Hfuel.
  destruct (decide (len packet < offset + 4)) as [Hs|Hs].
  - destruct fuel as [|fuel], (length packet) as [|n] eqn:En; simpl;
      try done;
      (destruct (offset + 4 <=? len packet) eqn:E;
       [apply N.leb_le in E; lia|done]).
  - apply find_data_chunk_fuel; unfold len in *; lia.
Qed.

(** *** The hex strings of the elements convert back *)

Lemma hex_byte_round_trip b rest :
  hex_pairs (String (hex_digit (Byte.to_N b / 16))
               (String (hex_digit (Byte.to_N b mod 16)) rest))
  = b :: hex_pairs rest.
Proof. destruct b; reflexivity. Qed.

Lemma hex_byte_no_separator b rest :
  remove_separators (String (hex_digit (Byte.to_N b / 16))
                       (String (hex_digit (Byte.to_N b mod 16)) rest))
  = String (hex_digit (Byte.to_N b / 16))
      (String (hex_digit (Byte.to_N b mod 16)) (remove_separators rest)).
Proof. destruct b; reflexivity. Qed.

Lemma hex_of_bytes_no_separator bytes :
  remove_separators (hex_of_bytes bytes) = hex_of_bytes bytes.
Proof.
  induction bytes as [|b bytes IH]; [done|].
  cbn [hex_of_bytes]. cbv zeta. by rewrite hex_byte_no_separator, IH.
Qed.

Lemma hex_pairs_of_bytes bytes : hex_pairs (hex_of_bytes bytes) = bytes.
Proof.
  induction bytes as [|b bytes IH]; [done|].
  cbn [hex_of_bytes]. cbv zeta. by rewrite hex_byte_round_trip, IH.
Qed.

Lemma hex_length_two_per_byte bytes :
  String.length (hex_of_bytes bytes) = (2 * length bytes)%nat.
Proof.
  induction bytes as [|b bytes IH]; [done|].
  cbn [hex_of_bytes String.length length]. cbv zeta.
  cbn [String.length]. rewrite IH. lia.
Qed.

(** X12.  The hex string the parser stores for the value of an element
    converts back to the bytes of the value: [hex_string_to_bytes] undoes
    [hex_of_bytes] on every byte string, and the string has two characters
    for every byte. *)
Theorem hex_string_to_bytes_undoes_hex_of_bytes (bytes : list Byte.byte) :
  hex_string_to_bytes (hex_of_bytes bytes) = bytes
  /\ String.length (hex_of_bytes bytes) = (2 * length bytes)%nat.
Proof.
  split.
  - unfold hex_string_to_bytes.
    by rewrite hex_of_bytes_no_separator, hex_pairs_of_bytes.
  - apply hex_length_two_per_byte.
Qed.

(** *** The S1AP ids [decode] stores *)

(** The number a byte string is in base 256, first byte first. *)
Definition big_endian (bytes : list Byte.byte) : N :=
  foldl (fun acc b => 256 * acc + Byte.to_N b) 0 bytes.

Lemma hex_prefix_byte b rest acc :
  hex_prefix (String (hex_digit (Byte.to_N b / 16))
                (String (hex_digit (Byte.to_N b mod 16)) rest)) acc
  = hex_prefix rest (256 * acc + Byte.to_N b).
Proof. destruct b; simpl; f_equal; lia. Qed.

Lemma hex_prefix_of_bytes bytes acc :
  hex_prefix (hex_of_bytes bytes) acc
  = foldl (fun acc b => 256 * acc + Byte.to_N b) acc bytes.
Proof.
  revert acc. induction bytes as [|b bytes IH]; intros acc; [done|].
  cbn [hex_of_bytes foldl]. cbv zeta. by rewrite hex_prefix_byte, IH.
Qed.

Lemma stoul16_hex_byte b rest :
  let s := String (hex_digit (Byte.to_N b / 16))
             (String (hex_digit (Byte.to_N b mod 16)) rest) in
  stoul16 s
  = if hex_prefix s 0 <? 2 ^ 64 then Some (hex_prefix s 0) else None.
Proof. destruct b; reflexivity. Qed.

Lemma stoul16_of_bytes bytes :
  stoul16 (hex_of_bytes bytes)
  = match bytes with
    | [] => None
    | _ => if big_endian bytes <? 2 ^ 64 then Some (big_endian bytes)
           else None
    end.
Proof.
  destruct bytes as [|b bytes]; [done|].
  unfold big_endian. rewrite <- (hex_prefix_of_bytes (b :: bytes) 0).
  cbn [hex_of_bytes]. cbv zeta. apply stoul16_hex_byte.
Qed.

(** X13.  The id [decode] stores for an element is the number its bytes
    are in base 256, reduced modulo 2^32 and read as a signed 32-bit
    integer: an MME-UE-S1AP-ID of 2^31 or more comes out negative.  When
    the number does not fit 64 bits the conversion throws and the field
    keeps the value it had. *)
Theorem id_of_element_is_the_signed_low_word (ies : gmap string string)
    (name : string) (current : Z) (bytes : list Byte.byte) :
  ies !! name = Some (hex_of_bytes bytes) -> bytes <> [] ->
  id_of_element ies name current
  = if big_endian bytes <? 2 ^ 64
    then let u := big_endian bytes mod 2 ^ 32 in
         if u <? 2 ^ 31 then Z.of_N u else (Z.of_N u - 2 ^ 32)%Z
    else current.
Proof.
  intros Hies Hne. unfold id_of_element. rewrite Hies, stoul16_of_bytes.
  destruct bytes as [|b bytes]; [done|].
  by destruct (big_endian (b :: bytes) <? 2 ^ 64).
Qed.

Lemma id_of_element_is_the_signed_low_word_witness :
  id_of_element
    {["MME-UE-S1AP-ID" := hex_of_bytes [Byte.x80; Byte.x00; Byte.x00; Byte.x01]]}
    "MME-UE-S1AP-ID" 0
  = if big_endian [Byte.x80; Byte.x00; Byte.x00; Byte.x01] <? 2 ^ 64
    then let u := big_endian [Byte.x80; Byte.x00; Byte.x00; Byte.x01]
                  mod 2 ^ 32 in
         if u <? 2 ^ 31 then Z.of_N u else (Z.of_N u - 2 ^ 32)%Z
    else 0%Z.
Proof.
  apply (id_of_element_is_the_signed_low_word
           {["MME-UE-S1AP-ID" :=
               hex_of_bytes [Byte.x80; Byte.x00; Byte.x00; Byte.x01]]}
           "MME-UE-S1AP-ID" 0 [Byte.x80; Byte.x00; Byte.x00; Byte.x01]).
  - by vm_compute.
  - done.
Defined.

(** *** From the S-TMSI element to the key of the subscriber store *)

Lemma substring_skip_pair a b rest n m :
  String.substring (S (S n)) m (String a (String b rest))
  = String.substring n m rest.
Proof. done. Qed.

Lemma substring_all s : String.substring 0 (String.length s) s = s.
Proof. induction s as [|c s IH]; simpl; [done|]. by rewrite IH. Qed.

Lemma hex_of_bytes_length bytes :
  String.length (hex_of_bytes bytes) = (2 * length bytes)%nat.
Proof. apply hex_length_two_per_byte. Qed.

Lemma substring_hex_of_bytes bytes k :
  (k <= length bytes)%nat ->
  String.substring (2 * k) (2 * (length bytes - k)) (hex_of_bytes bytes)
  = hex_of_bytes (drop k bytes).
Proof.
  revert k. induction bytes as [|b bytes IH]; intros k Hk.
  { simpl in Hk. by replace k with 0%nat by lia. }
  destruct k as [|k].
  { rewrite Nat.sub_0_r, drop_0, <- hex_of_bytes_length.
    apply substring_all. }
  replace (2 * S k)%nat with (S (S (2 * k))) by lia.
  cbn [hex_of_bytes length drop]. cbv zeta.
  rewrite substring_skip_pair. simpl in Hk.
  replace (S (length bytes) - S k)%nat with (length bytes - k)%nat by lia.
  apply IH. lia.
Qed.

Lemma upper_then_lower_byte b rest :
  Correlator.keep_xdigits_lower
    (keep_xdigits_upper
       (String (hex_digit (Byte.to_N b / 16))
          (String (hex_digit (Byte.to_N b mod 16)) rest)))
  = String (hex_digit (Byte.to_N b / 16))
      (String (hex_digit (Byte.to_N b mod 16))
         (Correlator.keep_xdigits_lower (keep_xdigits_upper rest))).
Proof. destruct b; reflexivity. Qed.

Lemma upper_byte_length b rest :
  String.length
    (keep_xdigits_upper
       (String (hex_digit (Byte.to_N b / 16))
          (String (hex_digit (Byte.to_N b mod 16)) rest)))
  = S (S (String.length (keep_xdigits_upper rest))).
Proof. destruct b; reflexivity. Qed.

Lemma upper_then_lower bytes :
  Correlator.keep_xdigits_lower (keep_xdigits_upper (hex_of_bytes bytes))
  = hex_of_bytes bytes.
Proof.
  induction bytes as [|b bytes IH]; [done|].
  cbn [hex_of_bytes]. cbv zeta. by rewrite upper_then_lower_byte, IH.
Qed.

Lemma upper_length bytes :
  String.length (keep_xdigits_upper (hex_of_bytes bytes))
  = (2 * length bytes)%nat.
Proof.
  induction bytes as [|b bytes IH]; [done|].
  cbn [hex_of_bytes length]. cbv zeta. rewrite upper_byte_length, IH. lia.
Qed.

(** X14.  From the S-TMSI element to the key of the subscriber store: for
    an element of at least 5 bytes, [extractTmsiFromIEList] followed by
    the store's [normalizeTmsi] gives the lower-case hex of the last 4
    bytes (the m-TMSI); for a shorter element it gives nothing. *)
Theorem s_tmsi_element_gives_the_m_tmsi (ies : gmap string string)
    (bytes : list Byte.byte) :
  ies !! "S-TMSI" = Some (hex_of_bytes bytes) ->
  Correlator.normalizeTmsi <$> extractTmsiFromIEList ies
  = if (length bytes <? 5)%nat then []
    else [hex_of_bytes (drop (length bytes - 4) bytes)].
Proof.
  intros Hies. unfold extractTmsiFromIEList. rewrite Hies.
  cbv zeta. rewrite hex_of_bytes_length.
  destruct (length bytes <? 5)%nat eqn:E5.
  { apply Nat.ltb_lt in E5.
    assert ((2 * length bytes <? 10)%nat = true) as ->
      by (apply Nat.ltb_lt; lia). done. }
  apply Nat.ltb_ge in E5.
  assert ((2 * length bytes <? 10)%nat = false) as ->
    by (apply Nat.ltb_ge; lia).
  assert (String.substring (2 * length bytes - 8) 8 (hex_of_bytes bytes)
          = hex_of_bytes (drop (length bytes - 4) bytes)) as ->.
  { rewrite <- substring_hex_of_bytes by lia. f_equal; lia. }
  rewrite upper_length, length_drop.
  replace (2 * (length bytes - (length bytes - 4)))%nat with 8%nat by lia.
  cbn [Nat.eqb fmap list_fmap].
  by rewrite StoreProperties.normalizeTmsi_keep, upper_then_lower.
Qed.

Lemma s_tmsi_element_gives_the_m_tmsi_witness :
  Correlator.normalizeTmsi
    <$> extractTmsiFromIEList
          {["S-TMSI" := hex_of_bytes
                          [Byte.x00; Byte.xde; Byte.xad; Byte.xbe; Byte.xef]]}
  = if (length [Byte.x00; Byte.xde; Byte.xad; Byte.xbe; Byte.xef] <? 5)%nat
    then []
    else [hex_of_bytes
            (drop (length [Byte.x00; Byte.xde; Byte.xad; Byte.xbe; Byte.xef]
                   - 4)
               [Byte.x00; Byte.xde; Byte.xad; Byte.xbe; Byte.xef])].
Proof.
  apply (s_tmsi_element_gives_the_m_tmsi
           {["S-TMSI" := hex_of_bytes
                           [Byte.x00; Byte.xde; Byte.xad; Byte.xbe; Byte.xef]]}
           [Byte.x00; Byte.xde; Byte.xad; Byte.xbe; Byte.xef]).
  by vm_compute.
Defined.

End CodecProperties.

(** ** The S1AP ids the correlator reads (s1ap_parser.cpp, extractS1apIds) *)

Module S1apIds.
Import Codec.
Local Open Scope string_scope.
Local Open Scope N_scope.

(** [hexToBytes]: two characters a byte, a last single character is
    dropped; [None] when [std::stoul] throws on a pair. *)
Fixpoint hexToBytes (hex : string) : option (list Byte.byte) :=
  match hex with
  | String a (String b rest) =>
      match stoul16 (String a (String b EmptyString)) with
      | Some v => cons (byte_of v) <$> hexToBytes rest
      | None => None
      end
  | _ => Some []
  end.

(** Four bytes as a big-endian [uint32_t]. *)
Definition uint32_of (b0 b1 b2 b3 : Byte.byte) : N :=
  N.lor (N.lor (N.lor (N.shiftl (Byte.to_N b0) 24)
                  (N.shiftl (Byte.to_N b1) 16))
           (N.shiftl (Byte.to_N b2) 8))
    (Byte.to_N b3).

(** The first block: both ids from the element UE-S1AP-IDs; an exception
    of [hexToBytes] is caught and leaves both unset. *)
Definition ids_of_pair (ies : gmap string string) : option N * option N :=
  match ies !! "UE-S1AP-IDs" with
  | Some ue_s1ap_ids_hex =>
      match ue_s1ap_ids_hex with
      | EmptyString => (None, None)
      | _ =>
          match hexToBytes ue_s1ap_ids_hex with
          | Some (b0 :: b1 :: b2 :: b3 :: b4 :: b5 :: b6 :: b7 :: _) =>
              (Some (uint32_of b0 b1 b2 b3), Some (uint32_of b4 b5 b6 b7))
          | _ => (None, None)
          end
      end
  | None => (None, None)
  end.

(** The prefix ["0x"] is cut from a string longer than 2. *)
Definition without_0x (hex_str : string) : string :=
  if (2 <? String.length hex_str)%nat
     && String.eqb (String.substring 0 2 hex_str) "0x"
  then String.substring 2 (String.length hex_str - 2) hex_str
  else hex_str.

(** One id from its own element:
    [static_cast<uint32_t>(std::stoul(hex_str, nullptr, 16))], unset when
    the element is missing or empty, or the conversion throws. *)
Definition id_of_own_element (ies : gmap string string) (name : string)
    : option N :=
  match ies !! name with
  | Some hex =>
      match hex with
      | EmptyString => None
      | _ => (fun v => v mod 2 ^ 32) <$> stoul16 (without_0x hex)
      end
  | None => None
  end.

(** [extractS1apIds]: (MME-UE-S1AP-ID, eNB-UE-S1AP-ID). *)
Definition extractS1apIds (s1ap_result : S1apParseResult)
    : option N * option N :=
  let ies := information_elements s1ap_result in
  let '(mme_ue_s1ap_id, enb_ue_s1ap_id) := ids_of_pair ies in
  (match mme_ue_s1ap_id with
   | Some _ => mme_ue_s1ap_id
   | None => id_of_own_element ies "MME-UE-S1AP-ID"
   end,
   match enb_ue_s1ap_id with
   | Some _ => enb_ue_s1ap_id
   | None => id_of_own_element ies "eNB-UE-S1AP-ID"
   end).

End S1apIds.

Module S1apIdsFacts.
Import Codec CodecProperties S1apIds.
Local Open Scope string_scope.
Local Open Scope N_scope.

Lemma hexToBytes_byte b rest :
  hexToBytes (String (hex_digit (Byte.to_N b / 16))
                (String (hex_digit (Byte.to_N b mod 16)) rest))
  = cons b <$> hexToBytes rest.
Proof. destruct b; reflexivity. Qed.

Lemma hexToBytes_of_bytes bytes : hexToBytes (hex_of_bytes bytes) = Some bytes.
Proof.
  induction bytes as [|b bytes IH]; [done|].
  cbn [hex_of_bytes]. cbv zeta. by rewrite hexToBytes_byte, IH.
Qed.

Lemma small_bits d k n : d < 2 ^ k -> k <= n -> N.testbit d n = false.
Proof.
  intros Hd Hn. destruct (N.eq_dec d 0) as [->|Hz]; [apply N.bits_0|].
  apply N.bits_above_log2, N.log2_lt_pow2; [lia|].
  eapply N.lt_le_trans; [exact Hd|]. apply N.pow_le_mono_r; lia.
Qed.

Lemma lor_shiftl_small x d k :
  d < 2 ^ k -> N.lor (N.shiftl x k) d = x * 2 ^ k + d.
Proof.
  intros Hd. rewrite N.shiftl_mul_pow2.
  assert (N.land (x * 2 ^ k) d = 0) as Hland.
  { apply N.bits_inj_0. intros n. rewrite N.land_spec.
    destruct (N.lt_ge_cases n k) as [Hn|Hn].
    - by rewrite N.mul_pow2_bits_low.
    - by rewrite (small_bits d k n Hd Hn), andb_false_r. }
  by rewrite <- N.lxor_lor, <- N.add_nocarry_lxor.
Qed.

Lemma byte_small b : Byte.to_N b < 256.
Proof. pose proof (Byte.to_N_bounded b). lia. Qed.

Lemma uint32_of_big_endian b0 b1 b2 b3 :
  uint32_of b0 b1 b2 b3 = big_endian [b0; b1; b2; b3]
  /\ uint32_of b0 b1 b2 b3 < 2 ^ 32.
Proof.
  pose proof (byte_small b0). pose proof (byte_small b1).
  pose proof (byte_small b2). pose proof (byte_small b3).
  unfold uint32_of, big_endian. cbn [foldl].
  replace (N.shiftl (Byte.to_N b0) 24)
    with (N.shiftl (N.shiftl (Byte.to_N b0) 8) 16)
    by (rewrite N.shiftl_shiftl; done).
  rewrite <- N.shiftl_lor, (lor_shiftl_small (Byte.to_N b0) _ 8) by done.
  replace (N.shiftl (Byte.to_N b0 * 2 ^ 8 + Byte.to_N b1) 16)
    with (N.shiftl (N.shiftl (Byte.to_N b0 * 2 ^ 8 + Byte.to_N b1) 8) 8)
    by (rewrite N.shiftl_shiftl; done).
  rewrite <- N.shiftl_lor, (lor_shiftl_small _ _ 8) by done.
  rewrite (lor_shiftl_small _ _ 8) by done.
  change (2 ^ 8) with 256. change (2 ^ 32) with 4294967296. lia.
Qed.

Lemma hex_of_bytes_nonempty b bytes :
  exists c s, hex_of_bytes (b :: bytes) = String c s.
Proof. cbn [hex_of_bytes]. cbv zeta. eauto. Qed.

Lemma without_0x_hex_of_bytes bytes :
  without_0x (hex_of_bytes bytes) = hex_of_bytes bytes.
Proof.
  destruct bytes as [|b bytes]; [done|].
  unfold without_0x. cbn [hex_of_bytes]. cbv zeta.
  assert (String.eqb
            (String.substring 0 2
               (String (hex_digit (Byte.to_N b / 16))
                  (String (hex_digit (Byte.to_N b mod 16))
                     (hex_of_bytes bytes)))) "0x" = false) as ->.
  { destruct b; reflexivity. }
  by rewrite andb_false_r.
Qed.

Lemma id_of_own_element_of_bytes ies name bytes :
  ies !! name = Some (hex_of_bytes bytes) ->
  id_of_own_element ies name
  = match bytes with
    | [] => None
    | _ => if big_endian bytes <? 2 ^ 64
           then Some (big_endian bytes mod 2 ^ 32) else None
    end.
Proof.
  intros Hies. unfold id_of_own_element. rewrite Hies.
  destruct bytes as [|b bytes]; [done|].
  destruct (hex_of_bytes_nonempty b bytes) as (c & s & Hs).
  rewrite Hs, <- Hs, without_0x_hex_of_bytes, stoul16_of_bytes.
  by destruct (big_endian (b :: bytes) <? 2 ^ 64).
Qed.

(** X24.  When the element UE-S1AP-IDs holds 8 bytes or more,
    [extractS1apIds] takes both ids from it, the MME-UE-S1AP-ID from its
    first 4 bytes and the eNB-UE-S1AP-ID from the next 4, big-endian, and
    does not look at the elements MME-UE-S1AP-ID and eNB-UE-S1AP-ID; when
    it holds fewer than 8 bytes it is ignored. *)
Theorem ue_s1ap_ids_element_comes_first (s1ap_result : S1apParseResult)
    (bytes : list Byte.byte) :
  information_elements s1ap_result !! "UE-S1AP-IDs"
  = Some (hex_of_bytes bytes) ->
  extractS1apIds s1ap_result
  = if (8 <=? length bytes)%nat
    then (Some (big_endian (take 4 bytes)),
          Some (big_endian (take 4 (drop 4 bytes))))
    else (id_of_own_element (information_elements s1ap_result)
            "MME-UE-S1AP-ID",
          id_of_own_element (information_elements s1ap_result)
            "eNB-UE-S1AP-ID").
Proof.
  intros Hies. unfold extractS1apIds, ids_of_pair. cbv zeta. rewrite Hies.
  destruct bytes as [|b0 bytes]; [done|].
  destruct (hex_of_bytes_nonempty b0 bytes) as (c & s & Hs).
  rewrite Hs, <- Hs, hexToBytes_of_bytes.
  do 7 (destruct bytes as [|? bytes]; [done|]).
  cbn [length Nat.leb take drop].
  by rewrite !(proj1 (uint32_of_big_endian _ _ _ _)).
Qed.

Definition both_ids : list Byte.byte :=
  [Byte.x00; Byte.x00; Byte.x01; Byte.x00;
   Byte.x00; Byte.x00; Byte.x00; Byte.x07].

Definition pair_and_own : S1apParseResult :=
  mkParse true INITIATING_MESSAGE 12 "InitialUEMessage"
    {["UE-S1AP-IDs" := hex_of_bytes both_ids; "MME-UE-S1AP-ID" := "ff"]} [].

Lemma ue_s1ap_ids_element_comes_first_witness :
  extractS1apIds pair_and_own
  = if (8 <=? length both_ids)%nat
    then (Some (big_endian (take 4 both_ids)),
          Some (big_endian (take 4 (drop 4 both_ids))))
    else (id_of_own_element (information_elements pair_and_own)
            "MME-UE-S1AP-ID",
          id_of_own_element (information_elements pair_and_own)
            "eNB-UE-S1AP-ID").
Proof.
  apply (ue_s1ap_ids_element_comes_first pair_and_own both_ids).
  by vm_compute.
Defined.

(** X25.  Without a UE-S1AP-IDs element, the MME-UE-S1AP-ID the
    correlator gets from [extractS1apIds] is the number of the element's
    bytes modulo 2^32, unset when the element is empty or its number does
    not fit 64 bits; and whenever the correlator gets an id [u], the id
    [decode] stores for the same element is [u] read as a signed 32-bit
    integer, so the two differ by 2^32 for ids of 2^31 and more. *)
Theorem correlator_and_decoder_read_the_same_id
    (s1ap_result : S1apParseResult) (bytes : list Byte.byte) (current : Z) :
  information_elements s1ap_result !! "UE-S1AP-IDs" = None ->
  information_elements s1ap_result !! "MME-UE-S1AP-ID"
  = Some (hex_of_bytes bytes) ->
  (extractS1apIds s1ap_result).1
  = (if (0 <? length bytes)%nat && (big_endian bytes <? 2 ^ 64)
     then Some (big_endian bytes mod 2 ^ 32) else None)
  /\ forall u, (extractS1apIds s1ap_result).1 = Some u ->
       id_of_element (information_elements s1ap_result) "MME-UE-S1AP-ID"
         current
       = if u <? 2 ^ 31 then Z.of_N u else (Z.of_N u - 2 ^ 32)%Z.
Proof.
  intros Hpair Hies.
  assert ((extractS1apIds s1ap_result).1
          = id_of_own_element (information_elements s1ap_result)
              "MME-UE-S1AP-ID") as ->.
  { unfold extractS1apIds, ids_of_pair. cbv zeta. by rewrite Hpair. }
  rewrite (id_of_own_element_of_bytes _ _ bytes Hies).
  unfold id_of_element. rewrite Hies, stoul16_of_bytes.
  destruct bytes as [|b bytes]; [done|]. cbn [length Nat.ltb Nat.leb andb].
  destruct (big_endian (b :: bytes) <? 2 ^ 64); [|done].
  split; [done|]. by intros u [= <-].
Qed.

Definition high_id : list Byte.byte :=
  [Byte.x80; Byte.x00; Byte.x00; Byte.x01].

Definition own_element_only : S1apParseResult :=
  mkParse true INITIATING_MESSAGE 13 "UplinkNASTransport"
    {["MME-UE-S1AP-ID" := hex_of_bytes high_id]} [].

Lemma correlator_and_decoder_read_the_same_id_witness :
  (extractS1apIds own_element_only).1
  = (if (0 <? length high_id)%nat && (big_endian high_id <? 2 ^ 64)
     then Some (big_endian high_id mod 2 ^ 32) else None)
  /\ forall u, (extractS1apIds own_element_only).1 = Some u ->
       id_of_element (information_elements own_element_only)
         "MME-UE-S1AP-ID" 0
       = if u <? 2 ^ 31 then Z.of_N u else (Z.of_N u - 2 ^ 32)%Z.
Proof.
  apply (correlator_and_decoder_read_the_same_id own_element_only high_id 0).
  - by vm_compute.
  - by vm_compute.
Defined.

End S1apIdsFacts.

(** ** Write-ahead log: restart, high-water mark and consumer offsets *)

Module WalProperties.
Import Wal WalFacts.
Local Open Scope Z_scope.

(** [~WALLog]: every active segment is flushed and closed; what is left
    is the directory. *)
Definition close_log (w : WALLog) : gmap (Z * Z) Files :=
  disk (map_fold (fun _ seg w => (flush_segment_buffers seg w).2) w
          (active_segments_ w)).

(** The constructor on an existing base directory: it makes the partition
    directories and loads the consumer offsets; no segment is active. *)
Definition reopen_log (c : Config) (d : gmap (Z * Z) Files) : WALLog :=
  mkWal c ∅ d.

(** *** Where a new segment starts *)

Definition scan_step (p : Z) (base_offset : Z) (entry : Z * Z * Files) : Z :=
  let '((q, seg_offset), f) := entry in
  if (q =? p) && exists_file (log_bytes f) && (base_offset <=? seg_offset)
  then seg_offset + 1
  else base_offset.

Lemma scan_step_spec p l acc :
  let r := foldl (scan_step p) acc l in
  acc <= r
  /\ (forall b f, ((p, b), f) ∈ l -> is_Some (log_bytes f) -> b < r)
  /\ (r = acc
      \/ exists f, ((p, r - 1), f) ∈ l /\ is_Some (log_bytes f)).
Proof.
  revert acc. induction l as [|[[q b] f] l IH]; intros acc; cbn [foldl].
  { cbv zeta. split; [lia|]. split; [|by left]. by intros ? ? ?%elem_of_nil. }
  cbv zeta.
  destruct (IH (scan_step p acc (q, b, f))) as (Hle & Hall & Hlast).
  assert (acc <= scan_step p acc (q, b, f)
          /\ (is_Some (log_bytes f) -> q = p -> b < scan_step p acc (q, b, f))
          /\ (scan_step p acc (q, b, f) = acc
              \/ (q = p /\ is_Some (log_bytes f)
                  /\ scan_step p acc (q, b, f) = b + 1))) as (H1 & H2 & H3).
  { unfold scan_step.
    destruct (q =? p) eqn:Eq; [apply Z.eqb_eq in Eq|apply Z.eqb_neq in Eq];
      destruct (log_bytes f) as [n|]; simpl;
      try (destruct (acc <=? b) eqn:Eb;
           [apply Z.leb_le in Eb|apply Z.leb_gt in Eb]);
      (split; [lia|]); (split; [intros [? ?] ?; try done; lia|]); eauto. }
  split; [lia|]. split.
  - intros b' f' Hin Hsome.
    apply elem_of_cons in Hin as [Heq|Hin]; [|by eapply Hall].
    simplify_eq. specialize (H2 Hsome eq_refl). lia.
  - destruct Hlast as [Hr|(f' & Hin & Hsome)].
    + destruct H3 as [H3|(-> & Hsome & H3)]; [left; congruence|].
      right. exists f. split; [|done]. rewrite Hr, H3.
      replace (b + 1 - 1) with b by lia. by left.
    + right. exists f'. split; [by right|done].
Qed.

Lemma scan_base_offset_fold p w :
  scan_base_offset p w = foldl (scan_step p) 0 (map_to_list (disk w)).
Proof. done. Qed.

(** The scan gives one past the highest base offset of the partition's
    log files, whatever the order of the directory. *)
Lemma scan_base_offset_spec p w :
  (forall b f, disk w !! (p, b) = Some f -> is_Some (log_bytes f) ->
     b < scan_base_offset p w)
  /\ (scan_base_offset p w = 0
      \/ exists f, disk w !! (p, scan_base_offset p w - 1) = Some f
                   /\ is_Some (log_bytes f)).
Proof.
  rewrite scan_base_offset_fold.
  destruct (scan_step_spec p (map_to_list (disk w)) 0) as (_ & Hall & Hlast).
  split.
  - intros b f Hb. apply Hall. by apply elem_of_map_to_list.
  - destruct Hlast as [?|(f & Hin%elem_of_map_to_list & ?)]; eauto.
Qed.

(** The log file of the new segment is never there, so the offset never
    resumes from the index. *)
Lemma first_offset_is_scan p w : first_offset p w = scan_base_offset p w.
Proof.
  unfold first_offset, files_at.
  destruct (scan_base_offset_spec p w) as [Hall _].
  destruct (disk w !! (p, scan_base_offset p w)) as [f|] eqn:Ef; [|done].
  simpl. destruct (log_bytes f) as [n|] eqn:En; [|done].
  specialize (Hall _ f Ef). rewrite En in Hall.
  specialize (Hall (ex_intro _ n eq_refl)). lia.
Qed.

Section Restart.
Variable hasher : string -> N.
Variable serialize : Z -> Z -> SignalMessage -> option Z.

(** X15.  The first append to a partition after the log is opened returns
    one more than the highest base offset among the partition's segment
    files (0 when there is none), whatever the number of records those
    segments hold: the log does not continue after its last record. *)
Theorem first_append_restarts_after_highest_base (env : Env)
    (m : SignalMessage) (w : WALLog) (p o : Z) (w' : WALLog) :
  active_segments_ w !! partition_for_message hasher m w = None ->
  append hasher serialize env m w = (Returned (p, o), w') ->
  (forall b f, disk w !! (p, b) = Some f -> is_Some (log_bytes f) -> b < o)
  /\ (o = 0 \/ exists f, disk w !! (p, o - 1) = Some f
                         /\ is_Some (log_bytes f)).
Proof.
  intros Hnone (-> & seg & w0 & Hseg & ->)%append_returned.
  apply get_or_create_segment_offset in Hseg.
  rewrite Hnone, first_offset_is_scan in Hseg. rewrite Hseg.
  apply scan_base_offset_spec.
Qed.
End Restart.

(** Three appends on a fresh log, then the log is closed and opened
    again. *)
Definition three_records : WALLog :=
  (append_ files_ok (pdu 3)
     (append_ files_ok (pdu 2)
        (append_ files_ok (pdu 1) (open_log default_config)).2).2).2.

Definition restarted : WALLog :=
  reopen_log default_config (close_log three_records).

Lemma first_append_restarts_after_highest_base_witness :
  current_offset <$> active_segments_ three_records !! 0 = Some 3
  /\ (append_ files_ok (pdu 4) restarted).1 = Returned (0, 1)
  /\ (forall b f, disk restarted !! (0, b) = Some f ->
        is_Some (log_bytes f) -> b < 1)
  /\ (1 = 0 \/ exists f, disk restarted !! (0, 1 - 1) = Some f
                         /\ is_Some (log_bytes f)).
Proof.
  split; [by vm_compute|]. split; [by vm_compute|].
  apply (first_append_restarts_after_highest_base one_partition
           serialized_size files_ok (pdu 4) restarted 0 1
           (append_ files_ok (pdu 4) restarted).2).
  - by vm_compute.
  - by vm_compute.
Defined.

(** *** High-water mark *)

Section HighWater.
(** The offset stored in the last entry of the index file of a segment,
    [None] when the read fails. *)
Variable last_index_offset : Z -> Z -> option Z.

Definition mark_step (p : Z) (max_offset : Z) (entry : Z * Z * Files) : Z :=
  let '((q, b), f) := entry in
  if q =? p then
    match idx_bytes f with
    | Some size =>
        if INDEX_ENTRY_SIZE <=? size then
          match last_index_offset q b with
          | Some last_offset =>
              if max_offset <? last_offset then last_offset else max_offset
          | None => max_offset
          end
        else max_offset
    | None => max_offset
    end
  else max_offset.

(** [get_high_water_mark]: from the active segment when the partition has
    one, else from the last entries of the index files. *)
Definition get_high_water_mark (p : Z) (w : WALLog) : Z :=
  match active_segments_ w !! p with
  | Some seg => current_offset seg - 1
  | None => foldl (mark_step p) 0 (map_to_list (disk w))
  end.

(** Every active segment is filed under its own partition. *)
Definition keyed (w : WALLog) : Prop :=
  forall p seg, active_segments_ w !! p = Some seg -> partition seg = p.

Lemma keyed_open_log c : keyed (open_log c).
Proof. intros p seg H. simpl in H. by rewrite lookup_empty in H. Qed.

Lemma open_segment_files_frame env seg w r seg' w' :
  open_segment_files env seg w = (r, seg', w') ->
  partition seg' = partition seg /\ current_offset seg' = current_offset seg
  /\ active_segments_ w' = active_segments_ w.
Proof.
  unfold open_segment_files. intros H.
  repeat case_match; simplify_eq; done.
Qed.

Lemma write_log_through_active h p b n w :
  active_segments_ (write_log_through h p b n w) = active_segments_ w.
Proof. by destruct h. Qed.
Lemma write_idx_through_active h p b n w :
  active_segments_ (write_idx_through h p b n w) = active_segments_ w.
Proof. by destruct h. Qed.

Lemma append_log_frame env n seg w r seg' w' :
  append_log env n seg w = (r, seg', w') ->
  partition seg' = partition seg /\ current_offset seg' = current_offset seg
  /\ active_segments_ w' = active_segments_ w.
Proof.
  unfold append_log. intros H.
  destruct (use_buffering (config_ w) && non_null (log_file seg)).
  { case_match; simplify_eq; simpl;
      rewrite ?write_log_through_active; done. }
  destruct (non_null (log_file seg)).
  { simplify_eq. by rewrite write_log_through_active. }
  destruct (open_segment_files env seg w) as [[r1 seg1] w1] eqn:Ho.
  apply open_segment_files_frame in Ho as (? & ? & ?).
  destruct r1; simplify_eq; rewrite ?write_log_through_active; done.
Qed.

Lemma append_idx_frame env seg w r seg' w' :
  append_idx env seg w = (r, seg', w') ->
  partition seg' = partition seg /\ current_offset seg' = current_offset seg
  /\ active_segments_ w' = active_segments_ w.
Proof.
  unfold append_idx. intros H.
  destruct (use_buffering (config_ w) && non_null (idx_file seg)).
  { case_match; simplify_eq; simpl;
      rewrite ?write_idx_through_active; done. }
  destruct (non_null (idx_file seg)).
  { simplify_eq. by rewrite write_idx_through_active. }
  destruct (open_segment_files env seg w) as [[r1 seg1] w1] eqn:Ho.
  apply open_segment_files_frame in Ho as (? & ? & ?).
  destruct r1; simplify_eq; rewrite ?write_idx_through_active; done.
Qed.

Lemma get_or_create_segment_keyed env p w seg w0 :
  keyed w -> get_or_create_segment env p w = (Returned seg, w0) ->
  partition seg = p.
Proof.
  intros Hk. unfold get_or_create_segment.
  destruct (active_segments_ w !! p) as [active|] eqn:Ea.
  - case_match; intros ?; simplify_eq. by apply Hk.
  - destruct (open_segment_files _ _ _) as [[r seg1] w1] eqn:Ho.
    apply open_segment_files_frame in Ho as (Hp & _ & _).
    destruct r; intros ?; simplify_eq. done.
Qed.

Variable hasher : string -> N.
Variable serialize : Z -> Z -> SignalMessage -> option Z.

(** After a successful append the partition has an active segment, filed
    under the partition, whose next offset is one past the returned. *)
Lemma append_leaves_segment env m w p o w' :
  keyed w ->
  append hasher serialize env m w = (Returned (p, o), w') ->
  exists seg, active_segments_ w' !! p = Some seg
              /\ current_offset seg = o + 1.
Proof.
  intros Hk. unfold append.
  destruct (get_or_create_segment _ _ _) as [[seg| |] w0] eqn:Hseg;
    [|discriminate..].
  apply (get_or_create_segment_keyed _ _ _ _ _ Hk) in Hseg as Hp.
  set (q := partition_for_message hasher m w) in *.
  destruct (serialize q (current_offset seg) m) as [size|]; [|discriminate].
  destruct (append_log _ _ _ _) as [[r1 seg1] w1] eqn:H1.
  apply append_log_frame in H1 as (P1 & O1 & _).
  destruct r1; [|discriminate..].
  destruct (append_idx _ _ _) as [[r2 seg2] w2] eqn:H2.
  apply append_idx_frame in H2 as (P2 & O2 & _).
  destruct r2; [|discriminate..].
  simpl in *.
  destruct (fsync_on_append (config_ w2) && _).
  - destruct (flush_segment_buffers_frame seg2 w2)
      as [(P3 & _ & O3 & _) _].
    destruct (flush_segment_buffers seg2 w2) as [seg3 w3]. simpl in *.
    intros [= <- <- <-]. eexists. unfold set_segment. simpl.
    rewrite P3, P2, P1, Hp, lookup_insert_eq. split; [done|]. simpl.
    congruence.
  - intros [= <- <- <-]. eexists. unfold set_segment. simpl.
    rewrite P2, P1, Hp, lookup_insert_eq. split; [done|]. congruence.
Qed.

(** In the log that appended, the mark is the offset returned. *)
Lemma appender_mark_is_returned_offset env m w p o w' :
  keyed w ->
  append hasher serialize env m w = (Returned (p, o), w') ->
  get_high_water_mark p w' = o.
Proof.
  intros Hk Ha.
  destruct (append_leaves_segment env m w p o w' Hk Ha) as (seg & Hs & Ho).
  unfold get_high_water_mark. rewrite Hs, Ho. lia.
Qed.

(** Without an active segment the mark is the highest last entry of the
    partition's index files, 0 when there is none above 0. *)
Lemma mark_step_spec p l acc :
  let r := foldl (mark_step p) acc l in
  acc <= r
  /\ (forall b f size o,
        ((p, b), f) ∈ l -> idx_bytes f = Some size ->
        INDEX_ENTRY_SIZE <= size -> last_index_offset p b = Some o -> o <= r)
  /\ (r = acc
      \/ exists b f size,
           ((p, b), f) ∈ l /\ idx_bytes f = Some size
           /\ INDEX_ENTRY_SIZE <= size /\ last_index_offset p b = Some r).
Proof.
  revert acc. induction l as [|[[q b] f] l IH]; intros acc; cbn [foldl].
  { cbv zeta. split; [lia|]. split; [|by left].
    by intros ? ? ? ? ?%elem_of_nil. }
  cbv zeta. destruct (IH (mark_step p acc (q, b, f))) as (Hle & Hall & Hlast).
  assert (acc <= mark_step p acc (q, b, f)
          /\ (forall size o, q = p -> idx_bytes f = Some size ->
                 INDEX_ENTRY_SIZE <= size -> last_index_offset p b = Some o ->
                 o <= mark_step p acc (q, b, f))
          /\ (mark_step p acc (q, b, f) = acc
              \/ exists size, q = p /\ idx_bytes f = Some size
                   /\ INDEX_ENTRY_SIZE <= size
                   /\ last_index_offset p b
                      = Some (mark_step p acc (q, b, f))))
    as (H1 & H2 & H3).
  { unfold mark_step.
    destruct (q =? p) eqn:Eq; [apply Z.eqb_eq in Eq as ->|];
      [|split; [lia|]; split; [|by left];
        intros ? ? ->; by rewrite Z.eqb_refl in Eq].
    destruct (idx_bytes f) as [size|]; [|by (split; [lia|]; split; [|left])].
    destruct (INDEX_ENTRY_SIZE <=? size) eqn:Es;
      [apply Z.leb_le in Es|apply Z.leb_gt in Es];
      [|split; [lia|]; split; [|by left]; intros ? ? _ [= <-]; lia].
    destruct (last_index_offset p b) as [last|];
      [|by (split; [lia|]; split; [|left])].
    destruct (acc <? last) eqn:El;
      [apply Z.ltb_lt in El|apply Z.ltb_ge in El].
    - split; [lia|]. split; [intros ? ? _ _ _ [= <-]; lia|].
      right. by exists size.
    - split; [lia|]. split; [intros ? ? _ _ _ [= <-]; lia|by left]. }
  split; [lia|]. split.
  - intros b' f' size o Hin Hsize Hbig Ho.
    apply elem_of_cons in Hin as [Heq|Hin]; [|by eapply Hall].
    simplify_eq. specialize (H2 size o eq_refl Hsize Hbig Ho). lia.
  - destruct Hlast as [Hr|(b' & f' & size & Hin & ?)].
    + destruct H3 as [H3|(size & -> & Hsize & Hbig & Ho)];
        [left; congruence|].
      right. exists b, f, size. rewrite Hr. split; [by left|done].
    + right. exists b', f', size. split; [by right|done].
Qed.

(** X16.  [get_high_water_mark] is the offset of the last record, not
    the number of records.  In the log that appended, after a successful
    append it is the offset the append returned.  In a log without an
    active segment for the partition it is the highest offset stored in
    the last entry of an index file of the partition, and 0 when there is
    none above 0: so it reads 0 both for an empty partition and for a
    partition whose only record has offset 0. *)
Theorem high_water_mark_is_the_last_offset (env : Env) (m : SignalMessage)
    (w : WALLog) (p o : Z) (w' : WALLog) :
  keyed w ->
  append hasher serialize env m w = (Returned (p, o), w') ->
  get_high_water_mark p w' = o
  /\ forall reader,
       active_segments_ reader !! p = None ->
       let mark := get_high_water_mark p reader in
       (forall b f size last,
          disk reader !! (p, b) = Some f -> idx_bytes f = Some size ->
          INDEX_ENTRY_SIZE <= size -> last_index_offset p b = Some last ->
          last <= mark)
       /\ (mark = 0
           \/ exists b f size,
                disk reader !! (p, b) = Some f /\ idx_bytes f = Some size
                /\ INDEX_ENTRY_SIZE <= size
                /\ last_index_offset p b = Some mark).
Proof.
  intros Hk Ha.
  destruct (append_leaves_segment env m w p o w' Hk Ha) as (seg & Hs & Ho).
  split.
  { unfold get_high_water_mark. rewrite Hs, Ho. lia. }
  intros reader Hnone. unfold get_high_water_mark. rewrite Hnone. cbv zeta.
  destruct (mark_step_spec p (map_to_list (disk reader)) 0)
    as (_ & Hall & Hlast).
  split.
  - intros b f size last Hb. apply Hall. by apply elem_of_map_to_list.
  - destruct Hlast as [?|(b & f & size & Hin%elem_of_map_to_list & ?)];
      eauto 10.
Qed.
End HighWater.

(** *** What [Pipeline::process_batch] does with one partition *)

Section Batch.
(** [consumer_offsets_] is a map from the group to a map from the
    partition to the offset. *)

Definition load_offset (group : string) (partition : Z) (c : gmap string (gmap Z Z)) : Z :=
  match c !! group with
  | Some offsets => default 0 (offsets !! partition)
  | None => 0
  end.

Definition store_offset (group : string) (partition offset : Z)
    (c : gmap string (gmap Z Z)) : gmap string (gmap Z Z) :=
  <[group := <[partition := offset]> (default ∅ (c !! group))]> c.

(** [read], as the offsets of the records it returns, and whether
    decoding and processing a record ends without an exception. *)
Variable read : Z -> Z -> Z -> list Z.
Variable processed : Z -> bool.
Variable last_index_offset : Z -> Z -> option Z.

(** One turn of the loop over the partitions: the offsets of the records
    processed, and the consumer offsets after the commit. *)
Definition process_partition (group : string) (max_messages : Z) (p : Z)
    (w : WALLog) (c : gmap string (gmap Z Z)) : list Z * gmap string (gmap Z Z) :=
  let offset := load_offset group p c in
  let high_water := get_high_water_mark last_index_offset p w in
  if high_water <=? offset then ([], c)
  else
    let records := read p offset max_messages in
    let done := List.filter processed records in
    let last_offset := foldl (fun last record =>
                                if processed record then record else last)
                         offset records in
    (done, if offset <? last_offset then store_offset group p last_offset c
           else c).

Variable hasher : string -> N.
Variable serialize : Z -> Z -> SignalMessage -> option Z.

(** X17.  The record at offset 0 of a partition is not processed while
    it is the only one.  Both in the log whose append returned offset 0
    and in a log without an active segment for the partition whose index
    files hold no offset above 0, a consumer group that has committed
    nothing for the partition finds [offset >= high_water] (0 >= 0), and
    [process_batch] skips the partition without reading or committing. *)
Theorem first_record_waits_for_a_second (w : WALLog) (p : Z)
    (group : string) (max_messages : Z) (c : gmap string (gmap Z Z)) :
  (exists env m w0,
     keyed w0 /\ append hasher serialize env m w0 = (Returned (p, 0), w))
  \/ (active_segments_ w !! p = None
      /\ forall b last, last_index_offset p b = Some last -> last <= 0) ->
  load_offset group p c = 0 ->
  process_partition group max_messages p w c = ([], c).
Proof.
  intros Hw Hc. unfold process_partition. cbv zeta. rewrite Hc.
  assert (get_high_water_mark last_index_offset p w = 0) as ->; [|done].
  destruct Hw as [(env & m & w0 & Hk & Ha)|[Hnone Hlast]].
  - by destruct (appender_mark_is_returned_offset
                   last_index_offset hasher serialize env m w0 p 0 w Hk Ha).
  - unfold get_high_water_mark. rewrite Hnone.
    destruct (mark_step_spec last_index_offset p (map_to_list (disk w)) 0)
      as (Hle & _ & [?|(b & f & size & _ & _ & _ & Ho)]); [done|].
    apply Hlast in Ho. lia.
Qed.
End Batch.

Definition no_index : Z -> Z -> option Z := fun _ _ => None.

Lemma high_water_mark_is_the_last_offset_witness :
  let r := append_ files_ok (pdu 1) (open_log default_config) in
  get_high_water_mark no_index 0 r.2 = 0
  /\ forall reader,
       active_segments_ reader !! 0 = None ->
       let mark := get_high_water_mark no_index 0 reader in
       (forall b f size last,
          disk reader !! (0, b) = Some f -> idx_bytes f = Some size ->
          INDEX_ENTRY_SIZE <= size -> no_index 0 b = Some last ->
          last <= mark)
       /\ (mark = 0
           \/ exists b f size,
                disk reader !! (0, b) = Some f /\ idx_bytes f = Some size
                /\ INDEX_ENTRY_SIZE <= size
                /\ no_index 0 b = Some mark).
Proof.
  apply (high_water_mark_is_the_last_offset no_index one_partition
           serialized_size files_ok (pdu 1) (open_log default_config) 0 0
           (append_ files_ok (pdu 1) (open_log default_config)).2).
  - apply keyed_open_log.
  - by vm_compute.
Defined.

(** A [read] that returns the records from the requested offset on. *)
Definition read_one (p offset max_messages : Z) : list Z :=
  if offset <=? 0 then [0] else [].

(** The index of a partition that holds the record 0 only. *)
Definition index_of_one (p b : Z) : option Z :=
  if (p =? 0) && (b =? 0) then Some 0 else None.

Lemma first_record_waits_for_a_second_witness :
  process_partition read_one (fun _ => true) index_of_one "processor" 100 0
    (reopen_log default_config
       (close_log (append_ files_ok (pdu 1) (open_log default_config)).2)) ∅
  = ([], ∅).
Proof.
  apply (first_record_waits_for_a_second read_one (fun _ => true)
           index_of_one one_partition serialized_size
           (reopen_log default_config
              (close_log
                 (append_ files_ok (pdu 1) (open_log default_config)).2))
           0 "processor" 100 ∅).
  - right. split; [done|]. intros b last. unfold index_of_one.
    destruct ((0 =? 0) && (b =? 0)); [|done]. intros [= <-]. lia.
  - done.
Defined.

End WalProperties.

(** ** Write-ahead log: consumer offsets across a restart *)

Module OffsetFiles.
Import Wal WalFacts WalProperties.
Local Open Scope Z_scope.
Local Open Scope string_scope.

(** The [offsets] directory is a map from the stem of each file with the
    extension [.offset] to the [int64_t] a read of 8 bytes gives, [None]
    when the file cannot be read. *)

(** A group name that is one file name, without ['/'] and NUL:
    [offset_file_path] then names an entry of the [offsets] directory. *)
Fixpoint file_name (group : string) : bool :=
  match group with
  | String c s =>
      negb (Ascii.eqb c "/") && negb (Ascii.eqb c "000") && file_name s
  | EmptyString => true
  end.

(** The stem of [offset_file_path]. *)
Definition offset_file_stem (group : string) (partition : Z) : string :=
  group ++ "_p" ++ pretty partition.

(** [save_consumer_offset] for a group that is a file name; nothing
    happens when the file does not open. *)
Definition save_consumer_offset (opens : bool) (group : string)
    (partition offset : Z) (files : gmap string (option Z)) : gmap string (option Z) :=
  if opens then <[offset_file_stem group partition := Some offset]> files
  else files.

Definition commit_offset (opens : bool) (group : string)
    (partition offset : Z) (st : gmap string (gmap Z Z) * gmap string (option Z)) : gmap string (gmap Z Z) * gmap string (option Z) :=
  (store_offset group partition offset st.1,
   save_consumer_offset opens group partition offset st.2).

(** [std::stoi]: white space, an optional sign, then decimal digits;
    [None] stands for [std::invalid_argument] (no digit) and
    [std::out_of_range] (not an [int]). *)
Definition isspace (c : ascii) : bool :=
  let n := N_of_ascii c in ((n =? 32) || ((9 <=? n) && (n <=? 13)))%N.

Fixpoint skip_spaces (s : string) : string :=
  match s with
  | String c s' => if isspace c then skip_spaces s' else s
  | EmptyString => s
  end.

Definition digit_value (c : ascii) : option Z :=
  let n := N_of_ascii c in
  if ((48 <=? n) && (n <=? 57))%N then Some (Z.of_N (n - 48)) else None.

Fixpoint digits_prefix (s : string) (acc : Z) : Z :=
  match s with
  | String c s' =>
      match digit_value c with
      | Some d => digits_prefix s' (10 * acc + d)%Z
      | None => acc
      end
  | EmptyString => acc
  end.

Definition starts_with_digit (s : string) : bool :=
  match s with
  | String c _ => match digit_value c with Some _ => true | None => false end
  | EmptyString => false
  end.

Definition stoi (s : string) : option Z :=
  let s := skip_spaces s in
  let '(negative, s) :=
    match s with
    | String "-"%char s' => (true, s')
    | String "+"%char s' => (false, s')
    | _ => (false, s)
    end in
  if starts_with_digit s then
    let v := digits_prefix s 0 in
    let v := if negative : bool then (- v)%Z else v in
    if ((- 2 ^ 31 <=? v) && (v <? 2 ^ 31))%Z then Some v else None
  else None.

(** One file of [load_consumer_offsets]: the stem is cut at the first
    ["_p"], what follows is converted before the file is opened. *)
Definition load_step (acc : outcome (gmap string (gmap Z Z))) (entry : string * option Z)
    : outcome (gmap string (gmap Z Z)) :=
  match acc with
  | Returned c =>
      let '(filename, content) := entry in
      match String.index 0 "_p" filename with
      | None => Returned c
      | Some pos =>
          let group := String.substring 0 pos filename in
          match stoi (String.substring (pos + 2)
                        (String.length filename - (pos + 2)) filename) with
          | None => Thrown "stoi"
          | Some partition =>
              match content with
              | Some offset => Returned (store_offset group partition offset c)
              | None => Returned c
              end
          end
      end
  | r => r
  end.

(** [load_consumer_offsets], as the constructor runs it. *)
Definition load_consumer_offsets (files : gmap string (option Z)) : outcome (gmap string (gmap Z Z)) :=
  foldl load_step (Returned ∅) (map_to_list files).

End OffsetFiles.
(** *** Parsing the stem back *)

Module OffsetFacts.
Import Wal WalFacts WalProperties OffsetFiles.
Local Open Scope string_scope.
Local Open Scope Z_scope.

Lemma prefix_cons a s1 b s2 :
  String.prefix (String a s1) (String b s2)
  = if ascii_dec a b then String.prefix s1 s2 else false.
Proof. reflexivity. Qed.

Lemma prefix_empty s : String.prefix "" s = true.
Proof. by destruct s. Qed.

Lemma append_empty (s : string) : "" ++ s = s.
Proof. reflexivity. Qed.
Lemma append_cons c (a b : string) : String c a ++ b = String c (a ++ b).
Proof. reflexivity. Qed.

(** A group name is plain when ["_p"] does not occur in it. *)
Definition plain (group : string) : Prop := String.index 0 "_p" group = None.

Lemma index_cons_None c s :
  String.index 0 "_p" (String c s) = None ->
  String.prefix "_p" (String c s) = false /\ String.index 0 "_p" s = None.
Proof.
  cbn [String.index]. destruct (String.prefix "_p" (String c s)); [done|].
  by destruct (String.index 0 "_p" s).
Qed.

Lemma index_after_plain g rest :
  plain g ->
  String.index 0 "_p" (g ++ "_p" ++ rest) = Some (String.length g).
Proof.
  unfold plain. induction g as [|c g IH]; intros Hg.
  { rewrite append_empty, !append_cons. cbn [String.index String.length].
    by rewrite !prefix_cons, prefix_empty. }
  apply index_cons_None in Hg as [Hp Hg].
  rewrite append_cons. cbn [String.index String.length]. rewrite (IH Hg).
  assert (String.prefix "_p" (String c (g ++ "_p" ++ rest)) = false) as ->;
    [|done].
  rewrite prefix_cons in Hp |- *. destruct (ascii_dec "_" c); [|done].
  destruct g as [|c' g].
  - rewrite append_empty, append_cons. by rewrite prefix_cons.
  - rewrite append_cons. rewrite prefix_cons in Hp |- *.
    destruct (ascii_dec "p" c'); [|done]. by rewrite prefix_empty in Hp.
Qed.

Lemma substring_front g rest :
  String.substring 0 (String.length g) (g ++ rest) = g.
Proof.
  induction g as [|c g IH]; [by destruct rest|].
  rewrite append_cons. simpl. by rewrite IH.
Qed.

Lemma substring_whole s : String.substring 0 (String.length s) s = s.
Proof. induction s as [|c s IH]; simpl; [done|]. by rewrite IH. Qed.

Lemma substring_back g rest :
  String.substring (String.length g) (String.length rest) (g ++ rest) = rest.
Proof.
  induction g as [|c g IH]; [apply substring_whole|].
  rewrite append_cons. by simpl.
Qed.

Lemma length_app (a b : string) :
  String.length (a ++ b) = (String.length a + String.length b)%nat.
Proof.
  induction a as [|c a IH]; [done|]. rewrite append_cons. simpl.
  by rewrite IH.
Qed.

Lemma append_assoc (a b c : string) : (a ++ b) ++ c = a ++ b ++ c.
Proof.
  induction a as [|x a IH]; [done|]. rewrite !append_cons. by rewrite IH.
Qed.

(** *** [std::stoi] on what [std::to_string] wrote *)

Lemma digit_value_char d :
  (d < 10)%N -> digit_value (pretty_N_char d) = Some (Z.of_N d).
Proof.
  intros Hd.
  assert (d = 0 \/ d = 1 \/ d = 2 \/ d = 3 \/ d = 4 \/ d = 5 \/ d = 6
          \/ d = 7 \/ d = 8 \/ d = 9)%N as H by lia.
  by repeat (destruct H as [->|H]; [done|]); subst.
Qed.

Lemma digits_of_pretty_go x s :
  exists k, 0 <= k /\ forall acc,
    digits_prefix (pretty_N_go x s) acc
    = digits_prefix s (acc * 10 ^ k + Z.of_N x).
Proof.
  revert s. induction (N.lt_wf_0 x) as [x _ IH]; intros s.
  destruct (decide (x = 0%N)) as [->|Hx].
  { exists 0. split; [done|]. intros acc. rewrite pretty_N_go_0. f_equal. lia. }
  rewrite pretty_N_go_step by lia.
  destruct (IH (x `div` 10)%N) with
    (s := String (pretty_N_char (x `mod` 10)) s) as (k & Hk0 & Hk).
  { apply N.div_lt; lia. }
  exists (k + 1). split; [lia|]. intros acc. rewrite Hk. cbn [digits_prefix].
  rewrite digit_value_char by (apply N.mod_lt; lia). f_equal.
  rewrite Z.pow_add_r by lia.
  pose proof (N.div_mod x 10 ltac:(lia)) as Hdm.
  rewrite Z.pow_1_r. lia.
Qed.

Lemma starts_with_digit_go x s :
  starts_with_digit s = true -> starts_with_digit (pretty_N_go x s) = true.
Proof.
  revert s. induction (N.lt_wf_0 x) as [x _ IH]; intros s Hs.
  destruct (decide (x = 0%N)) as [->|Hx]; [by rewrite pretty_N_go_0|].
  rewrite pretty_N_go_step by lia. apply IH; [apply N.div_lt; lia|].
  cbn [starts_with_digit].
  by rewrite digit_value_char by (apply N.mod_lt; lia).
Qed.

Lemma starts_with_digit_pos x :
  starts_with_digit (pretty_N_go (N.pos x) "") = true.
Proof.
  rewrite pretty_N_go_step by lia. apply starts_with_digit_go.
  cbn [starts_with_digit].
  by rewrite digit_value_char by (apply N.mod_lt; lia).
Qed.

Lemma digit_is_no_space c s :
  starts_with_digit (String c s) = true ->
  isspace c = false /\ c <> "-"%char /\ c <> "+"%char.
Proof.
  cbn [starts_with_digit]. unfold digit_value, isspace.
  destruct (((48 <=? N_of_ascii c) && (N_of_ascii c <=? 57))%N) eqn:E;
    [|done].
  intros _. apply andb_prop in E as [E1%N.leb_le E2%N.leb_le].
  split; [|split; intros ->; simpl in *; lia].
  apply orb_false_intro; [apply N.eqb_neq; lia|].
  apply andb_false_intro2, N.leb_gt. lia.
Qed.

Lemma stoi_digits s :
  starts_with_digit s = true ->
  stoi s = if (- 2 ^ 31 <=? digits_prefix s 0) && (digits_prefix s 0 <? 2 ^ 31)
           then Some (digits_prefix s 0) else None.
Proof.
  intros Hs. destruct s as [|c s]; [done|].
  destruct (digit_is_no_space c s Hs) as (Hsp & Hm & Hp).
  unfold stoi. cbn [skip_spaces]. rewrite Hsp.
  destruct (Ascii.ascii_dec c "-") as [->|_]; [done|].
  destruct (Ascii.ascii_dec c "+") as [->|_]; [done|].
  assert (match String c s with
          | String "-"%char s' => (true, s')
          | String "+"%char s' => (false, s')
          | _ => (false, String c s)
          end = (false, String c s)) as ->.
  { destruct c as [[] [] [] [] [] [] [] []]; done. }
  by rewrite Hs.
Qed.

Lemma stoi_negative s :
  starts_with_digit s = true ->
  stoi (String "-" s)
  = if (- 2 ^ 31 <=? - digits_prefix s 0) && (- digits_prefix s 0 <? 2 ^ 31)
    then Some (- digits_prefix s 0) else None.
Proof.
  intros Hs. unfold stoi. cbn [skip_spaces].
  change (isspace "-") with false. cbv iota. by rewrite Hs.
Qed.

Lemma stoi_pretty (p : Z) :
  - 2 ^ 31 <= p < 2 ^ 31 -> stoi (pretty p) = Some p.
Proof.
  intros Hp. destruct p as [|x|x].
  - done.
  - change (pretty (Z.pos x)) with (pretty (N.pos x)).
    unfold pretty, pretty_N. rewrite decide_False by done.
    rewrite stoi_digits by apply starts_with_digit_pos.
    destruct (digits_of_pretty_go (N.pos x) "") as (k & _ & ->).
    cbn [digits_prefix]. rewrite Z.mul_0_l, Z.add_0_l.
    change (Z.of_N (N.pos x)) with (Z.pos x).
    assert ((- 2 ^ 31 <=? Z.pos x) && (Z.pos x <? 2 ^ 31) = true) as ->;
      [|done].
    apply andb_true_intro. split; [apply Z.leb_le|apply Z.ltb_lt]; lia.
  - change (pretty (Z.neg x)) with ("-" +:+ pretty (N.pos x)).
    unfold pretty, pretty_N. rewrite decide_False by done.
    rewrite append_cons, append_empty.
    rewrite stoi_negative by apply starts_with_digit_pos.
    destruct (digits_of_pretty_go (N.pos x) "") as (k & _ & ->).
    cbn [digits_prefix]. rewrite Z.mul_0_l, Z.add_0_l.
    change (Z.of_N (N.pos x)) with (Z.pos x).
    change (- Z.pos x) with (Z.neg x).
    assert ((- 2 ^ 31 <=? Z.neg x) && (Z.neg x <? 2 ^ 31) = true) as ->;
      [|done].
    apply andb_true_intro. split; [apply Z.leb_le|apply Z.ltb_lt]; lia.
Qed.

(** A file written for a plain group and an [int32_t] partition is read
    back under that group and partition. *)
Lemma load_step_saved g p content c :
  plain g -> - 2 ^ 31 <= p < 2 ^ 31 ->
  load_step (Returned c) (offset_file_stem g p, content)
  = Returned match content with
             | Some offset => store_offset g p offset c
             | None => c
             end.
Proof.
  intros Hg Hp. unfold load_step, offset_file_stem.
  rewrite index_after_plain by done.
  rewrite substring_front.
  replace (String.length (g ++ "_p" ++ pretty p) - (String.length g + 2))%nat
    with (String.length (pretty p))
    by (rewrite !length_app; simpl; lia).
  rewrite <- (append_assoc g "_p" (pretty p)).
  replace (String.length g + 2)%nat with (String.length (g ++ "_p"))
    by (rewrite length_app; simpl; lia).
  rewrite substring_back, stoi_pretty by done.
  by destruct content.
Qed.

Lemma append_cancel (a b c : string) : a ++ b = a ++ c -> b = c.
Proof.
  induction a as [|x a IH]; [done|]. rewrite !append_cons.
  intros [= H]. by apply IH.
Qed.

Lemma stem_inj g1 p1 g2 p2 :
  plain g1 -> plain g2 ->
  offset_file_stem g1 p1 = offset_file_stem g2 p2 -> g1 = g2 /\ p1 = p2.
Proof.
  intros Hg1 Hg2 Heq. unfold offset_file_stem in Heq.
  pose proof (index_after_plain g1 (pretty p1) Hg1) as I1.
  pose proof (index_after_plain g2 (pretty p2) Hg2) as I2.
  rewrite Heq, I2 in I1. injection I1 as Hlen.
  assert (g1 = g2) as ->.
  { rewrite <- (substring_front g1 ("_p" ++ pretty p1)), Heq, <- Hlen.
    apply substring_front. }
  split; [done|].
  apply append_cancel, append_cancel in Heq. by apply (inj pretty).
Qed.

(** *** Commit, restart, load *)

Definition int32 (p : Z) : Prop := - 2 ^ 31 <= p < 2 ^ 31.

Lemma load_store_same g p o c : load_offset g p (store_offset g p o c) = o.
Proof.
  unfold load_offset, store_offset. rewrite lookup_insert_eq. simpl.
  by rewrite lookup_insert_eq.
Qed.

Lemma load_store_other g p g0 p0 o c :
  (g, p) <> (g0, p0) ->
  load_offset g p (store_offset g0 p0 o c) = load_offset g p c.
Proof.
  intros Hne. unfold load_offset, store_offset.
  destruct (decide (g = g0)) as [->|Hg].
  - rewrite lookup_insert_eq. simpl. rewrite lookup_insert_ne by congruence.
    by destruct (c !! g0).
  - by rewrite lookup_insert_ne.
Qed.

(** The files of a directory all come from plain groups and [int32_t]
    partitions. *)
Definition from_plain_groups (l : list (string * option Z)) : Prop :=
  forall s content, (s, content) ∈ l ->
    exists g p, plain g /\ int32 p /\ s = offset_file_stem g p.

Lemma load_fold l c :
  from_plain_groups l -> NoDup l.*1 ->
  exists c', foldl load_step (Returned c) l = Returned c'
    /\ forall g p, plain g -> int32 p ->
         (forall o, (offset_file_stem g p, Some o) ∈ l ->
            load_offset g p c' = o)
         /\ ((forall o, (offset_file_stem g p, Some o) ∉ l) ->
               load_offset g p c' = load_offset g p c).
Proof.
  revert c. induction l as [|[s content] l IH]; intros c Hl Hnd.
  { exists c. split; [done|]. intros g p _ _.
    split; [by intros o ?%elem_of_nil|done]. }
  destruct (Hl s content) as (g0 & p0 & Hg0 & Hp0 & ->); [by left|].
  cbn [foldl]. rewrite load_step_saved by done.
  rewrite fmap_cons in Hnd. apply NoDup_cons in Hnd as [Hnotin Hnd].
  cbn [fst] in Hnotin.
  destruct (IH (match content with
                | Some offset => store_offset g0 p0 offset c
                | None => c
                end)) as (c' & -> & Hc'); [|done|].
  { intros s' content' Hin. apply (Hl s' content'). by right. }
  exists c'. split; [done|]. intros g p Hg Hp.
  destruct (Hc' g p Hg Hp) as [Ha Hb]. split.
  - intros o Hin. apply elem_of_cons in Hin as [Heq|Hin]; [|by apply Ha].
    injection Heq as Hstem <-.
    apply stem_inj in Hstem as [-> ->]; [|done..].
    rewrite Hb; [apply load_store_same|].
    intros o' Hin. apply Hnotin.
    apply (list_elem_of_fmap_2 fst) in Hin. exact Hin.
  - intros Hnone. rewrite Hb.
    + destruct content as [o0|]; [|done]. apply load_store_other.
      intros [= -> ->]. apply (Hnone o0). by left.
    + intros o Hin. apply (Hnone o). by right.
Qed.

Definition commit_all (commits : list (string * Z * Z))
    (st : gmap string (gmap Z Z) * gmap string (option Z)) : gmap string (gmap Z Z) * gmap string (option Z) :=
  foldl (fun st commit => commit_offset true commit.1.1 commit.1.2 commit.2 st)
    st commits.

(** What the directory holds for a group and a partition. *)
Definition saved_offset (files : gmap string (option Z)) (g : string) (p : Z) : Z :=
  match files !! offset_file_stem g p with
  | Some (Some o) => o
  | _ => 0
  end.

Definition in_step (st : gmap string (gmap Z Z) * gmap string (option Z)) : Prop :=
  from_plain_groups (map_to_list st.2)
  /\ forall g p, plain g -> int32 p ->
       load_offset g p st.1 = saved_offset st.2 g p.

Lemma commit_in_step g p o st :
  plain g -> int32 p -> in_step st -> in_step (commit_offset true g p o st).
Proof.
  intros Hg Hp [Hwf Heq]. split.
  - intros s content Hin%elem_of_map_to_list. simpl in Hin.
    rewrite lookup_insert in Hin. case_decide as Hs.
    + exists g, p. by split; [|split].
    + apply (Hwf s content). by apply elem_of_map_to_list.
  - intros g' p' Hg' Hp'. unfold saved_offset. simpl.
    destruct (decide ((g', p') = (g, p))) as [[= -> ->]|Hne].
    + by rewrite load_store_same, lookup_insert_eq.
    + rewrite load_store_other by done.
      rewrite lookup_insert_ne; [by apply Heq|].
      intros Hs. apply stem_inj in Hs as [-> ->]; done.
Qed.

Lemma commit_all_in_step commits st :
  Forall (fun commit => plain commit.1.1 /\ int32 commit.1.2) commits ->
  in_step st -> in_step (commit_all commits st).
Proof.
  unfold commit_all. revert st.
  induction commits as [|[[g p] o] commits IH]; intros st Hall Hst; [done|].
  apply Forall_cons in Hall as [[Hg Hp] Hall]. cbn [foldl].
  apply IH; [done|]. by apply commit_in_step.
Qed.

(** X18.  Committed offsets survive a restart: after any sequence of
    [commit_offset] calls on a fresh log, for groups whose name is a file
    name that does not contain ["_p"] and [int32_t] partitions, with the
    offset files opening, [load_consumer_offsets] run on the directory by
    the next constructor returns, and [load_offset] then gives for every
    group without ["_p"] and every partition the offset it gave before the
    restart. *)
Theorem committed_offsets_survive_restart (commits : list (string * Z * Z)) :
  Forall (fun commit => plain commit.1.1 /\ file_name commit.1.1 = true
                        /\ int32 commit.1.2) commits ->
  let st := commit_all commits (∅, ∅) in
  exists c, load_consumer_offsets st.2 = Returned c
    /\ forall g p, plain g -> int32 p ->
         load_offset g p c = load_offset g p st.1.
Proof.
  intros Hall%(Forall_impl _ (fun commit => plain commit.1.1
                                            /\ int32 commit.1.2)) st;
    [|by intros ? (? & ? & ?)].
  assert (in_step st) as [Hwf Heq].
  { apply commit_all_in_step; [done|]. split.
    - intros s content Hin%elem_of_map_to_list. simpl in Hin.
      by rewrite lookup_empty in Hin.
    - intros g p _ _. unfold load_offset, saved_offset. simpl.
      by rewrite !lookup_empty. }
  destruct (load_fold (map_to_list st.2) ∅ Hwf) as (c & Hc & Hload).
  { apply NoDup_fst_map_to_list. }
  exists c. split; [exact Hc|]. intros g p Hg Hp.
  destruct (Hload g p Hg Hp) as [Ha Hb]. rewrite (Heq g p Hg Hp).
  unfold saved_offset.
  destruct (st.2 !! offset_file_stem g p) as [[o|]|] eqn:Ef.
  - apply Ha. by apply elem_of_map_to_list.
  - rewrite Hb; [done|]. intros o Hin%elem_of_map_to_list. congruence.
  - rewrite Hb; [done|]. intros o Hin%elem_of_map_to_list. congruence.
Qed.

(** *** A group name that cannot be read back *)

Lemma load_step_thrown what e : load_step (Thrown what) e = Thrown what.
Proof. done. Qed.

Lemma load_fold_thrown what l : foldl load_step (Thrown what) l = Thrown what.
Proof.
  induction l as [|e l IH]; [done|]. cbn [foldl].
  by rewrite load_step_thrown.
Qed.

Lemma load_step_shape acc e :
  acc = Thrown "stoi" \/ (exists c, acc = Returned c) ->
  load_step acc e = Thrown "stoi" \/ (exists c, load_step acc e = Returned c).
Proof.
  intros [->|[c ->]]; [by left|]. destruct e as [s content].
  unfold load_step. destruct (String.index 0 "_p" s); [|by eauto].
  destruct (stoi _); [|by left]. destruct content; eauto.
Qed.

Lemma load_fold_shape l acc :
  acc = Thrown "stoi" \/ (exists c, acc = Returned c) ->
  foldl load_step acc l = Thrown "stoi"
  \/ (exists c, foldl load_step acc l = Returned c).
Proof.
  revert acc. induction l as [|e l IH]; intros acc Hacc; [done|].
  cbn [foldl]. by apply IH, load_step_shape.
Qed.

Lemma stoi_no_number c s :
  isspace c = false -> c <> "-"%char -> c <> "+"%char ->
  digit_value c = None -> stoi (String c s) = None.
Proof.
  intros Hsp Hm Hp Hd. unfold stoi. cbn [skip_spaces]. rewrite Hsp.
  assert (match String c s with
          | String "-"%char s' => (true, s')
          | String "+"%char s' => (false, s')
          | _ => (false, String c s)
          end = (false, String c s)) as ->.
  { destruct c as [[] [] [] [] [] [] [] []]; done. }
  cbn [starts_with_digit]. by rewrite Hd.
Qed.

(** X19.  A group name in which the first ["_p"] is followed by a
    character that cannot start a number (as in "my_processor") cannot be
    read back: once [save_consumer_offset] has written the offset file of
    such a group, [load_consumer_offsets] throws out of the constructor
    ([std::stoi] finds no number), whatever else the directory holds. *)
Theorem group_name_with_p_blocks_restart (files : gmap string (option Z))
    (before after_ : string) (c : ascii) (p o : Z) :
  file_name (before ++ "_p" ++ String c after_) = true ->
  plain before ->
  isspace c = false -> c <> "-"%char -> c <> "+"%char ->
  digit_value c = None ->
  load_consumer_offsets
    (save_consumer_offset true (before ++ "_p" ++ String c after_) p o files)
  = Thrown "stoi".
Proof.
  intros _ Hplain Hsp Hm Hp Hd. unfold load_consumer_offsets.
  set (group := before ++ "_p" ++ String c after_).
  assert (forall acc, load_step (Returned acc) (offset_file_stem group p, Some o)
                      = Thrown "stoi") as Hstep.
  { intros acc. unfold load_step, offset_file_stem. subst group.
    rewrite !append_assoc.
    rewrite index_after_plain by done.
    set (tail := String c after_ ++ "_p" ++ pretty p).
    replace (String.length (before ++ "_p" ++ tail) - (String.length before + 2))%nat
      with (String.length tail) by (rewrite !length_app; simpl; lia).
    rewrite <- (append_assoc before "_p" tail).
    replace (String.length before + 2)%nat with (String.length (before ++ "_p"))
      by (rewrite length_app; simpl; lia).
    rewrite substring_back. subst tail.
    by rewrite (append_cons c after_), stoi_no_number. }
  assert ((offset_file_stem group p, Some o)
          ∈ map_to_list (save_consumer_offset true group p o files)) as Hin.
  { apply elem_of_map_to_list. simpl. by rewrite lookup_insert_eq. }
  apply list_elem_of_split in Hin as (l1 & l2 & ->).
  rewrite foldl_app. cbn [foldl].
  destruct (load_fold_shape l1 (Returned ∅)) as [->|[acc ->]]; [by eauto|..].
  - by rewrite load_step_thrown, load_fold_thrown.
  - by rewrite Hstep, load_fold_thrown.
Qed.

Lemma committed_offsets_survive_restart_witness :
  let st := commit_all [("processor", 0, 41); ("pcap_test", 1, 7);
                        ("processor", 0, 42)] (∅, ∅) in
  exists c, load_consumer_offsets st.2 = Returned c
    /\ forall g p, plain g -> int32 p ->
         load_offset g p c = load_offset g p st.1.
Proof.
  apply (committed_offsets_survive_restart
           [("processor", 0, 41); ("pcap_test", 1, 7); ("processor", 0, 42)]).
  repeat constructor; by vm_compute.
Defined.

Lemma group_name_with_p_blocks_restart_witness :
  load_consumer_offsets
    (save_consumer_offset true ("my" ++ "_p" ++ String "r" "ocessor") 0 5 ∅)
  = Thrown "stoi".
Proof.
  apply (group_name_with_p_blocks_restart ∅ "my" "ocessor" "r" 0 5).
  - by vm_compute.
  - by vm_compute.
  - by vm_compute.
  - discriminate.
  - discriminate.
  - by vm_compute.
Defined.

End OffsetFacts.

(** ** NAS mobile identities (nas_parser.cpp) *)

Module Nas.
Import Codec.
Local Open Scope string_scope.
Local Open Scope N_scope.

(** [enum class MobileIdentityType : uint8_t], by value. *)
Definition NO_IDENTITY : N := 0.
Definition IMSI : N := 1.
Definition IMEI : N := 2.
Definition IMEISV : N := 3.
Definition TMSI : N := 4.
Definition TMGI : N := 5.
Definition GUTI : N := 6.

Definition high_nibble (byte : N) : N := N.land (N.shiftr byte 4) 0x0F.
Definition low_nibble (byte : N) : N := N.land byte 0x0F.

(** ['0' + digit]. *)
Definition digit_char (digit : N) : ascii := ascii_of_N (48 + digit).

Definition isdigit (c : ascii) : bool :=
  let n := N_of_ascii c in (48 <=? n) && (n <=? 57).

Fixpoint all_of (P : ascii -> bool) (s : string) : bool :=
  match s with
  | EmptyString => true
  | String c s' => P c && all_of P s'
  end.

(** The loop of [decodeTbcdImsi] over the bytes after the first: low
    nibble, then high nibble; a nibble above 9 ends the loop. *)
Fixpoint tbcd_digits (bytes : list Byte.byte) : string :=
  match bytes with
  | [] => ""
  | b :: rest =>
      let digit1 := low_nibble (Byte.to_N b) in
      let digit2 := high_nibble (Byte.to_N b) in
      if digit1 <=? 9 then
        String (digit_char digit1)
          (if digit2 <=? 9 then String (digit_char digit2) (tbcd_digits rest)
           else "")
      else ""
  end.

Definition decodeTbcdImsi (bytes : list Byte.byte)
    (start_from_upper_nibble is_odd_length : bool) : string :=
  match bytes with
  | [] => ""
  | first :: rest =>
      let first_byte_high := high_nibble (Byte.to_N first) in
      let first_byte_low := low_nibble (Byte.to_N first) in
      let head :=
        if start_from_upper_nibble then
          if first_byte_high <=? 9
          then String (digit_char first_byte_high) "" else ""
        else
          (if first_byte_low <=? 9
           then String (digit_char first_byte_low) "" else "")
          ++ (if first_byte_high <=? 9
              then String (digit_char first_byte_high) "" else "") in
      let imsi := head ++ tbcd_digits rest in
      if (5 <=? String.length imsi)%nat && (String.length imsi <=? 16)%nat
         && all_of isdigit imsi
         && negb (all_of (fun c => Ascii.eqb c "0") imsi)
      then imsi else ""
  end.

(** [isValidTmsi]: 4 to 8 hex digits. *)
Definition isValidTmsi (tmsi : string) : bool :=
  (4 <=? String.length tmsi)%nat && (String.length tmsi <=? 8)%nat
  && all_of isxdigit tmsi.

(** [std::hex], [setw(2)], [setfill('0')] on a number below 256. *)
Definition hex2 (n : N) : string :=
  String (hex_digit (n / 16)) (String (hex_digit (n mod 16)) "").

Definition tolower (c : ascii) : ascii :=
  let n := N_of_ascii c in
  if (65 <=? n) && (n <=? 90) then ascii_of_N (n + 32) else c.

Fixpoint lowercase (s : string) : string :=
  match s with
  | EmptyString => EmptyString
  | String c s' => String (tolower c) (lowercase s')
  end.

(** [decodeTmsi]: the two nibbles of the first byte, two characters each,
    then the bytes 1 to 3. *)
Definition decodeTmsi (bytes : list Byte.byte)
    (start_from_upper_nibble is_odd_length : bool) : string :=
  match bytes with
  | [] => ""
  | first :: rest =>
      let first_byte_high := high_nibble (Byte.to_N first) in
      let first_byte_low := low_nibble (Byte.to_N first) in
      let head :=
        if start_from_upper_nibble
        then hex2 first_byte_high ++ hex2 first_byte_low
        else hex2 first_byte_low
             ++ (if first_byte_high <=? 0x0F then hex2 first_byte_high
                 else "") in
      let tmsi := lowercase (head ++ hex_of_bytes (take 3 rest)) in
      if isValidTmsi tmsi then tmsi else ""
  end.

(** [decodeMobileIdentity]: the type is the low 3 bits of the first byte. *)
Definition decodeMobileIdentity (bytes : list Byte.byte) : N * string :=
  match bytes with
  | [] => (NO_IDENTITY, "")
  | first :: _ =>
      let lower_3_bits := N.land (Byte.to_N first) 0x07 in
      let is_odd_length := negb (N.land (Byte.to_N first) 0x08 =? 0) in
      (lower_3_bits,
       if (lower_3_bits =? 1) || (lower_3_bits =? 2) || (lower_3_bits =? 3)
       then decodeTbcdImsi bytes true is_odd_length
       else if lower_3_bits =? 4 then decodeTmsi bytes true is_odd_length
       else "")
  end.

(** [decodeEpsMobileIdentity]: a GUTI gives its last 4 bytes as TMSI. *)
Definition decodeEpsMobileIdentity (bytes : list Byte.byte) : N * string :=
  match bytes with
  | [] => (NO_IDENTITY, "")
  | first :: _ =>
      let lower_3_bits := N.land (Byte.to_N first) 0x07 in
      let is_odd_length := negb (N.land (Byte.to_N first) 0x08 =? 0) in
      if lower_3_bits =? 6 then
        if (5 <=? length bytes)%nat
        then (TMSI, lowercase (hex_of_bytes (drop (length bytes - 4) bytes)))
        else (GUTI, "")
      else if lower_3_bits =? 4
      then (TMSI, decodeTmsi bytes true is_odd_length)
      else (NO_IDENTITY, "")
  end.

End Nas.

Module NasFacts.
Import Codec Nas.
Local Open Scope string_scope.
Local Open Scope N_scope.

Lemma string_length_app (a b : string) :
  String.length (a ++ b) = (String.length a + String.length b)%nat.
Proof.
  induction a as [|c a IH]; [done|].
  change (String c a ++ b) with (String c (a ++ b)). simpl. by rewrite IH.
Qed.

Lemma lowercase_length s : String.length (lowercase s) = String.length s.
Proof. induction s as [|c s IH]; simpl; [done|]. by rewrite IH. Qed.

Lemma hex_of_bytes_two_per_byte bytes :
  String.length (hex_of_bytes bytes) = (2 * length bytes)%nat.
Proof.
  induction bytes as [|b bytes IH]; [done|].
  cbn [hex_of_bytes String.length length]. cbv zeta.
  cbn [String.length]. rewrite IH. lia.
Qed.

(** *** A TMSI identity is never decoded *)

Lemma decodeTmsi_long bytes upper odd :
  (4 <= length bytes)%nat -> decodeTmsi bytes upper odd = "".
Proof.
  intros Hlen. destruct bytes as [|first rest]; [done|].
  unfold decodeTmsi.
  set (head := if upper then _ else _).
  assert (String.length head = 4%nat) as Hhead.
  { subst head. destruct upper; [done|].
    assert ((high_nibble (Byte.to_N first) <=? 15) = true) as ->; [|done].
    apply N.leb_le. unfold high_nibble.
    change 15 with (N.ones 4). rewrite N.land_ones. change (2 ^ 4) with 16.
    pose proof (N.mod_lt (N.shiftr (Byte.to_N first) 4) 16 ltac:(done)).
    change (N.ones 4) with 15. lia. }
  assert (isValidTmsi (lowercase (head ++ hex_of_bytes (take 3 rest))) = false)
    as ->; [|done].
  unfold isValidTmsi.
  rewrite lowercase_length, string_length_app, Hhead,
    hex_of_bytes_two_per_byte, length_take.
  simpl in Hlen.
  replace (4 + 2 * (3 `min` length rest))%nat with 10%nat by lia. done.
Qed.

(** X20.  A TMSI mobile identity of 4 bytes or more is never decoded:
    [decodeTmsi] writes 4 characters for the first byte and 2 for each of
    the next three, 10 in all, and [isValidTmsi] accepts at most 8; so for
    an identity of type TMSI both [decodeMobileIdentity] and
    [decodeEpsMobileIdentity] return the empty string. *)
Theorem tmsi_identity_is_never_decoded (bytes : list Byte.byte)
    (first : Byte.byte) (rest : list Byte.byte) :
  bytes = first :: rest -> (4 <= length bytes)%nat ->
  N.land (Byte.to_N first) 0x07 = 4 ->
  decodeMobileIdentity bytes = (TMSI, "")
  /\ decodeEpsMobileIdentity bytes = (TMSI, "")
  /\ forall upper odd, decodeTmsi bytes upper odd = "".
Proof.
  intros -> Hlen Htype.
  unfold decodeMobileIdentity, decodeEpsMobileIdentity. rewrite Htype.
  cbn [N.eqb Pos.eqb orb]. rewrite !decodeTmsi_long by done.
  split; [done|]. split; [done|]. intros upper odd.
  by apply decodeTmsi_long.
Qed.

Lemma tmsi_identity_is_never_decoded_witness :
  decodeMobileIdentity [Byte.xf4; Byte.xde; Byte.xad; Byte.xbe; Byte.xef]
  = (TMSI, "")
  /\ decodeEpsMobileIdentity [Byte.xf4; Byte.xde; Byte.xad; Byte.xbe; Byte.xef]
     = (TMSI, "")
  /\ forall upper odd,
       decodeTmsi [Byte.xf4; Byte.xde; Byte.xad; Byte.xbe; Byte.xef] upper odd
       = "".
Proof.
  apply (tmsi_identity_is_never_decoded
           [Byte.xf4; Byte.xde; Byte.xad; Byte.xbe; Byte.xef] Byte.xf4
           [Byte.xde; Byte.xad; Byte.xbe; Byte.xef]).
  - reflexivity.
  - simpl. lia.
  - reflexivity.
Defined.

(** *** A GUTI gives the M-TMSI *)

Lemma lowercase_hex_byte b rest :
  lowercase (String (hex_digit (Byte.to_N b / 16))
               (String (hex_digit (Byte.to_N b mod 16)) rest))
  = String (hex_digit (Byte.to_N b / 16))
      (String (hex_digit (Byte.to_N b mod 16)) (lowercase rest)).
Proof. destruct b; reflexivity. Qed.

Lemma lowercase_hex_of_bytes bytes :
  lowercase (hex_of_bytes bytes) = hex_of_bytes bytes.
Proof.
  induction bytes as [|b bytes IH]; [done|].
  cbn [hex_of_bytes]. cbv zeta. by rewrite lowercase_hex_byte, IH.
Qed.

Lemma xdigits_hex_byte b rest :
  all_of isxdigit (String (hex_digit (Byte.to_N b / 16))
                     (String (hex_digit (Byte.to_N b mod 16)) rest))
  = all_of isxdigit rest.
Proof. destruct b; reflexivity. Qed.

Lemma xdigits_hex_of_bytes bytes :
  all_of isxdigit (hex_of_bytes bytes) = true.
Proof.
  induction bytes as [|b bytes IH]; [done|].
  cbn [hex_of_bytes]. cbv zeta. by rewrite xdigits_hex_byte.
Qed.

(** X21.  For a GUTI of 5 bytes or more [decodeEpsMobileIdentity] returns
    the type TMSI and the last 4 bytes of the identity in lower-case hex
    (the M-TMSI), a string that [isValidTmsi] accepts. *)
Theorem guti_gives_the_m_tmsi (bytes : list Byte.byte) (first : Byte.byte)
    (rest : list Byte.byte) :
  bytes = first :: rest -> (5 <= length bytes)%nat ->
  N.land (Byte.to_N first) 0x07 = 6 ->
  decodeEpsMobileIdentity bytes
  = (TMSI, hex_of_bytes (drop (length bytes - 4) bytes))
  /\ isValidTmsi (hex_of_bytes (drop (length bytes - 4) bytes)) = true.
Proof.
  intros -> Hlen Htype. unfold decodeEpsMobileIdentity. rewrite Htype.
  cbn [N.eqb Pos.eqb]. apply Nat.leb_le in Hlen as Hb. rewrite Hb.
  rewrite lowercase_hex_of_bytes. split; [done|].
  unfold isValidTmsi.
  rewrite hex_of_bytes_two_per_byte, length_drop, xdigits_hex_of_bytes.
  replace (2 * (length (first :: rest) - (length (first :: rest) - 4)))%nat
    with 8%nat by lia.
  done.
Qed.

Definition guti : list Byte.byte :=
  [Byte.xf6; Byte.x00; Byte.xf1; Byte.x10; Byte.x00; Byte.x01; Byte.x01;
   Byte.xde; Byte.xad; Byte.xbe; Byte.xef].

Lemma guti_gives_the_m_tmsi_witness :
  decodeEpsMobileIdentity guti
  = (TMSI, hex_of_bytes (drop (length guti - 4) guti))
  /\ isValidTmsi (hex_of_bytes (drop (length guti - 4) guti)) = true.
Proof.
  apply (guti_gives_the_m_tmsi guti Byte.xf6 (tail guti)).
  - reflexivity.
  - simpl. lia.
  - reflexivity.
Defined.

(** *** IMSI, IMEI and IMEISV in TBCD *)

(** The coding of 3GPP TS 24.008, 10.5.1.4, that [decodeTbcdImsi] reads:
    the first digit in the high nibble of the first byte, beside the
    odd/even bit and the type; then two digits a byte, low nibble first;
    the filler 1111 in the last high nibble when the number of digits is
    even. *)
Definition pack (low high : N) : Byte.byte := byte_of (high * 16 + low).

Fixpoint tbcd_pairs (digits : list N) : list Byte.byte :=
  match digits with
  | a :: b :: rest => pack a b :: tbcd_pairs rest
  | [a] => [pack a 0xF]
  | [] => []
  end.

Definition tbcd_identity (type : N) (digits : list N) : list Byte.byte :=
  match digits with
  | [] => []
  | d :: rest =>
      pack (type + (if Nat.odd (length digits) then 8 else 0)) d
        :: tbcd_pairs rest
  end.

Definition digits_string (digits : list N) : string :=
  foldr (fun d s => String (digit_char d) s) "" digits.

Lemma pack_nibbles low high :
  low < 16 -> high < 16 ->
  Byte.to_N (pack low high) = high * 16 + low
  /\ low_nibble (Byte.to_N (pack low high)) = low
  /\ high_nibble (Byte.to_N (pack low high)) = high.
Proof.
  intros Hl Hh. unfold pack, byte_of.
  assert (Byte.to_N (default Byte.x00 (Byte.of_N ((high * 16 + low) mod 256)))
          = high * 16 + low) as E.
  { rewrite N.mod_small by lia.
    destruct (Byte.of_N (high * 16 + low)) as [b|] eqn:Eb.
    - simpl. by apply Byte.to_of_N.
    - apply Byte.of_N_None_iff in Eb. lia. }
  rewrite E. split; [done|]. unfold low_nibble, high_nibble.
  change 15 with (N.ones 4). rewrite !N.land_ones, N.shiftr_div_pow2.
  change (2 ^ 4) with 16.
  assert ((high * 16 + low) / 16 = high) as ->.
  { symmetry. apply (N.div_unique _ 16 high low); lia. }
  split.
  - symmetry. apply (N.mod_unique _ 16 high low); lia.
  - by apply N.mod_small.
Qed.

Lemma tbcd_pairs_digits n digits :
  (length digits <= n)%nat -> Forall (fun d => d <= 9) digits ->
  tbcd_digits (tbcd_pairs digits) = digits_string digits.
Proof.
  revert digits. induction n as [|n IH]; intros digits Hn Hd.
  { destruct digits; [done|simpl in Hn; lia]. }
  destruct digits as [|a [|b rest]]; [done|..].
  - apply Forall_cons in Hd as [Ha _].
    cbn [tbcd_pairs tbcd_digits]. cbv zeta.
    destruct (pack_nibbles a 15) as (_ & -> & ->); [lia|done|].
    apply N.leb_le in Ha as ->. done.
  - apply Forall_cons in Hd as [Ha Hd]. apply Forall_cons in Hd as [Hb Hd].
    cbn [tbcd_pairs tbcd_digits]. cbv zeta.
    destruct (pack_nibbles a b) as (_ & -> & ->); [lia|lia|].
    apply N.leb_le in Ha as ->. apply N.leb_le in Hb as ->.
    rewrite (IH rest); [done| |done]. simpl in Hn. lia.
Qed.

Lemma digits_string_length digits :
  String.length (digits_string digits) = length digits.
Proof. induction digits as [|d digits IH]; simpl; [done|]. by rewrite IH. Qed.

Lemma digit_cases d :
  d <= 9 ->
  d = 0 \/ d = 1 \/ d = 2 \/ d = 3 \/ d = 4 \/ d = 5 \/ d = 6 \/ d = 7
  \/ d = 8 \/ d = 9.
Proof. lia. Qed.

Lemma digits_string_digits digits :
  Forall (fun d => d <= 9) digits ->
  all_of isdigit (digits_string digits) = true.
Proof.
  induction 1 as [|d digits Hd _ IH]; [done|].
  cbn [digits_string foldr all_of]. fold (digits_string digits). rewrite IH.
  apply digit_cases in Hd.
  by repeat (destruct Hd as [->|Hd]; [done|]); subst.
Qed.

Lemma digits_string_zeros digits :
  Forall (fun d => d <= 9) digits -> Exists (fun d => d <> 0) digits ->
  all_of (fun c => Ascii.eqb c "0") (digits_string digits) = false.
Proof.
  intros Hd Hex. induction Hex as [d digits Hnz|d digits _ IH].
  - apply Forall_cons in Hd as [Hd _].
    cbn [digits_string foldr all_of]. apply digit_cases in Hd.
    by repeat (destruct Hd as [->|Hd]; [done|]); subst.
  - apply Forall_cons in Hd as [_ Hd].
    cbn [digits_string foldr all_of]. fold (digits_string digits).
    rewrite (IH Hd). apply andb_false_r.
Qed.

(** X22.  [decodeMobileIdentity] reads the TBCD coding of 3GPP back: for
    an IMSI, IMEI or IMEISV of 5 to 16 decimal digits that are not all
    zero, coded with the first digit beside the type and the odd/even bit
    and then two digits a byte, it returns the type and exactly the
    digits. *)
Theorem tbcd_identity_is_read_back (type : N) (digits : list N) :
  type = IMSI \/ type = IMEI \/ type = IMEISV ->
  Forall (fun d => d <= 9) digits ->
  (5 <= length digits <= 16)%nat ->
  Exists (fun d => d <> 0) digits ->
  decodeMobileIdentity (tbcd_identity type digits)
  = (type, digits_string digits).
Proof.
  intros Htype Hd Hlen Hnz.
  destruct digits as [|d rest]; [simpl in Hlen; lia|].
  apply Forall_cons in Hd as Hd'. destruct Hd' as [Hd0 Hrest].
  unfold tbcd_identity, decodeMobileIdentity.
  set (flag := if Nat.odd (length (d :: rest)) then 8 else 0).
  assert (flag = 0 \/ flag = 8) as Hflag by (subst flag; case_match; auto).
  destruct (pack_nibbles (type + flag) d) as (Hbyte & Hlow & Hhigh).
  { unfold IMSI, IMEI, IMEISV in Htype. lia. }
  { lia. }
  assert (N.land (Byte.to_N (pack (type + flag) d)) 7 = type) as Hl3.
  { rewrite Hbyte. change 7 with (N.ones 3). rewrite N.land_ones.
    change (2 ^ 3) with 8.
    replace (d * 16 + (type + flag)) with (type + flag + d * 2 * 8) by lia.
    rewrite N.Div0.mod_add. unfold IMSI, IMEI, IMEISV in Htype.
    by destruct Htype as [-> | [-> | ->]], Hflag as [-> | ->]. }
  rewrite Hl3.
  assert ((type =? 1) || (type =? 2) || (type =? 3) = true) as ->.
  { unfold IMSI, IMEI, IMEISV in Htype.
    by destruct Htype as [-> | [-> | ->]]. }
  f_equal. unfold decodeTbcdImsi. cbv zeta. rewrite Hhigh.
  apply N.leb_le in Hd0 as Hd0'. rewrite Hd0'.
  change (String (digit_char d) "" ++ tbcd_digits (tbcd_pairs rest))
    with (String (digit_char d) (tbcd_digits (tbcd_pairs rest))).
  rewrite (tbcd_pairs_digits (length rest) rest) by done.
  change (String (digit_char d) (digits_string rest))
    with (digits_string (d :: rest)).
  rewrite digits_string_length, digits_string_digits by done.
  rewrite digits_string_zeros by done.
  assert ((5 <=? length (d :: rest))%nat = true) as ->
    by (apply Nat.leb_le; lia).
  assert ((length (d :: rest) <=? 16)%nat = true) as ->
    by (apply Nat.leb_le; lia).
  done.
Qed.

Lemma tbcd_identity_is_read_back_witness :
  decodeMobileIdentity
    (tbcd_identity IMSI [0; 0; 1; 0; 1; 0; 1; 2; 3; 4; 5; 6; 7; 8; 9])
  = (IMSI, digits_string [0; 0; 1; 0; 1; 0; 1; 2; 3; 4; 5; 6; 7; 8; 9]).
Proof.
  apply (tbcd_identity_is_read_back IMSI
           [0; 0; 1; 0; 1; 0; 1; 2; 3; 4; 5; 6; 7; 8; 9]).
  - by left.
  - repeat constructor; by vm_compute.
  - simpl. lia.
  - apply Exists_cons_tl, Exists_cons_tl, Exists_cons_hd. done.
Defined.

End NasFacts.
